(** * Keyword extraction and recommendation: a shallow embedding

    The development follows the Python sources:
    - [robot_keyword_extractor.py]  (class RobotKeywordExtractor),
    - [log_html_parser.py]          (class LogHTMLExtractor),
    - [robot_keyword_recommender.py] (classes KeywordPatternAnalyzer and
      RobotKeywordRecommender).

    Python values are modelled as follows.
    - [str] is [string].  [lower], [String.length] and [strip] are
      [str.lower], [len] and [str.strip] on ASCII text; the statements that
      depend on them are made for ASCII text ([ascii_text]).
    - [dict], [defaultdict] and [Counter] keep insertion order, which the
      code observes through [items()], [most_common] and the stable
      [sort]; they are association lists with unique keys, updated in place
      or extended at the end.
    - [set] is [gset string].  Python fixes no iteration order for sets.
      The queries iterate in the order [elements], and what is stated about
      them does not depend on that order; their variants [..._in] take the
      order as a parameter ([Iteration]), and are the ones used where two
      analyzers with the same sets are compared: a saved model and the
      loaded one.
    - [int] counters are [nat]; the [max_recommendations] argument comes
      from the caller and may be negative, it is [Z].
    - [count / total] is the exact rational; the float computed by Python
      is a rounded value of that rational.  Sums are stated on the counts
      and on the exact fractions, and for the rounded values within a bound
      that follows from the relative error of the rounding.
    - exceptions are an explicit outcome type: [SystemExit] is not an
      [Exception], and the difference matters to the training loop. *)

From Stdlib Require Import QArith Qabs.
From stdpp Require Import base list sorting strings gmap.

Set Warnings "-register-all".
Open Scope string_scope.
Open Scope list_scope.

(** ** Python built-ins used by the code *)

Module Py.

  (** [dict]: an insertion-ordered map with string keys. *)
Definition dict (V : Type) : Type := list (string * V).

Section Dict.
Context {V : Type}.

    (** [d.get(k)], [None] when the key is absent. *)
Fixpoint get (d : dict V) (k : string) : option V :=
      match d with
      | [] => None
      | (k', v) :: d' => if decide (k' = k) then Some v else get d' k
      end.

    (** [k in d] *)
Definition contains (d : dict V) (k : string) : bool :=
      match get d k with Some _ => true | None => false end.

    (** [d[k] = v]: an existing key keeps its position, a new key goes
        last. *)
Fixpoint setitem (d : dict V) (k : string) (v : V) : dict V :=
      match d with
      | [] => [(k, v)]
      | (k', v') :: d' =>
          if decide (k' = k) then (k', v) :: d' else (k', v') :: setitem d' k v
      end.

    (** [d.get(k, dflt)], also [d[k]] on a [defaultdict] or a [Counter]
        whose key may be missing. *)
Definition get_default (d : dict V) (k : string) (dflt : V) : V :=
      default dflt (get d k).

Definition keys (d : dict V) : list string := d.*1.
Definition values (d : dict V) : list V := d.*2.
End Dict.

  (** [{k: f(v) for k, v in d.items()}] *)
Definition map_values {V W : Type} (f : V → W) (d : dict V) : dict W :=
    (λ kv, (kv.1, f kv.2)) <$> d.

  (** [Counter]: counts are read as 0 when the key is absent. *)
Definition count (c : dict nat) (k : string) : nat := get_default c k 0.

  (** [c[k] += 1] *)
Definition incr (c : dict nat) (k : string) : dict nat :=
    setitem c k (count c k + 1).

  (** [sum(c.values())] *)
Definition total (c : dict nat) : nat := sum_list (values c).

  (** [sorted(l, key=..., reverse=True)] and [l.sort(key=..., reverse=True)]:
      descending and stable; [leb x y] compares the keys of [x] and [y]. *)
Section Sort.
Context {A : Type} (leb : A → A → bool).

Fixpoint insert_desc (x : A) (l : list A) : list A :=
      match l with
      | [] => [x]
      | y :: l' => if leb y x then x :: l else y :: insert_desc x l'
      end.

Definition sorted_reverse (l : list A) : list A :=
      foldr insert_desc [] l.
End Sort.

  (** [l[:n]]; a negative [n] drops the last [-n] elements. *)
Definition slice_to {A : Type} (n : Z) (l : list A) : list A :=
    if decide (0 ≤ n)%Z then take (Z.to_nat n) l
    else take (length l - Z.to_nat (- n)) l.

  (** [heapq.nlargest(n, l, key)]: the first [n] elements of the stable
      descending sort, nothing when [n] is not positive. *)
Definition nlargest {A : Type} (leb : A → A → bool) (n : Z) (l : list A)
    : list A :=
    if decide (n ≤ 0)%Z then [] else take (Z.to_nat n) (sorted_reverse leb l).

Definition count_leb (x y : string * nat) : bool := Nat.leb x.2 y.2.

  (** [c.most_common(n)] *)
Definition most_common (n : Z) (c : dict nat) : list (string * nat) :=
    nlargest count_leb n c.

  (** [c.most_common()] without a bound *)
Definition most_common_all (c : dict nat) : list (string * nat) :=
    sorted_reverse count_leb c.

  (** [str.lower] on ASCII text *)
Definition lower_ascii (c : Ascii.ascii) : Ascii.ascii :=
    let n := Ascii.nat_of_ascii c in
    if Nat.leb 65 n && Nat.leb n 90 then Ascii.ascii_of_nat (n + 32) else c.

Fixpoint lower (s : string) : string :=
    match s with
    | EmptyString => EmptyString
    | String c s' => String (lower_ascii c) (lower s')
    end.

  (** [s.startswith(p)] *)
Fixpoint startswith (p s : string) : bool :=
    match p, s with
    | EmptyString, _ => true
    | String a p', String b s' =>
        if decide (a = b) then startswith p' s' else false
    | String _ _, EmptyString => false
    end.

  (** [p in s] on strings: [p] occurs in [s] at some position. *)
Fixpoint str_in (p s : string) : bool :=
    startswith p s ||
    match s with
    | EmptyString => false
    | String _ s' => str_in p s'
    end.

  (** [l.index(x)], [None] standing for [ValueError]. *)
Fixpoint index (l : list string) (x : string) : option nat :=
    match l with
    | [] => None
    | y :: l' => if decide (y = x) then Some 0 else S <$> index l' x
    end.

  (** [sep.join(l)] *)
Fixpoint join (sep : string) (l : list string) : string :=
    match l with
    | [] => ""
    | [x] => x
    | x :: l' => x +:+ sep +:+ join sep l'
    end.

  (** What a call does: return, raise an [Exception], or raise
      [SystemExit] (which [except Exception] does not catch). *)
Inductive outcome (A : Type) : Type :=
  | Return (a : A)
  | RaiseException (msg : string)
  | RaiseSystemExit (code : Z).
Arguments Return {A} a.
Arguments RaiseException {A} msg.
Arguments RaiseSystemExit {A} code.

End Py.

Import Py.

(** ** Keyword records *)

(** The dictionary built for every keyword by both extractors. *)
Record KeywordInfo : Type := {
  kw_name : string;
  kw_type : string;
  kw_library : string;
  kw_level : nat;
  kw_parent : string;
  kw_test_name : string;
  kw_start_time : string;
  kw_end_time : string;
  kw_status : string;
  kw_arguments : list string;
  kw_return_values : list string;
  kw_execution_order : nat
}.

(** ** robot_keyword_extractor.py *)

Module RobotKeywordExtractor.

  (** An [xml.etree.ElementTree.Element]: tag, attributes, text and
      children in document order. *)
Inductive Element : Type :=
  | mkElement (tag : string) (attrib : dict string) (text : option string)
      (children : list Element).

Definition tag (e : Element) : string :=
    match e with mkElement t _ _ _ => t end.
Definition attrib (e : Element) : dict string :=
    match e with mkElement _ a _ _ => a end.
Definition text (e : Element) : option string :=
    match e with mkElement _ _ x _ => x end.
Definition children (e : Element) : list Element :=
    match e with mkElement _ _ _ cs => cs end.

  (** [element.get(key, dflt)] *)
Definition attr (e : Element) (key dflt : string) : string :=
    get_default (attrib e) key dflt.

  (** [element.findall(t)]: the direct children with tag [t]. *)
Definition findall (e : Element) (t : string) : list Element :=
    filter (λ c, tag c = t) (children e).

  (** [element.find(t)]: the first direct child with tag [t]. *)
Definition find (e : Element) (t : string) : option Element :=
    head (findall e t).

  (** The element and everything below it, in document order. *)
Fixpoint iter (e : Element) : list Element :=
    match e with
    | mkElement _ _ _ cs =>
        e :: (fix each (cs : list Element) : list Element :=
                match cs with
                | [] => []
                | c :: cs' => iter c ++ each cs'
                end) cs
    end.

  (** [element.findall('.//t')]: all descendants with tag [t]. *)
Definition findall_desc (e : Element) (t : string) : list Element :=
    filter (λ c, tag c = t) (children e ≫= iter).

  (** [element.find('.//t')] *)
Definition find_desc (e : Element) (t : string) : option Element :=
    head (findall_desc e t).

  (** [x.text or ''] *)
Definition text_or_empty (e : Element) : string := default "" (text e).

  (** The record built for a [kw] element when [self.keywords] holds
      [keywords]. *)
Definition keyword_info (element : Element) (level : nat)
      (parent_name test_name : string) (keywords : list KeywordInfo)
    : KeywordInfo :=
    {| kw_name := attr element "name" "Unknown";
       kw_type := attr element "type" "keyword";
       kw_library := attr element "library" "";
       kw_level := level;
       kw_parent := parent_name;
       kw_test_name := test_name;
       kw_start_time := attr element "starttime" "";
       kw_end_time := attr element "endtime" "";
       kw_status :=
         match find element "status" with
         | Some status_elem => attr status_elem "status" "UNKNOWN"
         | None => "UNKNOWN"
         end;
       kw_arguments :=
         match find element "arguments" with
         | Some args_elem => text_or_empty <$> findall args_elem "arg"
         | None => []
         end;
       kw_return_values :=
         match find element "return" with
         | Some return_elem => text_or_empty <$> findall return_elem "return"
         | None => []
         end;
       kw_execution_order := length keywords + 1 |}.

  (** [f"{parent_name}.{keyword_name}" if parent_name else keyword_name] *)
Definition child_parent (parent_name keyword_name : string) : string :=
    if decide (parent_name = "") then keyword_name
    else parent_name +:+ "." +:+ keyword_name.

  (** [extract_keywords_recursive]; [self.keywords] is threaded through as
      [keywords] and returned. *)
Fixpoint extract_keywords_recursive (element : Element) (level : nat)
      (parent_name test_name : string) (keywords : list KeywordInfo)
    : list KeywordInfo :=
    match element with
    | mkElement t _ _ cs =>
        if decide (t = "kw") then
          let keywords := keywords ++
            [keyword_info element level parent_name test_name keywords] in
          let current_parent :=
            child_parent parent_name (attr element "name" "Unknown") in
          (fix each (cs : list Element) (keywords : list KeywordInfo) :=
             match cs with
             | [] => keywords
             | child :: cs' =>
                 each cs' (extract_keywords_recursive child (level + 1)
                             current_parent test_name keywords)
             end) cs keywords
        else if decide (t = "test") then
          let test_name := attr element "name" "Unknown Test" in
          let current_parent := test_name in
          (fix each (cs : list Element) (keywords : list KeywordInfo) :=
             match cs with
             | [] => keywords
             | child :: cs' =>
                 each cs' (extract_keywords_recursive child level
                             current_parent test_name keywords)
             end) cs keywords
        else
          (fix each (cs : list Element) (keywords : list KeywordInfo) :=
             match cs with
             | [] => keywords
             | child :: cs' =>
                 each cs' (extract_keywords_recursive child level
                             parent_name test_name keywords)
             end) cs keywords
    end.

  (** What [ET.parse(self.output_file)] meets on disk. *)
Inductive file_state : Type :=
  | FileNotFound
  | ReadError (msg : string)
  | NotWellFormed (msg : string)
  | Document (root : Element).

  (** [parse_xml]: every failure is printed and turned into
      [sys.exit(1)]. *)
Definition parse_xml (f : file_state) : outcome Element :=
    match f with
    | Document root => Return root
    | NotWellFormed _ => RaiseSystemExit 1
    | FileNotFound => RaiseSystemExit 1
    | ReadError _ => RaiseSystemExit 1
    end.

  (** The loop [for suite in robot_elem.findall('.//suite')]. *)
Definition extract_suites (suites : list Element)
      (keywords : list KeywordInfo) : list KeywordInfo :=
    foldl (λ keywords suite, extract_keywords_recursive suite 0 "" "" keywords)
      keywords suites.

  (** [extract_keywords] on an extractor whose [self.keywords] is
      [keywords] (empty for a new extractor). *)
Definition extract_keywords (f : file_state) (keywords : list KeywordInfo)
    : outcome (list KeywordInfo) :=
    match parse_xml f with
    | Return root =>
        let robot_elem :=
          if decide (tag root = "robot") then Some root
          else find_desc root "robot" in
        match robot_elem with
        | Some robot_elem =>
            Return (extract_suites (findall_desc robot_elem "suite") keywords)
        | None => RaiseSystemExit 1
        end
    | RaiseException msg => RaiseException msg
    | RaiseSystemExit code => RaiseSystemExit code
    end.

End RobotKeywordExtractor.

(** ** robot_keyword_recommender.py: KeywordPatternAnalyzer *)

Module KeywordPatternAnalyzer.

  (** The six attributes set by [__init__]. *)
Record Analyzer : Type := {
    keyword_sequences : list (list string);
    keyword_transitions : dict (dict nat);
    keyword_contexts : dict (gset string);
    library_keywords : dict (gset string);
    keyword_frequencies : dict nat;
    keyword_libraries : dict string
  }.

  (** [KeywordPatternAnalyzer()] *)
Definition init : Analyzer :=
    {| keyword_sequences := [];
       keyword_transitions := [];
       keyword_contexts := [];
       library_keywords := [];
       keyword_frequencies := [];
       keyword_libraries := [] |}.

  (** [keyword['library'] or 'BuiltIn'] *)
Definition library_or_builtin (keyword : KeywordInfo) : string :=
    if decide (kw_library keyword = "") then "BuiltIn" else kw_library keyword.

  (** The context update at the head of the loop body. *)
Definition next_context (current_context : string) (keyword : KeywordInfo)
    : string :=
    if decide (kw_level keyword = 0) then kw_name keyword
    else if decide (kw_level keyword = 1)
         then current_context +:+ "." +:+ kw_name keyword
         else current_context.

  (** [self.keyword_transitions[prev][name] += 1] *)
Definition add_transition (t : dict (dict nat)) (prev name : string)
    : dict (dict nat) :=
    setitem t prev (incr (get_default t prev []) name).

  (** [d[key].add(x)] on a [defaultdict(set)] *)
Definition add_to_set (d : dict (gset string)) (key x : string)
    : dict (gset string) :=
    setitem d key (get_default d key ∅ ∪ {[x]}).

  (** [keyword['type'] in ['SETUP', 'TEARDOWN'] and level == 0] *)
Definition is_boundary (keyword : KeywordInfo) : bool :=
    bool_decide (kw_type keyword ∈ ["SETUP"; "TEARDOWN"])
    && bool_decide (kw_level keyword = 0).

  (** The local variables of [analyze_output_file] together with [self]. *)
Record loop_state : Type := {
    self : Analyzer;
    current_sequence : list string;
    current_context : string
  }.

  (** One iteration of [for keyword in keywords]. *)
Definition analyze_keyword (s : loop_state) (keyword : KeywordInfo)
    : loop_state :=
    let st := self s in
    let keyword_name := kw_name keyword in
    let library := library_or_builtin keyword in
    let context := next_context (current_context s) keyword in
    let transitions :=
      match last (current_sequence s) with
      | Some prev_keyword =>
          add_transition (keyword_transitions st) prev_keyword keyword_name
      | None => keyword_transitions st
      end in
    let sequence := current_sequence s ++ [keyword_name] in
    let closed := is_boundary keyword && bool_decide (1 < length sequence) in
    {| self :=
         {| keyword_sequences :=
              if closed then keyword_sequences st ++ [sequence]
              else keyword_sequences st;
            keyword_transitions := transitions;
            keyword_contexts :=
              add_to_set (keyword_contexts st) keyword_name context;
            library_keywords :=
              add_to_set (library_keywords st) library keyword_name;
            keyword_frequencies := incr (keyword_frequencies st) keyword_name;
            keyword_libraries :=
              setitem (keyword_libraries st) keyword_name library |};
       current_sequence :=
         if is_boundary keyword then [keyword_name] else sequence;
       current_context := context |}.

  (** The [# Add final sequence] step. *)
Definition finish (s : loop_state) : Analyzer :=
    let st := self s in
    match current_sequence s with
    | [] => st
    | _ :: _ =>
        {| keyword_sequences := keyword_sequences st ++ [current_sequence s];
           keyword_transitions := keyword_transitions st;
           keyword_contexts := keyword_contexts st;
           library_keywords := library_keywords st;
           keyword_frequencies := keyword_frequencies st;
           keyword_libraries := keyword_libraries st |}
    end.

  (** The body of [analyze_output_file] once [keywords] is extracted. *)
Definition analyze_keywords (st : Analyzer) (keywords : list KeywordInfo)
    : Analyzer :=
    finish (foldl analyze_keyword
              {| self := st; current_sequence := []; current_context := "" |}
              keywords).

  (** [analyze_output_file]: a new extractor reads the file, then the
      records are ingested. *)
Definition analyze_output_file (f : RobotKeywordExtractor.file_state)
      (st : Analyzer) : outcome Analyzer :=
    match RobotKeywordExtractor.extract_keywords f [] with
    | Return keywords => Return (analyze_keywords st keywords)
    | RaiseException msg => RaiseException msg
    | RaiseSystemExit code => RaiseSystemExit code
    end.

  (** The dataclass [KeywordRecommendation]. *)
Record KeywordRecommendation : Type := {
    keyword : string;
    library : string;
    confidence : Q;
    context : string;
    usage_count : nat;
    next_keywords : list string
  }.

  (** [count / total_count] *)
Definition ratio (count total_count : nat) : Q :=
    (inject_Z (Z.of_nat count) / inject_Z (Z.of_nat total_count))%Q.

  (** Order of the keys [(x.confidence, x.usage_count)]. *)
Definition recommendation_leb (x y : KeywordRecommendation) : bool :=
    if Qeq_bool (confidence x) (confidence y)
    then Nat.leb (usage_count x) (usage_count y)
    else Qle_bool (confidence x) (confidence y).

  (** The first block of [get_recommendations]: direct transitions. *)
Definition direct_recommendations (st : Analyzer)
      (current_keyword context : string) (max_recommendations : Z)
    : list KeywordRecommendation :=
    match get (keyword_transitions st) current_keyword with
    | Some transitions =>
        let total_count := total transitions in
        (λ item : string * nat,
           let next_keyword := item.1 in
           let count := item.2 in
           {| keyword := next_keyword;
              library := get_default (keyword_libraries st) next_keyword
                           "BuiltIn";
              confidence := ratio count total_count;
              context := context;
              usage_count := count;
              next_keywords :=
                match get (keyword_transitions st) next_keyword with
                | Some t => (most_common 3 t).*1
                | None => []
                end |})
        <$> most_common max_recommendations transitions
    | None => []
    end.

  (** The second block: the keywords of the same library. *)
Definition library_recommendations (st : Analyzer)
      (current_keyword context : string) : list KeywordRecommendation :=
    match get (keyword_libraries st) current_keyword with
    | Some current_library =>
        (λ keyword,
           {| keyword := keyword;
              library := current_library;
              confidence := 1 # 10;
              context := context;
              usage_count := count (keyword_frequencies st) keyword;
              next_keywords := [] |})
        <$> filter (λ keyword, keyword ≠ current_keyword)
              (elements (get_default (library_keywords st) current_library ∅))
    | None => []
    end.

Definition get_recommendations (st : Analyzer)
      (current_keyword context : string) (max_recommendations : Z)
    : list KeywordRecommendation :=
    let recommendations :=
      direct_recommendations st current_keyword context max_recommendations in
    let recommendations :=
      match recommendations with
      | [] => library_recommendations st current_keyword context
      | _ :: _ => recommendations
      end in
    slice_to max_recommendations
      (sorted_reverse recommendation_leb recommendations).

  (** One autocomplete suggestion (a dictionary in the code). *)
Record Suggestion : Type := {
    sg_keyword : string;
    sg_library : string;
    sg_frequency : nat;
    sg_contexts : list string
  }.

  (** Order of the keys [(x['frequency'], len(x['keyword']))]. *)
Definition suggestion_leb (x y : Suggestion) : bool :=
    if decide (sg_frequency x = sg_frequency y)
    then Nat.leb (String.length (sg_keyword x)) (String.length (sg_keyword y))
    else Nat.leb (sg_frequency x) (sg_frequency y).

  (** [library_filter and library != library_filter] *)
Definition filtered_out (library_filter : option string) (library : string)
    : bool :=
    match library_filter with
    | Some f => negb (bool_decide (f = "")) && negb (bool_decide (library = f))
    | None => false
    end.

  (** The suggestions collected by the loop, before sorting. *)
Definition matching_suggestions (st : Analyzer) (partial_keyword : string)
      (library_filter : option string) : list Suggestion :=
    let partial_lower := lower partial_keyword in
    (λ item : string * string,
       {| sg_keyword := item.1;
          sg_library := item.2;
          sg_frequency := count (keyword_frequencies st) item.1;
          sg_contexts := elements (get_default (keyword_contexts st) item.1 ∅)
       |})
    <$> filter (λ item : string * string,
                  filtered_out library_filter item.2 = false
                  ∧ str_in partial_lower (lower item.1) = true)
          (keyword_libraries st).

Definition get_autocomplete_suggestions (st : Analyzer)
      (partial_keyword : string) (library_filter : option string)
    : list Suggestion :=
    slice_to 20
      (sorted_reverse suggestion_leb
         (matching_suggestions st partial_keyword library_filter)).

  (** [max(sequence.index(kw) for kw in context_keywords)] *)
Definition last_context_pos (sequence context_keywords : list string) : nat :=
    max_list ((λ kw, default 0 (index sequence kw)) <$> context_keywords).

  (** [all(kw in sequence for kw in context_keywords)] *)
Definition contains_all (sequence context_keywords : list string) : Prop :=
    Forall (λ kw, kw ∈ sequence) context_keywords.

  (** The tally loop over the matching sequences. *)
Definition tally_next (next_keyword_counts : dict nat)
      (context_keywords sequence : list string) : dict nat :=
    match sequence !! (last_context_pos sequence context_keywords + 1) with
    | Some next_keyword => incr next_keyword_counts next_keyword
    | None => next_keyword_counts
    end.

Definition get_context_recommendations (st : Analyzer)
      (context_keywords : list string) (max_recommendations : Z)
    : list KeywordRecommendation :=
    match context_keywords with
    | [] => []
    | _ :: _ =>
        let matching_sequences :=
          filter (λ sequence, contains_all sequence context_keywords)
            (keyword_sequences st) in
        match matching_sequences with
        | [] => []
        | _ :: _ =>
            let next_keyword_counts :=
              foldl (λ counts sequence,
                       tally_next counts context_keywords sequence)
                [] matching_sequences in
            let total_count := total next_keyword_counts in
            (λ item : string * nat,
               {| keyword := item.1;
                  library := get_default (keyword_libraries st) item.1
                               "BuiltIn";
                  confidence := ratio item.2 total_count;
                  context := join " -> " context_keywords;
                  usage_count := item.2;
                  next_keywords := [] |})
            <$> most_common max_recommendations next_keyword_counts
        end
    end.

  (** The order in which the sets of an analyzer are iterated.  Python
      fixes none: it depends on how the set object was built, and two sets
      with the same elements may be iterated differently.
      [contexts_order it k v] is the order of [self.keyword_contexts[k]]
      when it holds [v], and [library_order it lib v] that of
      [self.library_keywords[lib]]. *)
Record Iteration : Type := {
    contexts_order : string → gset string → list string;
    library_order : string → gset string → list string
  }.

  (** The second block of [get_recommendations], the library set being
      iterated as [it] says. *)
Definition library_recommendations_in (it : Iteration) (st : Analyzer)
      (current_keyword context : string) : list KeywordRecommendation :=
    match get (keyword_libraries st) current_keyword with
    | Some current_library =>
        (λ keyword,
           {| keyword := keyword;
              library := current_library;
              confidence := 1 # 10;
              context := context;
              usage_count := count (keyword_frequencies st) keyword;
              next_keywords := [] |})
        <$> filter (λ keyword, keyword ≠ current_keyword)
              (library_order it current_library
                 (get_default (library_keywords st) current_library ∅))
    | None => []
    end.

Definition get_recommendations_in (it : Iteration) (st : Analyzer)
      (current_keyword context : string) (max_recommendations : Z)
    : list KeywordRecommendation :=
    let recommendations :=
      direct_recommendations st current_keyword context max_recommendations in
    let recommendations :=
      match recommendations with
      | [] => library_recommendations_in it st current_keyword context
      | _ :: _ => recommendations
      end in
    slice_to max_recommendations
      (sorted_reverse recommendation_leb recommendations).

  (** The suggestions collected by the loop of
      [get_autocomplete_suggestions], the context sets being iterated as
      [it] says. *)
Definition matching_suggestions_in (it : Iteration) (st : Analyzer)
      (partial_keyword : string) (library_filter : option string)
    : list Suggestion :=
    let partial_lower := lower partial_keyword in
    (λ item : string * string,
       {| sg_keyword := item.1;
          sg_library := item.2;
          sg_frequency := count (keyword_frequencies st) item.1;
          sg_contexts :=
            contexts_order it item.1
              (get_default (keyword_contexts st) item.1 ∅) |})
    <$> filter (λ item : string * string,
                  filtered_out library_filter item.2 = false
                  ∧ str_in partial_lower (lower item.1) = true)
          (keyword_libraries st).

Definition get_autocomplete_suggestions_in (it : Iteration) (st : Analyzer)
      (partial_keyword : string) (library_filter : option string)
    : list Suggestion :=
    slice_to 20
      (sorted_reverse suggestion_leb
         (matching_suggestions_in it st partial_keyword library_filter)).

  (** The dictionary pickled by [save_model]: sets are stored as lists. *)
Record ModelData : Type := {
    md_keyword_transitions : dict (dict nat);
    md_keyword_contexts : dict (list string);
    md_library_keywords : dict (list string);
    md_keyword_frequencies : dict nat;
    md_keyword_libraries : dict string;
    md_keyword_sequences : list (list string)
  }.

  (** [save_model]: the value handed to [pickle.dump]; [list(v)] lists
      every set in the order in which it is iterated. *)
Definition save_model (it : Iteration) (st : Analyzer) : ModelData :=
    {| md_keyword_transitions := keyword_transitions st;
       md_keyword_contexts :=
         (λ kv, (kv.1, contexts_order it kv.1 kv.2)) <$> keyword_contexts st;
       md_library_keywords :=
         (λ kv, (kv.1, library_order it kv.1 kv.2)) <$> library_keywords st;
       md_keyword_frequencies := keyword_frequencies st;
       md_keyword_libraries := keyword_libraries st;
       md_keyword_sequences := keyword_sequences st |}.

  (** [load_model]: every attribute is replaced by what [pickle.load]
      returned; [set(v)] builds new sets, whose iteration order is that of
      the loaded analyzer and not that of the saved one. *)
Definition load_model (st : Analyzer) (model_data : ModelData) : Analyzer :=
    {| keyword_transitions := md_keyword_transitions model_data;
       keyword_contexts :=
         map_values list_to_set (md_keyword_contexts model_data);
       library_keywords :=
         map_values list_to_set (md_library_keywords model_data);
       keyword_frequencies := md_keyword_frequencies model_data;
       keyword_libraries := md_keyword_libraries model_data;
       keyword_sequences := md_keyword_sequences model_data |}.

End KeywordPatternAnalyzer.

(** ** robot_keyword_recommender.py: RobotKeywordRecommender *)

Module RobotKeywordRecommender.
Import KeywordPatternAnalyzer.

  (** The files named on the command line, as the extractor finds them. *)
Definition filesystem : Type := string → RobotKeywordExtractor.file_state.

  (** The loop of [train_on_output_files] over [self.analyzer]:
      [except Exception] swallows an exception and goes on with the next
      file; anything else leaves the loop. *)
Fixpoint train_on_output_files (fs : filesystem) (output_files : list string)
      (analyzer : Analyzer) : outcome Analyzer :=
    match output_files with
    | [] => Return analyzer
    | output_file :: rest =>
        match analyze_output_file (fs output_file) analyzer with
        | Return analyzer' => train_on_output_files fs rest analyzer'
        | RaiseException _ => train_on_output_files fs rest analyzer
        | RaiseSystemExit code => RaiseSystemExit code
        end
    end.

  (** One entry of [get_library_statistics]. *)
Record LibraryStats : Type := {
    keyword_count : nat;
    total_usage : nat;
    top_keywords : list (string * nat)
  }.

Definition get_library_statistics (analyzer : Analyzer) : dict LibraryStats :=
    map_values
      (λ keywords : gset string,
         let usage := λ kw, count (keyword_frequencies analyzer) kw in
         {| keyword_count := length (elements keywords);
            total_usage := sum_list (usage <$> elements keywords);
            top_keywords :=
              (λ item : string * nat, (item.1, usage item.1))
              <$> most_common 5 ((λ kw, (kw, usage kw)) <$> elements keywords)
         |})
      (library_keywords analyzer).

  (** [get_library_statistics], the library sets being iterated as [it]
      says. *)
Definition get_library_statistics_in (it : Iteration) (analyzer : Analyzer)
    : dict LibraryStats :=
    (λ kv : string * gset string,
       let keywords := library_order it kv.1 kv.2 in
       let usage := λ kw, count (keyword_frequencies analyzer) kw in
       (kv.1,
        {| keyword_count := size kv.2;
           total_usage := sum_list (usage <$> keywords);
           top_keywords :=
             (λ item : string * nat, (item.1, usage item.1))
             <$> most_common 5 ((λ kw, (kw, usage kw)) <$> keywords) |}))
    <$> library_keywords analyzer.

  (** One entry of [get_popular_keywords]. *)
Record PopularKeyword : Type := {
    pk_keyword : string;
    pk_library : string;
    pk_frequency : nat
  }.

  (** [library is None or keyword_library == library] *)
Definition library_matches (library : option string) (keyword_library : string)
    : bool :=
    match library with
    | None => true
    | Some l => bool_decide (keyword_library = l)
    end.

  (** The loop of [get_popular_keywords] over the pairs returned by
      [most_common]; [break] leaves it as soon as [result] holds [limit]
      entries. *)
Fixpoint popular_loop (analyzer : Analyzer) (library : option string)
      (limit : Z) (keywords : list (string * nat))
      (result : list PopularKeyword) : list PopularKeyword :=
    match keywords with
    | [] => result
    | (keyword, count) :: keywords' =>
        let keyword_library :=
          get_default (keyword_libraries analyzer) keyword "BuiltIn" in
        if library_matches library keyword_library then
          let result := result ++
            [{| pk_keyword := keyword;
                pk_library := keyword_library;
                pk_frequency := count |}] in
          if decide (limit ≤ Z.of_nat (length result))%Z then result
          else popular_loop analyzer library limit keywords' result
        else popular_loop analyzer library limit keywords' result
    end.

Definition get_popular_keywords (analyzer : Analyzer)
      (library : option string) (limit : Z) : list PopularKeyword :=
    popular_loop analyzer library limit
      (most_common (limit * 2) (keyword_frequencies analyzer)) [].

End RobotKeywordRecommender.

(** ** log_html_parser.py: the markup-row fallback of LogHTMLExtractor *)

Module LogHTMLExtractor.

  (** The attributes set by [__init__] that extraction updates. *)
Record Extractor : Type := {
    keywords : list KeywordInfo;
    execution_order : nat
  }.

  (** [LogHTMLExtractor(log_file)] *)
Definition init : Extractor := {| keywords := []; execution_order := 0 |}.

  (** The ASCII characters removed by [str.strip()]. *)
Definition is_space (c : Ascii.ascii) : bool :=
    let n := Ascii.nat_of_ascii c in
    (Nat.leb 9 n && Nat.leb n 13) || (Nat.leb 28 n && Nat.leb n 32).

Fixpoint lstrip (s : string) : string :=
    match s with
    | EmptyString => EmptyString
    | String c s' => if is_space c then lstrip s' else s
    end.

  (** [s.strip()] *)
Definition strip (s : string) : string :=
    String.rev (lstrip (String.rev (lstrip s))).

Section Re.
    (** The [re] module is taken as given: [finditer p s] is group 1 of
        every match of [p] in [s], in order, and [sub p r s] is
        [re.sub(p, r, s)].  [keyword_pattern] and [tag_pattern] are the two
        pattern literals of [extract_from_html_tables]. *)
Variable finditer : string → string → list string.
Variable sub : string → string → string → string.
Variables keyword_pattern tag_pattern : string.

    (** The body of [for match in matches]. *)
Definition table_row (level_stack : list nat) (parent_stack : list string)
        (self : Extractor) (group1 : string) : Extractor :=
      let keyword_name := strip (sub tag_pattern "" group1) in
      if decide (keyword_name = "") then self
      else
        let execution_order := execution_order self + 1 in
        {| keywords := keywords self ++
             [{| kw_name := keyword_name;
                 kw_type := "keyword";
                 kw_library := "";
                 kw_level := default 0 (last level_stack);
                 kw_parent := default "" (last parent_stack);
                 kw_test_name := "";
                 kw_start_time := "";
                 kw_end_time := "";
                 kw_status := "UNKNOWN";
                 kw_arguments := [];
                 kw_return_values := [];
                 kw_execution_order := execution_order |}];
           execution_order := execution_order |}.

    (** [extract_from_html_tables]: the two stacks are created and never
        pushed to or popped from. *)
Definition extract_from_html_tables (content : string) (self : Extractor)
      : Extractor :=
      let level_stack := [0] in
      let parent_stack := [""] in
      foldl (table_row level_stack parent_stack) self
        (finditer keyword_pattern content).
End Re.

End LogHTMLExtractor.

(** ** Derived observations and the scenarios used below *)

Module Scenarios.
Import KeywordPatternAnalyzer.

  (** The number of times [a] was immediately followed by [b]. *)
Definition transition_count (st : Analyzer) (a b : string) : nat :=
    count (get_default (keyword_transitions st) a []) b.

  (** The keywords listed under [lib] in the library index. *)
Definition library_index (st : Analyzer) (lib : string) : gset string :=
    get_default (library_keywords st) lib ∅.

  (** The contexts recorded for a keyword. *)
Definition contexts_of (st : Analyzer) (name : string) : gset string :=
    get_default (keyword_contexts st) name ∅.

  (** A record with the given name, kind, library, level and parent path;
      the other fields play no role in training. *)
Definition record (name type library : string) (level : nat)
      (parent : string) (order : nat) : KeywordInfo :=
    {| kw_name := name; kw_type := type; kw_library := library;
       kw_level := level; kw_parent := parent; kw_test_name := "";
       kw_start_time := ""; kw_end_time := ""; kw_status := "PASS";
       kw_arguments := []; kw_return_values := [];
       kw_execution_order := order |}.

  (** Setup A, B nested in A, C, teardown D. *)
Definition setup_nested_teardown : list KeywordInfo :=
    [ record "A" "SETUP" "" 0 "" 1;
      record "B" "keyword" "" 1 "A" 2;
      record "C" "keyword" "" 0 "" 3;
      record "D" "TEARDOWN" "" 0 "" 4 ].

  (** Keyword X seen under LibA, then under LibB. *)
Definition two_libraries : list KeywordInfo :=
    [ record "X" "keyword" "LibA" 0 "" 1;
      record "X" "keyword" "LibB" 0 "" 2 ].

(** A log with a keyword Parent holding a keyword Child, inside a suite
    Inner that is itself inside a suite Outer. *)
Definition nested_suites : RobotKeywordExtractor.Element :=
  RobotKeywordExtractor.mkElement "robot" [] None
    [RobotKeywordExtractor.mkElement "suite" [("name", "Outer")] None
       [RobotKeywordExtractor.mkElement "suite" [("name", "Inner")] None
          [RobotKeywordExtractor.mkElement "kw" [("name", "Parent")] None
             [RobotKeywordExtractor.mkElement "kw" [("name", "Child")] None
                []]]]].

(** A log with one suite, one test and one keyword. *)
Definition good_log : RobotKeywordExtractor.Element :=
  RobotKeywordExtractor.mkElement "robot" [] None
    [RobotKeywordExtractor.mkElement "suite" [("name", "S")] None
       [RobotKeywordExtractor.mkElement "test" [("name", "T")] None
          [RobotKeywordExtractor.mkElement "kw"
             [("name", "Log"); ("library", "BuiltIn")] None []]]].

(** A directory where only good.xml exists. *)
Definition disk : RobotKeywordRecommender.filesystem :=
  λ path,
    if decide (path = "good.xml") then RobotKeywordExtractor.Document good_log
    else RobotKeywordExtractor.FileNotFound.

(** Name and execution order of every record. *)
Definition orders (keywords : list KeywordInfo) : list (string * nat) :=
  (λ r, (kw_name r, kw_execution_order r)) <$> keywords.

(** The fields that the markup-row fallback cannot recover. *)
Definition bare_top_level (r : KeywordInfo) : Prop :=
  kw_level r = 0 ∧ kw_parent r = "" ∧ kw_library r = "" ∧
  kw_status r = "UNKNOWN" ∧ kw_start_time r = "" ∧ kw_end_time r = "" ∧
  kw_arguments r = [] ∧ kw_return_values r = [].

(** The records appended to [keywords] number on from [length keywords]. *)
Definition numbered_from (keywords new : list KeywordInfo) : Prop :=
  kw_execution_order <$> new = seq (length keywords + 1) (length new).

(** The analyzers that training can produce. *)
Inductive trained : Analyzer → Prop :=
| trained_init : trained init
| trained_analyze st keywords :
    trained st → trained (analyze_keywords st keywords).

(** A counter as the loops build them: not empty, one entry for every key,
    positive counts. *)
Definition counter_ok (c : dict nat) : Prop :=
  c ≠ [] ∧ NoDup (keys c) ∧ Forall (λ kv : string * nat, 0 < kv.2) c.

(** Sum of a list of confidences. *)
Definition Qsum (l : list Q) : Q := foldr Qplus 0%Q l.

(** The number of times [k] occurs in [l]. *)
Definition occurrences (k : string) (l : list string) : nat :=
  length (filter (λ x, x = k) l).

(** [i] is the index of the first occurrence of [kw] in [sequence]. *)
Definition first_occurrence (sequence : list string) (kw : string) (i : nat)
  : Prop :=
  sequence !! i = Some kw ∧ ∀ j, j < i → sequence !! j ≠ Some kw.

(** [p] is the largest index among the first occurrences of the context
    keywords in [sequence]. *)
Definition max_first_occurrence (sequence context_keywords : list string)
    (p : nat) : Prop :=
  (∃ kw, kw ∈ context_keywords ∧ first_occurrence sequence kw p)
  ∧ ∀ kw i, kw ∈ context_keywords → first_occurrence sequence kw i → (i ≤ p)%nat.

(** The stored sequences that contain every context keyword. *)
Definition matching_sequences (st : Analyzer) (context_keywords : list string)
  : list (list string) :=
  filter (λ sequence, contains_all sequence context_keywords)
    (keyword_sequences st).

(** The element that follows the context keywords in a sequence, if any. *)
Definition successor (context_keywords sequence : list string)
  : option string :=
  sequence !! (last_context_pos sequence context_keywords + 1).

(** The successors found in the matching sequences, one for every matching
    sequence that has one. *)
Definition successors (st : Analyzer) (context_keywords : list string)
  : list string :=
  omap (successor context_keywords) (matching_sequences st context_keywords).

(** The ranking of the autocomplete query as the specification words it:
    higher frequency first, then the shorter name. *)
Definition shorter_first (x y : Suggestion) : Prop :=
  sg_frequency y < sg_frequency x
  ∨ (sg_frequency x = sg_frequency y
     ∧ (String.length (sg_keyword x) ≤ String.length (sg_keyword y))%nat).

(** The ranking that the sort key of the code gives: higher frequency
    first, then the longer name. *)
Definition longer_first (x y : Suggestion) : Prop :=
  sg_frequency y < sg_frequency x
  ∨ (sg_frequency x = sg_frequency y
     ∧ (String.length (sg_keyword y) ≤ String.length (sg_keyword x))%nat).

(** [p] occurs in [s]: [s] is some text, then [p], then some text. *)
Definition occurs_in (p s : string) : Prop :=
  ∃ before after, s = before +:+ p +:+ after.

(** Two keywords of one library, used once each. *)
Definition click_keywords : list KeywordInfo :=
  [ record "Click" "keyword" "SeleniumLibrary" 0 "" 1;
    record "Click Element" "keyword" "SeleniumLibrary" 0 "" 2 ].

(** Three keywords of one library; K is never followed by anything. *)
Definition same_library : list KeywordInfo :=
  [ record "A" "keyword" "L" 0 "" 1;
    record "B" "keyword" "L" 0 "" 2;
    record "K" "keyword" "L" 0 "" 3 ].

(** Every transition counter of the analyzer is well formed. *)
Definition transitions_ok (st : Analyzer) : Prop :=
  Forall (λ kc : string * dict nat, counter_ok kc.2) (keyword_transitions st).

(** X is followed by Y three times and by Z once, over two logs. *)
Definition xyz_log1 : list KeywordInfo :=
  [ record "X" "keyword" "" 0 "" 1; record "Y" "keyword" "" 0 "" 2;
    record "X" "keyword" "" 0 "" 3; record "Y" "keyword" "" 0 "" 4 ].

Definition xyz_log2 : list KeywordInfo :=
  [ record "X" "keyword" "" 0 "" 1; record "Y" "keyword" "" 0 "" 2;
    record "X" "keyword" "" 0 "" 3; record "Z" "keyword" "" 0 "" 4 ].

(** The other keywords listed under [lib]: the candidates of the library
    fallback for [current_keyword]. *)
Definition other_keywords (st : Analyzer) (lib current_keyword : string)
  : list string :=
  filter (λ keyword, keyword ≠ current_keyword)
    (elements (library_index st lib)).

(** What a library-fallback recommendation for [current_keyword], whose
    library is [lib], looks like. *)
Definition library_suggestion (st : Analyzer) (lib current_keyword : string)
    (r : KeywordRecommendation) : Prop :=
  keyword r ∈ library_index st lib ∧ keyword r ≠ current_keyword
  ∧ library r = lib ∧ confidence r = (1 # 10)%Q
  ∧ usage_count r = count (keyword_frequencies st) (keyword r).

(** What an autocomplete suggestion for [partial_keyword] looks like: an
    entry of the keyword-to-library map whose lowered name contains the
    lowered partial text, of the library of the filter when a non-empty
    filter is given, with the frequency and the contexts of the tables, the
    contexts in some order. *)
Definition matching_entry (st : Analyzer) (partial_keyword : string)
    (library_filter : option string) (s : Suggestion) : Prop :=
  (sg_keyword s, sg_library s) ∈ keyword_libraries st
  ∧ occurs_in (lower partial_keyword) (lower (sg_keyword s))
  ∧ (∀ f, library_filter = Some f → f ≠ "" → sg_library s = f)
  ∧ sg_frequency s = count (keyword_frequencies st) (sg_keyword s)
  ∧ sg_contexts s ≡ₚ elements (contexts_of st (sg_keyword s)).

(** The number of positions of [l] at which [a] is immediately followed by
    [b]. *)
Fixpoint adjacent (a b : string) (l : list string) : nat :=
  match l with
  | [] => 0
  | x :: l' =>
      match l' with
      | [] => 0
      | y :: _ => (if decide (x = a ∧ y = b) then 1 else 0) + adjacent a b l'
      end
  end.

(** The keywords that the analyzer knows: the keys of the
    keyword-to-library map. *)
Definition known (st : Analyzer) (k : string) : Prop :=
  is_Some (get (keyword_libraries st) k).

(** The per-keyword tables of an analyzer agree with one another. *)
Definition indexes_ok (st : Analyzer) : Prop :=
  NoDup (keys (keyword_libraries st))
  ∧ keys (keyword_frequencies st) = keys (keyword_libraries st)
  ∧ keys (keyword_contexts st) = keys (keyword_libraries st)
  ∧ (∀ k lib, get (keyword_libraries st) k = Some lib →
       lib ≠ "" ∧ k ∈ library_index st lib
       ∧ 0 < count (keyword_frequencies st) k ∧ contexts_of st k ≠ ∅)
  ∧ (∀ k lib, k ∈ library_index st lib → known st k)
  ∧ (∀ a b, 0 < transition_count st a b → known st a ∧ known st b)
  ∧ (∀ sequence k, sequence ∈ keyword_sequences st → k ∈ sequence →
       known st k).

(** Consecutive sequences overlap: each one starts with the keyword that
    ended the one before it. *)
Fixpoint chained (sequences : list (list string)) : Prop :=
  match sequences with
  | [] => True
  | a :: sequences' =>
      match sequences' with
      | [] => True
      | b :: _ => is_Some (last a) ∧ last a = head b ∧ chained sequences'
      end
  end.

(** [sequences] cuts the names [first :: rest] into overlapping runs: no
    run is empty, the first run starts with [first], every later run starts
    with the name that ended the run before it, and the runs without their
    first names, put end to end, are [rest]. *)
Definition segmentation (first : string) (rest : list string)
    (sequences : list (list string)) : Prop :=
  Forall (λ sequence, sequence ≠ []) sequences
  ∧ chained sequences
  ∧ head (concat sequences) = Some first
  ∧ rest = concat (tail <$> sequences).


(** The [kw] elements at and below an element, in document order, and the
    names that the extractor reads off them. *)
Definition keyword_elements (e : RobotKeywordExtractor.Element)
    : list RobotKeywordExtractor.Element :=
  filter (λ c, RobotKeywordExtractor.tag c = "kw")
    (RobotKeywordExtractor.iter e).

Definition keyword_names (e : RobotKeywordExtractor.Element) : list string :=
  (λ c, RobotKeywordExtractor.attr c "name" "Unknown") <$> keyword_elements e.

(** The robot element of a document: the root when its tag is robot,
    otherwise the first robot element below it. *)
Definition robot_of (root : RobotKeywordExtractor.Element)
    : option RobotKeywordExtractor.Element :=
  if decide (RobotKeywordExtractor.tag root = "robot") then Some root
  else RobotKeywordExtractor.find_desc root "robot".

(** A file that the extractor can read: a well-formed document with a robot
    element. *)
Definition readable (f : RobotKeywordExtractor.file_state) : Prop :=
  ∃ root, f = RobotKeywordExtractor.Document root ∧ is_Some (robot_of root).


(** The entry that [get_popular_keywords] builds for a pair of the frequency
    table. *)
Definition popular_entry (st : Analyzer) (item : string * nat)
    : RobotKeywordRecommender.PopularKeyword :=
  {| RobotKeywordRecommender.pk_keyword := item.1;
     RobotKeywordRecommender.pk_library :=
       get_default (keyword_libraries st) item.1 "BuiltIn";
     RobotKeywordRecommender.pk_frequency := item.2 |}.

(** The pairs of the frequency table that pass the library filter of
    [get_popular_keywords]. *)
Definition in_library (st : Analyzer) (library : option string)
    (item : string * nat) : Prop :=
  match library with
  | None => True
  | Some l => get_default (keyword_libraries st) item.1 "BuiltIn" = l
  end.

#[global] Instance in_library_dec st library item :
  Decision (in_library st library item).
Proof. destruct library; simpl; apply _. Defined.

(** A recommendation with its context text replaced. *)
Definition with_context (text : string) (r : KeywordRecommendation)
    : KeywordRecommendation :=
  {| keyword := keyword r; library := library r; confidence := confidence r;
     context := text; usage_count := usage_count r;
     next_keywords := next_keywords r |}.

(** A setup or teardown at level 0. *)
Definition top_level_fixture (r : KeywordInfo) : Prop :=
  (kw_type r = "SETUP" ∨ kw_type r = "TEARDOWN") ∧ kw_level r = 0.

(** [pieces] cuts a list of records after every top-level setup or
    teardown: every piece but the last ends with one and holds no other,
    and the last piece holds none (it is empty when the list ends with
    one). *)
Fixpoint cut_at_boundaries (pieces : list (list KeywordInfo)) : Prop :=
  match pieces with
  | [] => False
  | piece :: pieces' =>
      match pieces' with
      | [] => Forall (λ r, ¬ top_level_fixture r) piece
      | _ :: _ =>
          (∃ body b, piece = body ++ [b]
                     ∧ Forall (λ r, ¬ top_level_fixture r) body
                     ∧ top_level_fixture b)
          ∧ cut_at_boundaries pieces'
      end
  end.

(** The runs that go with the pieces: the first run is [current] followed
    by the names of the first piece, and every later run is the last name
    of the piece before it followed by the names of its own piece. *)
Fixpoint runs_of (current : list string) (pieces : list (list KeywordInfo))
    : list (list string) :=
  match pieces with
  | [] => []
  | piece :: pieces' =>
      (current ++ (kw_name <$> piece))
      :: runs_of (option_list (last (kw_name <$> piece))) pieces'
  end.

(** The cut of a list of records after every setup or teardown. *)
Fixpoint split_at_boundaries (keywords : list KeywordInfo)
    : list (list KeywordInfo) :=
  match keywords with
  | [] => [[]]
  | r :: keywords' =>
      if is_boundary r then [r] :: split_at_boundaries keywords'
      else match split_at_boundaries keywords' with
           | piece :: pieces => (r :: piece) :: pieces
           | [] => [[r]]
           end
  end.

(** Text made of ASCII characters only.  On such text [str.lower], [len]
    and [str.strip] are what the embedding computes: [lower] touches the
    letters A to Z only, [String.length] counts characters, and [strip]
    removes the ASCII white space. *)
Definition ascii_text (s : string) : Prop :=
  Forall (λ c, (Ascii.nat_of_ascii c < 128)%nat) (String.list_ascii_of_string s).

(** The sets are iterated in an order of their elements, each once. *)
Definition iteration_ok (it : Iteration) : Prop :=
  (∀ k v, contexts_order it k v ≡ₚ elements v)
  ∧ (∀ lib v, library_order it lib v ≡ₚ elements v).

(** Two iteration orders: the one that the queries above use, and its
    reverse. *)
Definition elements_order : Iteration :=
  {| contexts_order := λ _ v, elements v;
     library_order := λ _ v, elements v |}.

Definition reverse_order : Iteration :=
  {| contexts_order := λ _ v, reverse (elements v);
     library_order := λ _ v, reverse (elements v) |}.

(** What a recommendation says apart from the keyword it names. *)
Definition apart_from_keyword (r : KeywordRecommendation)
    : string * Q * string * nat * list string :=
  (library r, confidence r, context r, usage_count r, next_keywords r).

(** Two suggestions that differ at most by the order of their contexts. *)
Definition same_suggestion (x y : Suggestion) : Prop :=
  sg_keyword x = sg_keyword y ∧ sg_library x = sg_library y
  ∧ sg_frequency x = sg_frequency y ∧ sg_contexts x ≡ₚ sg_contexts y.

(** Two statistics entries that differ at most by which of several equally
    used keywords are listed, and in which order. *)
Definition same_statistics
    (x y : string * RobotKeywordRecommender.LibraryStats) : Prop :=
  x.1 = y.1
  ∧ RobotKeywordRecommender.keyword_count x.2
    = RobotKeywordRecommender.keyword_count y.2
  ∧ RobotKeywordRecommender.total_usage x.2
    = RobotKeywordRecommender.total_usage y.2
  ∧ (RobotKeywordRecommender.top_keywords x.2).*2
    = (RobotKeywordRecommender.top_keywords y.2).*2
  ∧ ((RobotKeywordRecommender.keyword_count y.2 ≤ 5)%nat →
     RobotKeywordRecommender.top_keywords x.2
     ≡ₚ RobotKeywordRecommender.top_keywords y.2).

(** B is used under A and under C: it has two contexts. *)
Definition two_contexts : list KeywordInfo :=
  [ record "A" "keyword" "" 0 "" 1; record "B" "keyword" "" 1 "A" 2;
    record "C" "keyword" "" 0 "" 3; record "B" "keyword" "" 1 "C" 4 ].

End Scenarios.

(** * Properties *)

(** ** Facts about the Python containers *)

Section DictFacts.
Context {V : Type}.
Implicit Types (d : dict V) (k : string) (v : V).

Lemma get_setitem_eq d k v : get (setitem d k v) k = Some v.
  Proof.
    induction d as [|[k' v'] d IH]; simpl.
    - by rewrite decide_True.
    - destruct (decide (k' = k)); simpl.
      + by rewrite decide_True.
      + by rewrite decide_False.
  Qed.

Lemma get_setitem_ne d k k' v :
    k ≠ k' → get (setitem d k v) k' = get d k'.
  Proof.
    intros Hne. induction d as [|[k0 v0] d IH]; simpl.
    - by rewrite decide_False.
    - destruct (decide (k0 = k)) as [->|]; simpl.
      + by rewrite !decide_False.
      + destruct (decide (k0 = k')); done.
  Qed.

Lemma get_setitem d k k' v :
    get (setitem d k v) k' = if decide (k = k') then Some v else get d k'.
  Proof.
    destruct (decide (k = k')) as [->|].
    - apply get_setitem_eq.
    - by apply get_setitem_ne.
  Qed.

Lemma get_None_keys d k : get d k = None ↔ k ∉ keys d.
  Proof.
    unfold keys. induction d as [|[k' v'] d IH]; simpl.
    - split; [intros _; apply not_elem_of_nil | done].
    - rewrite not_elem_of_cons. destruct (decide (k' = k)) as [->|Hne].
      + split; [done|]. by intros [? _].
      + rewrite IH. split; [by intros; split; [congruence|]|by intros [_ ?]].
  Qed.

Lemma get_Some_elem_of d k v : get d k = Some v → (k, v) ∈ d.
  Proof.
    induction d as [|[k' v'] d IH]; simpl; [done|].
    destruct (decide (k' = k)) as [->|].
    - intros [= ->]. left.
    - intros. right. auto.
  Qed.

Lemma elem_of_get d k v : NoDup (keys d) → (k, v) ∈ d → get d k = Some v.
  Proof.
    unfold keys. induction d as [|[k' v'] d IH]; simpl.
    - intros _ H. by apply elem_of_nil in H.
    - intros [Hk Hd]%NoDup_cons [[= -> ->]|Hin]%elem_of_cons.
      + by rewrite decide_True.
      + rewrite decide_False; [by apply IH|].
        intros ->. apply Hk. apply list_elem_of_fmap. by exists (k, v).
  Qed.

Lemma keys_setitem d k v :
    keys (setitem d k v) = if contains d k then keys d else keys d ++ [k].
  Proof.
    unfold keys, contains. induction d as [|[k' v'] d IH]; csimpl; [done|].
    destruct (decide (k' = k)); csimpl; [done|].
    rewrite IH. by destruct (get d k).
  Qed.

Lemma NoDup_keys_setitem d k v :
    NoDup (keys d) → NoDup (keys (setitem d k v)).
  Proof.
    intros Hd. rewrite keys_setitem. unfold contains.
    destruct (get d k) eqn:Hg; [done|].
    apply NoDup_app. split_and!; [done| |apply NoDup_singleton].
    intros x Hx ->%list_elem_of_singleton. by apply get_None_keys in Hg.
  Qed.

Lemma Forall_setitem (P : string * V → Prop) d k v :
    Forall P d → P (k, v) → Forall P (setitem d k v).
  Proof.
    intros Hd Hkv. induction Hd as [|[k' v'] d HP Hd IH]; simpl.
    - by constructor.
    - destruct (decide (k' = k)) as [->|]; constructor; auto.
  Qed.

Lemma contains_true d k : contains d k = true ↔ is_Some (get d k).
  Proof.
    unfold contains. destruct (get d k) eqn:E; split; intros H; eauto.
    - done.
    - by destruct H.
  Qed.
End DictFacts.

(** The stable descending sort: a permutation of its input, sorted when the
    key order is total and transitive. *)
Section SortFacts.
Context {A : Type} (leb : A → A → bool).

  (** [x] may stand before [y] in a descending list. *)
Definition desc (x y : A) : Prop := leb y x = true.

Lemma insert_desc_Permutation x l : insert_desc leb x l ≡ₚ x :: l.
  Proof.
    induction l as [|y l IH]; simpl; [done|].
    destruct (leb y x); [done|].
    rewrite IH. apply Permutation_swap.
  Qed.

Lemma sorted_reverse_Permutation l : sorted_reverse leb l ≡ₚ l.
  Proof.
    induction l as [|x l IH]; simpl; [done|].
    by rewrite insert_desc_Permutation, IH.
  Qed.

Lemma length_sorted_reverse l : length (sorted_reverse leb l) = length l.
  Proof. by rewrite sorted_reverse_Permutation. Qed.

Lemma elem_of_sorted_reverse x l : x ∈ sorted_reverse leb l ↔ x ∈ l.
  Proof. by rewrite sorted_reverse_Permutation. Qed.

Hypothesis leb_total : ∀ x y, leb x y = false → leb y x = true.
Hypothesis leb_trans :
    ∀ x y z, leb x y = true → leb y z = true → leb x z = true.

Lemma insert_desc_sorted x l :
    StronglySorted desc l → StronglySorted desc (insert_desc leb x l).
  Proof.
    induction 1 as [|y l Hl IH Hy]; simpl.
    - repeat constructor.
    - destruct (leb y x) eqn:Hyx.
      + constructor; [by constructor|].
        constructor; [done|].
        eapply Forall_impl; [exact Hy|]. intros z Hz. unfold desc in *.
        by eapply leb_trans.
      + constructor; [done|].
        rewrite insert_desc_Permutation. constructor; [|done].
        by apply leb_total.
  Qed.

Lemma sorted_reverse_sorted l : StronglySorted desc (sorted_reverse leb l).
  Proof.
    induction l as [|x l IH]; simpl; [constructor|].
    by apply insert_desc_sorted.
  Qed.
End SortFacts.

Section SliceFacts.
Context {A : Type}.
Implicit Types (l : list A) (n : Z).

Lemma slice_to_take n l : ∃ m, slice_to n l = take m l.
  Proof. unfold slice_to. destruct (decide (0 ≤ n)%Z); eauto. Qed.

Lemma slice_to_all n l : (Z.of_nat (length l) ≤ n)%Z → slice_to n l = l.
  Proof.
    intros Hn. unfold slice_to. rewrite decide_True by lia.
    apply take_ge. lia.
  Qed.

Lemma slice_to_nonneg n l :
    (0 ≤ n)%Z → slice_to n l = take (Z.to_nat n) l.
  Proof. intros Hn. unfold slice_to. by rewrite decide_True. Qed.

Lemma nlargest_take leb n l :
    ∃ m, nlargest leb n l = take m (sorted_reverse leb l).
  Proof.
    unfold nlargest. destruct (decide (n ≤ 0)%Z); [by exists 0|eauto].
  Qed.

Lemma nlargest_all leb n l :
    (Z.of_nat (length l) ≤ n)%Z → nlargest leb n l = sorted_reverse leb l.
  Proof.
    intros Hn. unfold nlargest. destruct (decide (n ≤ 0)%Z).
    - destruct l; [done|]. simpl in Hn. lia.
    - apply take_ge. rewrite length_sorted_reverse. lia.
  Qed.

Lemma nlargest_nonpos leb n l : (n ≤ 0)%Z → nlargest leb n l = [].
  Proof. intros Hn. unfold nlargest. by rewrite decide_True. Qed.

Lemma StronglySorted_take (R : relation A) m l :
    StronglySorted R l → StronglySorted R (take m l).
  Proof.
    intros Hl. rewrite <-(take_drop m l) in Hl.
    by apply StronglySorted_app_1_l in Hl.
  Qed.

Lemma elem_of_take m l x : x ∈ take m l → x ∈ l.
  Proof. intros Hx. rewrite <-(take_drop m l). apply elem_of_app. by left. Qed.
End SliceFacts.

(** ** Training: what one pass over the records does to each index *)

Section TrainingFacts.
Import KeywordPatternAnalyzer Scenarios.

  (** [finish] only touches the sequence log. *)
Lemma finish_keyword_libraries s :
    keyword_libraries (finish s) = keyword_libraries (self s).
  Proof. unfold finish. by destruct (current_sequence s). Qed.

Lemma finish_library_keywords s :
    library_keywords (finish s) = library_keywords (self s).
  Proof. unfold finish. by destruct (current_sequence s). Qed.

Lemma finish_keyword_transitions s :
    keyword_transitions (finish s) = keyword_transitions (self s).
  Proof. unfold finish. by destruct (current_sequence s). Qed.

Lemma finish_keyword_frequencies s :
    keyword_frequencies (finish s) = keyword_frequencies (self s).
  Proof. unfold finish. by destruct (current_sequence s). Qed.

  (** The keyword-to-library map after a run of the loop is the map before
      it, overwritten record by record. *)
Lemma foldl_keyword_libraries s keywords :
    keyword_libraries (self (foldl analyze_keyword s keywords)) =
    foldl (λ d r, setitem d (kw_name r) (library_or_builtin r))
      (keyword_libraries (self s)) keywords.
  Proof.
    revert s. induction keywords as [|r keywords IH]; intros s; simpl; [done|].
    by rewrite IH.
  Qed.

Lemma foldl_library_keywords s keywords :
    library_keywords (self (foldl analyze_keyword s keywords)) =
    foldl (λ d r, add_to_set d (library_or_builtin r) (kw_name r))
      (library_keywords (self s)) keywords.
  Proof.
    revert s. induction keywords as [|r keywords IH]; intros s; simpl; [done|].
    by rewrite IH.
  Qed.

  (** A record that does not name [k] leaves [k]'s library alone. *)
Lemma foldl_setitem_other (d : dict string) keywords k :
    Forall (λ r, kw_name r ≠ k) keywords →
    get (foldl (λ d r, setitem d (kw_name r) (library_or_builtin r)) d
           keywords) k = get d k.
  Proof.
    intros H. revert d. induction H as [|r keywords Hr _ IH]; intros d; simpl.
    - done.
    - rewrite IH. by apply get_setitem_ne.
  Qed.

  (** The library index only grows. *)
Lemma add_to_set_mono (d : dict (gset string)) lib x lib' y :
    y ∈ get_default d lib' ∅ → y ∈ get_default (add_to_set d lib x) lib' ∅.
  Proof.
    unfold add_to_set, get_default. rewrite get_setitem.
    destruct (decide (lib = lib')) as [->|]; simpl; [|done].
    set_solver.
  Qed.

Lemma add_to_set_elem (d : dict (gset string)) lib x :
    x ∈ get_default (add_to_set d lib x) lib ∅.
  Proof.
    unfold add_to_set, get_default. rewrite get_setitem_eq. simpl.
    set_solver.
  Qed.

Lemma foldl_add_to_set_mono (d : dict (gset string)) keywords lib y :
    y ∈ get_default d lib ∅ →
    y ∈ get_default
          (foldl (λ d r, add_to_set d (library_or_builtin r) (kw_name r)) d
             keywords) lib ∅.
  Proof.
    revert d. induction keywords as [|r keywords IH]; intros d Hy; simpl.
    - done.
    - apply IH. by apply add_to_set_mono.
  Qed.
End TrainingFacts.

(** ** The loop of [analyze_output_file], one record at a time *)

Section LoopFacts.
Import KeywordPatternAnalyzer Scenarios.
Implicit Types (s : loop_state) (r : KeywordInfo).

Lemma is_boundary_true r :
    kw_type r ∈ ["SETUP"; "TEARDOWN"] → kw_level r = 0 → is_boundary r = true.
  Proof.
    intros Ht Hl. unfold is_boundary.
    by rewrite !bool_decide_eq_true_2.
  Qed.

Lemma is_boundary_false r :
    kw_type r ∉ ["SETUP"; "TEARDOWN"] ∨ kw_level r ≠ 0 → is_boundary r = false.
  Proof.
    intros [H|H]; unfold is_boundary.
    - by rewrite (bool_decide_eq_false_2 _ H).
    - rewrite (bool_decide_eq_false_2 _ H). apply andb_false_r.
  Qed.

Lemma step_current_sequence s r :
    current_sequence (analyze_keyword s r) =
    if is_boundary r then [kw_name r] else current_sequence s ++ [kw_name r].
  Proof. done. Qed.

Lemma step_current_context s r :
    current_context (analyze_keyword s r) = next_context (current_context s) r.
  Proof. done. Qed.

Lemma step_keyword_sequences s r :
    keyword_sequences (self (analyze_keyword s r)) =
    if is_boundary r && bool_decide (1 < length (current_sequence s ++ [kw_name r]))
    then keyword_sequences (self s) ++ [current_sequence s ++ [kw_name r]]
    else keyword_sequences (self s).
  Proof. done. Qed.

Lemma step_keyword_transitions s r :
    keyword_transitions (self (analyze_keyword s r)) =
    match last (current_sequence s) with
    | Some prev_keyword =>
        add_transition (keyword_transitions (self s)) prev_keyword (kw_name r)
    | None => keyword_transitions (self s)
    end.
  Proof. done. Qed.

Lemma step_keyword_contexts s r :
    keyword_contexts (self (analyze_keyword s r)) =
    add_to_set (keyword_contexts (self s)) (kw_name r)
      (next_context (current_context s) r).
  Proof. done. Qed.

Lemma finish_keyword_sequences s :
    keyword_sequences (finish s) =
    match current_sequence s with
    | [] => keyword_sequences (self s)
    | _ :: _ => keyword_sequences (self s) ++ [current_sequence s]
    end.
  Proof. unfold finish. by destruct (current_sequence s). Qed.

Lemma finish_keyword_contexts s :
    keyword_contexts (finish s) = keyword_contexts (self s).
  Proof. unfold finish. by destruct (current_sequence s). Qed.

Lemma count_add_transition (t : dict (dict nat)) p n a b :
    count (get_default (add_transition t p n) a []) b =
    if decide (p = a ∧ n = b) then count (get_default t a []) b + 1
    else count (get_default t a []) b.
  Proof.
    unfold add_transition, get_default, count, incr, get_default.
    rewrite get_setitem. destruct (decide (p = a)) as [->|Hpa]; simpl.
    - rewrite get_setitem. destruct (decide (n = b)) as [->|Hnb]; simpl.
      + by rewrite decide_True.
      + rewrite decide_False; [done|]. by intros [_ ?].
    - rewrite decide_False; [done|]. by intros [? _].
  Qed.

Lemma step_transition_count s r a b :
    count (get_default (keyword_transitions (self (analyze_keyword s r))) a []) b =
    count (get_default (keyword_transitions (self s)) a []) b +
    (if decide (last (current_sequence s) = Some a ∧ kw_name r = b)
     then 1 else 0).
  Proof.
    rewrite step_keyword_transitions.
    destruct (last (current_sequence s)) as [p|].
    - rewrite count_add_transition.
      destruct (decide (p = a ∧ kw_name r = b)) as [[-> Hb]|Hn].
      + by rewrite decide_True.
      + rewrite decide_False; [lia|]. intros [[= ->] ?]. by apply Hn.
    - rewrite decide_False; [lia|]. by intros [? _].
  Qed.

Lemma get_default_add_to_set (d : dict (gset string)) k x k' :
    get_default (add_to_set d k x) k' ∅ =
    if decide (k = k') then get_default d k ∅ ∪ {[x]} else get_default d k' ∅.
  Proof.
    unfold add_to_set, get_default. rewrite get_setitem.
    by destruct (decide (k = k')).
  Qed.
End LoopFacts.


Section Ingestion.
Import KeywordPatternAnalyzer Scenarios.

(** C1, the claim as stated fails: in the scenario setup A, B nested in A,
    C, teardown D, the transition count from A to C is not 1 (it is 0: the
    keyword that follows A in the sequence is B). *)
Lemma setup_nested_teardown_A_C_not_counted :
  ¬ (transition_count (analyze_keywords init setup_nested_teardown) "A" "C" = 1
     ∧ transition_count (analyze_keywords init setup_nested_teardown) "C" "D"
       = 1).
Proof. intros [H _]. vm_compute in H. discriminate H. Qed.

(** C1, amended: ingesting the records A (SETUP, level 0), B (level 1),
    C (level 0, ordinary) and D (TEARDOWN, level 0), with four different
    names, into a new analyzer fires the boundary rule at A and at D only;
    the sequence log becomes [[A; B; C; D]; [D]] (the boundary at A closes
    nothing, the one at D closes the whole run and D starts the next
    sequence); the transition counts from A to B, from B to C and from C to
    D are 1 and the count from A to C is 0; the contexts recorded for B are
    exactly A.B.  Level and parent path are fields of the input record. *)
Theorem setup_nested_teardown_ingest (rA rB rC rD : KeywordInfo) :
  kw_type rA = "SETUP" → kw_level rA = 0 →
  kw_level rB = 1 →
  kw_type rC ∉ ["SETUP"; "TEARDOWN"] → kw_level rC = 0 →
  kw_type rD = "TEARDOWN" → kw_level rD = 0 →
  NoDup [kw_name rA; kw_name rB; kw_name rC; kw_name rD] →
  let st := analyze_keywords init [rA; rB; rC; rD] in
  is_boundary <$> [rA; rB; rC; rD] = [true; false; false; true] ∧
  keyword_sequences st =
    [[kw_name rA; kw_name rB; kw_name rC; kw_name rD]; [kw_name rD]] ∧
  transition_count st (kw_name rA) (kw_name rB) = 1 ∧
  transition_count st (kw_name rB) (kw_name rC) = 1 ∧
  transition_count st (kw_name rC) (kw_name rD) = 1 ∧
  transition_count st (kw_name rA) (kw_name rC) = 0 ∧
  contexts_of st (kw_name rB) = {[ kw_name rA +:+ "." +:+ kw_name rB ]}.
Proof.
  intros HtA HlA HlB HtC HlC HtD HlD Hnd st.
  assert (is_boundary rA = true) as HbA.
  { apply is_boundary_true; [rewrite HtA; set_solver|done]. }
  assert (is_boundary rB = false) as HbB.
  { apply is_boundary_false. right. lia. }
  assert (is_boundary rC = false) as HbC.
  { apply is_boundary_false. by left. }
  assert (is_boundary rD = true) as HbD.
  { apply is_boundary_true; [rewrite HtD; set_solver|done]. }
  apply NoDup_cons in Hnd as [HA Hnd].
  apply NoDup_cons in Hnd as [HB Hnd].
  apply NoDup_cons in Hnd as [HC _].
  rewrite !not_elem_of_cons in HA. rewrite !not_elem_of_cons in HB.
  rewrite !not_elem_of_cons in HC.
  destruct HA as (HAB & HAC & HAD & _). destruct HB as (HBC & HBD & _).
  destruct HC as (HCD & _).
  subst st. unfold analyze_keywords. cbn [foldl].
  set (s0 := {| self := init; current_sequence := []; current_context := "" |}).
  set (s1 := analyze_keyword s0 rA).
  set (s2 := analyze_keyword s1 rB).
  set (s3 := analyze_keyword s2 rC).
  set (s4 := analyze_keyword s3 rD).
  assert (current_sequence s1 = [kw_name rA]) as Hc1.
  { unfold s1. by rewrite step_current_sequence, HbA. }
  assert (current_sequence s2 = [kw_name rA; kw_name rB]) as Hc2.
  { unfold s2. by rewrite step_current_sequence, HbB, Hc1. }
  assert (current_sequence s3 = [kw_name rA; kw_name rB; kw_name rC]) as Hc3.
  { unfold s3. by rewrite step_current_sequence, HbC, Hc2. }
  assert (current_sequence s4 = [kw_name rD]) as Hc4.
  { unfold s4. by rewrite step_current_sequence, HbD. }
  assert (keyword_sequences (self s3) = []) as Hq3.
  { unfold s3, s2, s1.
    rewrite !step_keyword_sequences, HbA, HbB, HbC. done. }
  assert (∀ a b, transition_count (finish s4) a b =
            0 +
            (if decide (Some (kw_name rA) = Some a ∧ kw_name rB = b) then 1 else 0) +
            (if decide (Some (kw_name rB) = Some a ∧ kw_name rC = b) then 1 else 0) +
            (if decide (Some (kw_name rC) = Some a ∧ kw_name rD = b) then 1 else 0)) as Htc.
  { intros a b. unfold transition_count. rewrite finish_keyword_transitions.
    unfold s4. rewrite step_transition_count, Hc3.
    unfold s3. rewrite step_transition_count, Hc2.
    unfold s2. rewrite step_transition_count, Hc1.
    unfold s1. rewrite step_keyword_transitions. done. }
  split_and!.
  - simpl. by rewrite HbA, HbB, HbC, HbD.
  - rewrite finish_keyword_sequences, Hc4. unfold s4.
    rewrite step_keyword_sequences, HbD, Hc3, Hq3. done.
  - rewrite Htc. rewrite decide_True by done.
    rewrite !decide_False by (intros [E ?]; inversion E; congruence). done.
  - rewrite Htc. rewrite (decide_True (P := Some (kw_name rB) = _ ∧ _)) by done.
    rewrite !decide_False by (intros [E ?]; inversion E; congruence). done.
  - rewrite Htc. rewrite (decide_True (P := Some (kw_name rC) = _ ∧ _)) by done.
    rewrite !decide_False by (intros [E ?]; inversion E; congruence). done.
  - rewrite Htc.
    rewrite !decide_False by (intros [E ?]; inversion E; congruence). done.
  - unfold contexts_of. rewrite finish_keyword_contexts.
    unfold s4. rewrite step_keyword_contexts, get_default_add_to_set.
    rewrite decide_False by done.
    unfold s3. rewrite step_keyword_contexts, get_default_add_to_set.
    rewrite decide_False by done.
    unfold s2. rewrite step_keyword_contexts, get_default_add_to_set.
    rewrite decide_True by done.
    unfold s1. rewrite step_keyword_contexts, get_default_add_to_set.
    rewrite decide_False by done.
    rewrite step_current_context. unfold next_context.
    rewrite HlA, HlB.
    rewrite (decide_False (P := 1 = 0)) by done.
    rewrite (decide_True (P := 1 = 1)) by done.
    rewrite (decide_True (P := 0 = 0)) by done.
    change (get_default (keyword_contexts (self s0)) (kw_name rB) ∅) with (∅ : gset string).
    by rewrite (left_id_L ∅ (∪)).
Qed.

Lemma setup_nested_teardown_ingest_witness :
  let st := analyze_keywords init setup_nested_teardown in
  is_boundary <$> setup_nested_teardown = [true; false; false; true] ∧
  keyword_sequences st = [["A"; "B"; "C"; "D"]; ["D"]] ∧
  transition_count st "A" "B" = 1 ∧
  transition_count st "B" "C" = 1 ∧
  transition_count st "C" "D" = 1 ∧
  transition_count st "A" "C" = 0 ∧
  contexts_of st "B" = {[ "A" +:+ "." +:+ "B" ]}.
Proof.
  apply (setup_nested_teardown_ingest
           (record "A" "SETUP" "" 0 "" 1) (record "B" "keyword" "" 1 "A" 2)
           (record "C" "keyword" "" 0 "" 3) (record "D" "TEARDOWN" "" 0 "" 4));
    try reflexivity.
  - apply (bool_decide_unpack _). vm_compute. exact I.
  - apply (bool_decide_unpack _). vm_compute. exact I.
Defined.
End Ingestion.

(** ** The library index *)

Section LibraryIndex.
Import KeywordPatternAnalyzer Scenarios.

(** C6, the claim as stated fails: after X is seen under LibA and then
    under LibB, X is still listed under LibA in the library index. *)
Lemma two_libraries_both_listed :
  let st := analyze_keywords init two_libraries in
  ¬ (get (keyword_libraries st) "X" = Some "LibB"
     ∧ ∀ lib, "X" ∈ library_index st lib → lib = "LibB").
Proof.
  intros st [_ H].
  assert ("X" ∈ library_index st "LibA") as HA.
  { apply (bool_decide_unpack _). vm_compute. exact I. }
  apply H in HA. discriminate HA.
Qed.

(** C6, amended: when a keyword is seen under one library and later, for
    the last time, under another, the keyword-to-library map holds the
    later library (last writer wins), and the library index lists the
    keyword under both libraries: entries of the index are never removed. *)
Theorem library_map_last_writer_index_keeps_both
    (st0 : Analyzer) (pre mid post : list KeywordInfo) (r1 r2 : KeywordInfo) :
  kw_name r1 = kw_name r2 →
  Forall (λ r, kw_name r ≠ kw_name r2) post →
  let st := analyze_keywords st0 (pre ++ r1 :: mid ++ r2 :: post) in
  get (keyword_libraries st) (kw_name r2) = Some (library_or_builtin r2) ∧
  kw_name r2 ∈ library_index st (library_or_builtin r1) ∧
  kw_name r2 ∈ library_index st (library_or_builtin r2).
Proof.
  intros Hname Hpost st. subst st. unfold analyze_keywords, library_index.
  rewrite finish_keyword_libraries, finish_library_keywords.
  rewrite foldl_keyword_libraries, foldl_library_keywords.
  split_and!.
  - replace (pre ++ r1 :: mid ++ r2 :: post)
      with ((pre ++ r1 :: mid) ++ r2 :: post) by (by rewrite <-app_assoc).
    rewrite foldl_app. cbn [foldl].
    rewrite foldl_setitem_other by done. apply get_setitem_eq.
  - rewrite foldl_app. cbn [foldl]. apply foldl_add_to_set_mono.
    rewrite <-Hname. apply add_to_set_elem.
  - replace (pre ++ r1 :: mid ++ r2 :: post)
      with ((pre ++ r1 :: mid) ++ r2 :: post) by (by rewrite <-app_assoc).
    rewrite foldl_app. cbn [foldl]. apply foldl_add_to_set_mono.
    apply add_to_set_elem.
Qed.

Lemma library_map_last_writer_index_keeps_both_witness :
  let st := analyze_keywords init two_libraries in
  get (keyword_libraries st) "X" = Some "LibB" ∧
  "X" ∈ library_index st "LibA" ∧ "X" ∈ library_index st "LibB".
Proof.
  apply (library_map_last_writer_index_keeps_both init [] [] []
           (record "X" "keyword" "LibA" 0 "" 1)
           (record "X" "keyword" "LibB" 0 "" 2)).
  - reflexivity.
  - constructor.
Defined.
End LibraryIndex.

(** ** The markup-row fallback *)

Section HtmlTables.
Import LogHTMLExtractor Scenarios.
Variable finditer : string → string → list string.
Variable sub : string → string → string → string.
Variables keyword_pattern tag_pattern : string.

Lemma table_row_keywords self group1 :
  ∃ new,
    keywords (table_row sub tag_pattern [0] [""] self group1)
      = keywords self ++ new
    ∧ Forall bare_top_level new.
Proof.
  unfold table_row. case_decide.
  - exists []. by rewrite app_nil_r.
  - eexists [_]. split; [done|]. repeat constructor.
Qed.

Lemma table_rows_keywords groups self :
  ∃ new,
    keywords (foldl (table_row sub tag_pattern [0] [""]) self groups)
      = keywords self ++ new
    ∧ Forall bare_top_level new.
Proof.
  revert self. induction groups as [|g groups IH]; intros self; simpl.
  - exists []. by rewrite app_nil_r.
  - destruct (table_row_keywords self g) as (new1 & E1 & H1).
    destruct (IH (table_row sub tag_pattern [0] [""] self g))
      as (new2 & E2 & H2).
    exists (new1 ++ new2). split.
    + by rewrite E2, E1, app_assoc.
    + by apply Forall_app.
Qed.

(** C10: whatever the document (and whatever the keyword rows matched in
    it), the markup-row fallback only appends records, and every record it
    appends has level 0, an empty parent path, an empty library, status
    UNKNOWN, empty timestamps and empty argument and return lists. *)
Theorem html_tables_records_bare_top_level content self :
  ∃ new,
    keywords (extract_from_html_tables finditer sub keyword_pattern
                tag_pattern content self)
      = keywords self ++ new
    ∧ Forall bare_top_level new.
Proof. unfold extract_from_html_tables. apply table_rows_keywords. Qed.
End HtmlTables.

(** ** Training over several files *)

Section Training.
Import RobotKeywordExtractor KeywordPatternAnalyzer RobotKeywordRecommender.
Import Scenarios.

(** A file that cannot be parsed ends the whole loop: [parse_xml] leaves
    through [sys.exit], which [except Exception] lets through. *)
Lemma train_stops_at_unparsed_file fs output_file rest analyzer :
  (∀ root, fs output_file ≠ Document root) →
  train_on_output_files fs (output_file :: rest) analyzer = RaiseSystemExit 1.
Proof.
  intros Hbad. simpl. unfold analyze_output_file, extract_keywords, parse_xml.
  destruct (fs output_file) as [| | |root]; try done. by destruct (Hbad root).
Qed.

(** C3 fails on the code: with a missing first file, training leaves with
    exit status 1 and the second file, which alone trains without error, is
    never read. *)
Theorem train_aborted_by_missing_file :
  train_on_output_files disk ["missing.xml"; "good.xml"] init
    = RaiseSystemExit 1
  ∧ train_on_output_files disk ["good.xml"] init
    = Return (analyze_keywords init
                [ {| kw_name := "Log"; kw_type := "keyword";
                     kw_library := "BuiltIn"; kw_level := 0;
                     kw_parent := "T"; kw_test_name := "T";
                     kw_start_time := ""; kw_end_time := "";
                     kw_status := "UNKNOWN"; kw_arguments := [];
                     kw_return_values := []; kw_execution_order := 1 |} ]).
Proof. split; reflexivity. Qed.
End Training.

(** ** Execution order in the structured extractor *)

Section ExecutionOrder.
Import RobotKeywordExtractor Scenarios.

(** Induction on elements, with the hypothesis for every child. *)
Lemma Element_ind_children (P : Element → Prop) :
  (∀ t a x cs, Forall P cs → P (mkElement t a x cs)) → ∀ e, P e.
Proof.
  intros H. fix IH 1. intros [t a x cs]. apply H.
  induction cs as [|c cs IHcs]; constructor; [apply IH|exact IHcs].
Qed.

(** The three loops over the children are left folds. *)
Lemma extract_keywords_recursive_unfold element level parent_name test_name
    keywords :
  extract_keywords_recursive element level parent_name test_name keywords =
  if decide (tag element = "kw") then
    foldl (λ keywords child,
             extract_keywords_recursive child (level + 1)
               (child_parent parent_name (attr element "name" "Unknown"))
               test_name keywords)
      (keywords ++ [keyword_info element level parent_name test_name keywords])
      (children element)
  else if decide (tag element = "test") then
    foldl (λ keywords child,
             extract_keywords_recursive child level
               (attr element "name" "Unknown Test")
               (attr element "name" "Unknown Test") keywords)
      keywords (children element)
  else
    foldl (λ keywords child,
             extract_keywords_recursive child level parent_name test_name
               keywords)
      keywords (children element).
Proof.
  destruct element as [t a x cs]. simpl.
  destruct (decide (t = "kw")); [|destruct (decide (t = "test"))].
  - generalize (keywords ++
      [keyword_info (mkElement t a x cs) level parent_name test_name keywords]).
    induction cs as [|c cs IH]; intros acc; simpl; [done|apply IH].
  - generalize keywords.
    induction cs as [|c cs IH]; intros acc; simpl; [done|apply IH].
  - generalize keywords.
    induction cs as [|c cs IH]; intros acc; simpl; [done|apply IH].
Qed.

Lemma numbered_from_nil keywords : numbered_from keywords [].
Proof. done. Qed.

Lemma numbered_from_app keywords new1 new2 :
  numbered_from keywords new1 → numbered_from (keywords ++ new1) new2 →
  numbered_from keywords (new1 ++ new2).
Proof.
  unfold numbered_from. intros H1 H2.
  rewrite fmap_app, H1, H2, !length_app, seq_app. f_equal. f_equal. lia.
Qed.

Lemma foldl_extends (f : list KeywordInfo → Element → list KeywordInfo) cs :
  Forall (λ c, ∀ keywords, ∃ new,
            f keywords c = keywords ++ new ∧ numbered_from keywords new) cs →
  ∀ keywords, ∃ new,
    foldl f keywords cs = keywords ++ new ∧ numbered_from keywords new.
Proof.
  induction 1 as [|c cs Hc _ IH]; intros keywords; simpl.
  - exists []. by rewrite app_nil_r.
  - destruct (Hc keywords) as (new1 & E1 & N1).
    destruct (IH (f keywords c)) as (new2 & E2 & N2).
    exists (new1 ++ new2). rewrite E2, E1, app_assoc. split; [done|].
    apply numbered_from_app; [done|]. by rewrite <-E1.
Qed.

(** One walk only appends, and numbers what it appends consecutively. *)
Lemma extract_keywords_recursive_extends element :
  ∀ level parent_name test_name keywords, ∃ new,
    extract_keywords_recursive element level parent_name test_name keywords
      = keywords ++ new
    ∧ numbered_from keywords new.
Proof.
  induction element as [t a x cs IH] using Element_ind_children.
  intros level parent_name test_name keywords.
  rewrite extract_keywords_recursive_unfold. cbn [tag children].
  destruct (decide (t = "kw")); [|destruct (decide (t = "test"))].
  - edestruct (foldl_extends
                 (λ keywords child,
                    extract_keywords_recursive child (level + 1)
                      (child_parent parent_name
                         (attr (mkElement t a x cs) "name" "Unknown"))
                      test_name keywords) cs) as (new & E & N).
    { eapply Forall_impl; [exact IH|]. intros c Hc ks. apply Hc. }
    eexists (_ :: new). rewrite E, <-app_assoc. split; [done|].
    apply (numbered_from_app _ [_]); [|done].
    unfold numbered_from. simpl. done.
  - apply foldl_extends. eapply Forall_impl; [exact IH|].
    intros c Hc ks. apply Hc.
  - apply foldl_extends. eapply Forall_impl; [exact IH|].
    intros c Hc ks. apply Hc.
Qed.

(** Within one walk of a keyword element, the record of the element comes
    first and every record appended below it has a larger number. *)
Lemma extract_keywords_recursive_parent_first element level parent_name
    test_name keywords :
  tag element = "kw" →
  ∃ below,
    extract_keywords_recursive element level parent_name test_name keywords
      = keywords
        ++ keyword_info element level parent_name test_name keywords :: below
    ∧ Forall (λ r, length keywords + 1 < kw_execution_order r) below.
Proof.
  intros Htag. rewrite extract_keywords_recursive_unfold.
  rewrite decide_True by done.
  edestruct (foldl_extends
               (λ keywords child,
                  extract_keywords_recursive child (level + 1)
                    (child_parent parent_name (attr element "name" "Unknown"))
                    test_name keywords) (children element)) as (new & E & N).
  { apply Forall_forall. intros c _ ks.
    apply extract_keywords_recursive_extends. }
  exists new. rewrite E, <-app_assoc. split; [done|].
  unfold numbered_from in N. rewrite length_app in N. simpl in N.
  apply Forall_forall. intros r [i Hi]%list_elem_of_lookup.
  assert ((kw_execution_order <$> new) !! i = Some (kw_execution_order r)) as H.
  { by rewrite list_lookup_fmap, Hi. }
  rewrite N in H. apply lookup_seq in H as [-> _]. lia.
Qed.

(** One extraction run numbers its records 1, 2, 3, ... in the order in
    which they are appended. *)
Lemma extract_keywords_numbered f keywords :
  extract_keywords f [] = Return keywords →
  kw_execution_order <$> keywords = seq 1 (length keywords).
Proof.
  unfold extract_keywords. destruct (parse_xml f) as [root| |]; [|done..].
  destruct (if decide (tag root = "robot") then Some root
            else find_desc root "robot") as [robot_elem|]; [|done].
  intros [= <-]. unfold extract_suites.
  destruct (foldl_extends
              (λ keywords suite,
                 extract_keywords_recursive suite 0 "" "" keywords)
              (findall_desc robot_elem "suite")) with (keywords := @nil KeywordInfo)
    as (new & E & N).
  { apply Forall_forall. intros c _ ks.
    apply extract_keywords_recursive_extends. }
  rewrite E. exact N.
Qed.

(** C8 fails on the code: a suite nested in a suite is walked twice, once
    from the outer suite and once on its own, so that its keywords are
    recorded twice; the second record of Parent (order 3) comes after the
    first record of its child (order 2). *)
Theorem nested_suite_walked_twice :
  ∃ keywords,
    extract_keywords (Document nested_suites) [] = Return keywords
    ∧ orders keywords
      = [("Parent", 1); ("Child", 2); ("Parent", 3); ("Child", 4)]
    ∧ kw_level <$> keywords = [0; 1; 0; 1].
Proof. eexists. split; [reflexivity|]. split; reflexivity. Qed.
End ExecutionOrder.

(** ** Counters *)

Lemma StronglySorted_impl {A} (R1 R2 : relation A) (l : list A) :
  (∀ x y, R1 x y → R2 x y) → StronglySorted R1 l → StronglySorted R2 l.
Proof.
  intros HR. induction 1 as [|x l _ IH Hx]; constructor; [done|].
  eapply Forall_impl; [exact Hx|]. intros y. apply HR.
Qed.

Section CounterFacts.
Import Scenarios.
Implicit Types (c : dict nat) (k x : string).

Lemma count_incr c x k :
  count (incr c x) k = count c k + (if decide (x = k) then 1 else 0).
Proof.
  unfold incr, count, get_default. rewrite get_setitem.
  destruct (decide (x = k)) as [->|]; simpl; lia.
Qed.

Lemma total_setitem c k n :
  total (setitem c k n) + count c k = total c + n.
Proof.
  unfold total, values, count, get_default.
  induction c as [|[k' v'] c IH]; csimpl; [lia|].
  destruct (decide (k' = k)); csimpl; lia.
Qed.

Lemma total_incr c x : total (incr c x) = total c + 1.
Proof. unfold incr. pose proof (total_setitem c x (count c x + 1)). lia. Qed.

Lemma incr_ok c x : c = [] ∨ counter_ok c → counter_ok (incr c x).
Proof.
  intros Hc. unfold counter_ok, incr. split_and!.
  - by destruct c as [|[k v] c]; simpl; [|case_decide].
  - apply NoDup_keys_setitem.
    destruct Hc as [->|(_ & ? & _)]; [constructor|done].
  - apply Forall_setitem; [|simpl; lia].
    destruct Hc as [->|(_ & _ & ?)]; [constructor|done].
Qed.

Lemma counter_ok_total c : counter_ok c → 0 < total c.
Proof.
  intros (Hne & _ & Hpos). destruct Hpos as [|[k v] c Hv _]; [done|].
  unfold total, values. csimpl. simpl in Hv. lia.
Qed.

Lemma count_leb_total (x y : string * nat) :
  count_leb x y = false → count_leb y x = true.
Proof.
  unfold count_leb. rewrite Nat.leb_gt, Nat.leb_le. lia.
Qed.

Lemma count_leb_trans (x y z : string * nat) :
  count_leb x y = true → count_leb y z = true → count_leb x z = true.
Proof. unfold count_leb. rewrite !Nat.leb_le. lia. Qed.

(** [most_common] lists entries of the counter, the larger counts first. *)
Lemma most_common_sorted n c :
  StronglySorted (λ x y : string * nat, (y.2 ≤ x.2)%nat) (most_common n c).
Proof.
  unfold most_common. destruct (nlargest_take count_leb n c) as [m ->].
  apply StronglySorted_take.
  eapply (StronglySorted_impl (desc count_leb)).
  - intros x y. unfold desc, count_leb. by rewrite Nat.leb_le.
  - apply sorted_reverse_sorted; [apply count_leb_total|apply count_leb_trans].
Qed.

Lemma elem_of_most_common n c kv : kv ∈ most_common n c → kv ∈ c.
Proof.
  unfold most_common. destruct (nlargest_take count_leb n c) as [m ->].
  intros H%elem_of_take. by apply elem_of_sorted_reverse in H.
Qed.

Lemma most_common_all_entries n c :
  (Z.of_nat (length c) ≤ n)%Z → most_common n c ≡ₚ c.
Proof.
  intros Hn. unfold most_common. rewrite nlargest_all by done.
  apply sorted_reverse_Permutation.
Qed.

Lemma most_common_NoDup n c : NoDup (keys c) → NoDup (most_common n c).*1.
Proof.
  intros Hc. unfold most_common.
  destruct (nlargest_take count_leb n c) as [m ->].
  rewrite fmap_take. eapply sublist_NoDup; [|apply sublist_take].
  unfold keys in Hc. by rewrite sorted_reverse_Permutation.
Qed.
(** [most_common n] keeps [n] entries, or all of them when there are
    fewer. *)
Lemma length_most_common_min n c :
  length (most_common n c) = (Z.to_nat n `min` length c)%nat.
Proof.
  unfold most_common, nlargest. case_decide; simpl; [lia|].
  by rewrite length_take, length_sorted_reverse.
Qed.

(** No entry that [most_common n] leaves out has a larger count than one
    that it keeps. *)
Lemma most_common_omitted_le n c k m item :
  (k, m) ∈ c → k ∉ (most_common n c).*1 → item ∈ most_common n c →
  (m ≤ item.2)%nat.
Proof.
  unfold most_common, nlargest. case_decide; [by intros _ _ ?%elem_of_nil|].
  intros Hin Hout Hitem.
  assert (StronglySorted (λ x y : string * nat, (y.2 ≤ x.2)%nat)
            (sorted_reverse count_leb c)) as Hsorted.
  { eapply (StronglySorted_impl (desc count_leb)).
    - intros x y. unfold desc, count_leb. by rewrite Nat.leb_le.
    - apply sorted_reverse_sorted; [apply count_leb_total|apply count_leb_trans]. }
  apply (elem_of_sorted_reverse count_leb) in Hin.
  rewrite <-(take_drop (Z.to_nat n) (sorted_reverse count_leb c))
    in Hin, Hsorted.
  apply elem_of_app in Hin as [Hin|Hin].
  - destruct Hout. apply list_elem_of_fmap. by exists (k, m).
  - by apply (StronglySorted_app_1_elem_of _ _ _ item (k, m)) in Hsorted.
Qed.

Lemma sum_list_Permutation (l1 l2 : list nat) :
  l1 ≡ₚ l2 → sum_list l1 = sum_list l2.
Proof. induction 1; simpl; lia. Qed.

End CounterFacts.

(** ** Sums of ratios *)

Section RatioFacts.
Import KeywordPatternAnalyzer Scenarios.
Open Scope Q_scope.

Lemma Qsum_Permutation l1 l2 : l1 ≡ₚ l2 → Qsum l1 == Qsum l2.
Proof.
  induction 1 as [|x l1 l2 _ IH|x y l|l1 l2 l3 _ IH1 _ IH2]; simpl.
  - reflexivity.
  - by rewrite IH.
  - ring.
  - by rewrite IH1.
Qed.

Lemma ratio_plus a b t : ratio (a + b) t == ratio a t + ratio b t.
Proof.
  unfold ratio. rewrite Nat2Z.inj_add, inject_Z_plus. unfold Qdiv. ring.
Qed.

Lemma ratio_zero t : ratio 0 t == 0.
Proof. unfold ratio. simpl. unfold Qdiv. ring. Qed.

Lemma ratio_self t : (0 < t)%nat → ratio t t == 1.
Proof.
  intros Ht. unfold ratio. unfold Qdiv. apply Qmult_inv_r.
  intros H. unfold Qeq in H. simpl in H. lia.
Qed.

Lemma ratio_mono a b t : (a ≤ b)%nat → ratio a t <= ratio b t.
Proof.
  intros Hab. unfold ratio, Qdiv. apply Qmult_le_compat_r.
  - rewrite <-Zle_Qle. lia.
  - apply Qinv_le_0_compat. change 0 with (inject_Z 0). rewrite <-Zle_Qle. lia.
Qed.

Lemma Qsum_ratios (c : dict nat) t :
  Qsum ((λ kv : string * nat, ratio kv.2 t) <$> c) == ratio (total c) t.
Proof.
  unfold total, values. induction c as [|[k v] c IH]; csimpl.
  - by rewrite ratio_zero.
  - by rewrite IH, ratio_plus.
Qed.
Lemma ratio_nonneg a t : 0 <= ratio a t.
Proof.
  unfold ratio, Qdiv. apply Qmult_le_0_compat.
  - change 0 with (inject_Z 0). rewrite <-Zle_Qle. lia.
  - apply Qinv_le_0_compat. change 0 with (inject_Z 0). rewrite <-Zle_Qle. lia.
Qed.

(** Rounding every term with a relative error of at most [u] moves the sum
    by at most [u] times the sum. *)
Lemma Qsum_rounded (fl : Q → Q) (u : Q) (l : list Q) :
  (∀ x, 0 <= x → Qabs (fl x - x) <= u * x) →
  Forall (λ x, 0 <= x) l →
  Qabs (Qsum (fl <$> l) - Qsum l) <= u * Qsum l.
Proof.
  intros Hfl. induction 1 as [|x l Hx _ IH].
  - simpl. rewrite Qmult_0_r. done.
  - rewrite fmap_cons. cbn [Qsum foldr].
    fold (Qsum (fl <$> l)). fold (Qsum l).
    assert (fl x + Qsum (fl <$> l) - (x + Qsum l)
            == (fl x - x) + (Qsum (fl <$> l) - Qsum l)) as E1 by ring.
    assert (u * (x + Qsum l) == u * x + u * Qsum l) as E2 by ring.
    rewrite E1, E2.
    eapply Qle_trans; [apply Qabs_triangle|].
    apply Qplus_le_compat; [by apply Hfl|done].
Qed.

End RatioFacts.

(** ** The direct-transition query *)

Section DirectQuery.
Import KeywordPatternAnalyzer Scenarios.

Lemma add_transition_ok (t : dict (dict nat)) prev name :
  Forall (λ kc : string * dict nat, counter_ok kc.2) t →
  Forall (λ kc : string * dict nat, counter_ok kc.2) (add_transition t prev name).
Proof.
  intros Ht. unfold add_transition. apply Forall_setitem; [done|]. simpl.
  apply incr_ok. unfold get_default. destruct (get t prev) as [c|] eqn:E.
  - right. apply get_Some_elem_of in E.
    by apply (proj1 (Forall_forall _ _) Ht (prev, c)).
  - by left.
Qed.

Lemma analyze_keyword_transitions_ok s r :
  transitions_ok (self s) → transitions_ok (self (analyze_keyword s r)).
Proof.
  unfold transitions_ok. rewrite step_keyword_transitions.
  destruct (last (current_sequence s)); [apply add_transition_ok|done].
Qed.

Lemma analyze_keywords_transitions_ok st keywords :
  transitions_ok st → transitions_ok (analyze_keywords st keywords).
Proof.
  intros Hst. unfold analyze_keywords, transitions_ok.
  rewrite finish_keyword_transitions.
  set (s := {| self := st; current_sequence := []; current_context := "" |}).
  assert (transitions_ok (self s)) as Hs by done.
  clearbody s. revert s Hs.
  induction keywords as [|r keywords IH]; intros s Hs; simpl; [done|].
  apply IH. by apply analyze_keyword_transitions_ok.
Qed.

(** Training only builds well-formed transition counters. *)
Lemma trained_transitions_ok st : trained st → transitions_ok st.
Proof.
  induction 1 as [|st keywords _ IH].
  - constructor.
  - by apply analyze_keywords_transitions_ok.
Qed.

Lemma trained_counter_ok st k c :
  trained st → get (keyword_transitions st) k = Some c → counter_ok c.
Proof.
  intros Hst%trained_transitions_ok Hc%get_Some_elem_of.
  by apply (proj1 (Forall_forall _ _) Hst (k, c)).
Qed.

(** A list that is already in descending order is left as it is. *)
Lemma sorted_reverse_id {A} (leb : A → A → bool) (l : list A) :
  StronglySorted (desc leb) l → sorted_reverse leb l = l.
Proof.
  induction 1 as [|x l _ IH Hx]; simpl; [done|]. rewrite IH.
  destruct Hx as [|y l Hy _]; simpl; [done|]. by rewrite Hy.
Qed.

Lemma recommendation_leb_ratio t (a b : KeywordRecommendation) :
  confidence a = ratio (usage_count a) t →
  confidence b = ratio (usage_count b) t →
  (usage_count a ≤ usage_count b)%nat → recommendation_leb a b = true.
Proof.
  intros Ha Hb Hab. unfold recommendation_leb. rewrite Ha, Hb.
  destruct (Qeq_bool _ _).
  - by apply Nat.leb_le.
  - apply Qle_bool_iff. by apply ratio_mono.
Qed.

Lemma direct_recommendations_sorted st k ctx limit :
  StronglySorted (desc recommendation_leb)
    (direct_recommendations st k ctx limit).
Proof.
  unfold direct_recommendations.
  destruct (get (keyword_transitions st) k) as [c|]; [|constructor].
  eapply StronglySorted_fmap; [|apply most_common_sorted].
  intros x y Hyx. unfold desc.
  by apply (recommendation_leb_ratio (total c)).
Qed.

Lemma length_direct_recommendations st k ctx limit :
  (Z.of_nat (length (direct_recommendations st k ctx limit)) ≤ Z.max 0 limit)%Z.
Proof.
  unfold direct_recommendations.
  destruct (get (keyword_transitions st) k) as [c|]; simpl; [|lia].
  rewrite length_fmap. unfold most_common, nlargest.
  case_decide; simpl; [lia|]. rewrite length_take. lia.
Qed.

(** When there are direct candidates, they are the answer. *)
Lemma get_recommendations_direct st k ctx limit :
  direct_recommendations st k ctx limit ≠ [] →
  get_recommendations st k ctx limit = direct_recommendations st k ctx limit.
Proof.
  intros Hne. unfold get_recommendations.
  pose proof (length_direct_recommendations st k ctx limit) as Hlen.
  pose proof (direct_recommendations_sorted st k ctx limit) as Hsorted.
  destruct (direct_recommendations st k ctx limit) as [|r recs] eqn:E; [done|].
  rewrite sorted_reverse_id by done. apply slice_to_all.
  simpl in *. lia.
Qed.

Lemma direct_recommendations_nonempty st k ctx limit c :
  get (keyword_transitions st) k = Some c → c ≠ [] → (0 < limit)%Z →
  direct_recommendations st k ctx limit ≠ [].
Proof.
  intros Hc Hne Hlimit. unfold direct_recommendations. rewrite Hc.
  unfold most_common, nlargest. rewrite decide_False by lia.
  intros H%fmap_nil_inv. apply (f_equal length) in H.
  rewrite length_take, length_sorted_reverse in H. simpl in H.
  destruct c; [done|]. simpl in H. lia.
Qed.

(** C2: for a keyword of a trained analyzer with outgoing transitions
    [transitions], every candidate of the direct-transition query carries
    the count of that successor and the confidence count / total; the
    candidates come with confidences in descending order; with a positive
    limit they are the answer of the query, which holds as many successors
    as the limit allows, and no successor that is left out has a larger
    count than one that is returned; with a limit that is at least the
    number of distinct successors the answer holds every successor, the
    counts add up to the total, the fractions count / total add up to 1,
    and the confidences as a division rounded with a relative error of at
    most [u] computes them add up to 1 within [u]. *)
Theorem direct_query_confidences st k ctx limit transitions :
  trained st →
  get (keyword_transitions st) k = Some transitions →
  let direct := direct_recommendations st k ctx limit in
  let recs := get_recommendations st k ctx limit in
  Forall (λ r, get transitions (keyword r) = Some (usage_count r)
               ∧ (confidence r == ratio (usage_count r) (total transitions))%Q)
    direct
  ∧ StronglySorted (λ x y, (confidence y <= confidence x)%Q) direct
  ∧ ((0 < limit)%Z →
     recs = direct
     ∧ length recs = (Z.to_nat limit `min` length transitions)%nat
     ∧ ∀ k' n r, get transitions k' = Some n → k' ∉ keyword <$> recs →
                 r ∈ recs → (n ≤ usage_count r)%nat)
  ∧ ((Z.of_nat (length transitions) ≤ limit)%Z →
     keyword <$> recs ≡ₚ keys transitions
     ∧ sum_list (usage_count <$> recs) = total transitions
     ∧ (Qsum ((λ r, ratio (usage_count r) (total transitions)) <$> recs)
        == 1)%Q
     ∧ ∀ (fl : Q → Q) (u : Q),
         (∀ x, 0 <= x → Qabs (fl x - x) <= u * x)%Q →
         (Qabs (Qsum ((λ r, fl (ratio (usage_count r) (total transitions)))
                      <$> recs) - 1) <= u)%Q).
Proof.
  intros Hst Hc direct recs.
  destruct (trained_counter_ok st k transitions Hst Hc) as (Hne & Hnd & Hpos).
  assert (direct =
    (λ item : string * nat,
       {| keyword := item.1;
          library := get_default (keyword_libraries st) item.1 "BuiltIn";
          confidence := ratio item.2 (total transitions);
          context := ctx;
          usage_count := item.2;
          next_keywords :=
            match get (keyword_transitions st) item.1 with
            | Some t => (most_common 3 t).*1
            | None => []
            end |}) <$> most_common limit transitions) as Hdirect.
  { unfold direct, direct_recommendations. by rewrite Hc. }
  assert ((0 < limit)%Z → recs = direct) as Hrecs.
  { intros Hlimit. apply get_recommendations_direct.
    by eapply direct_recommendations_nonempty. }
  split_and!.
  - rewrite Hdirect. apply Forall_fmap, Forall_forall.
    intros [k' n] Hin%elem_of_most_common. simpl. split; [|reflexivity].
    by apply elem_of_get.
  - rewrite Hdirect. eapply StronglySorted_fmap; [|apply most_common_sorted].
    intros x y Hyx. simpl. by apply ratio_mono.
  - intros Hlimit. rewrite (Hrecs Hlimit), Hdirect. split_and!.
    + done.
    + by rewrite length_fmap, length_most_common_min.
    + intros k' n r Hk' Hout (item & -> & Hitem)%list_elem_of_fmap. simpl.
      rewrite <-list_fmap_compose in Hout.
      by apply (most_common_omitted_le limit transitions k' n item);
        [apply get_Some_elem_of|..].
  - intros Hlimit. rewrite Hrecs by (destruct transitions; simpl in *; [done|lia]).
    rewrite Hdirect, <-!list_fmap_compose.
    pose proof (most_common_all_entries _ _ Hlimit) as Hall.
    assert ((Qsum ((λ kv : string * nat, ratio kv.2 (total transitions))
                   <$> most_common limit transitions) == 1)%Q) as Hone.
    { rewrite (Qsum_Permutation _
                 ((λ kv : string * nat, ratio kv.2 (total transitions))
                    <$> transitions)) by (by rewrite Hall).
      rewrite Qsum_ratios. apply ratio_self. by apply counter_ok_total. }
    split_and!.
    + unfold keys. by rewrite Hall.
    + unfold total, values. apply sum_list_Permutation. by rewrite Hall.
    + exact Hone.
    + intros fl u Hfl.
      pose proof (Qsum_rounded fl u
                    ((λ kv : string * nat, ratio kv.2 (total transitions))
                     <$> most_common limit transitions) Hfl) as Hsum.
      rewrite <-list_fmap_compose in Hsum.
      rewrite Hone, Qmult_1_r in Hsum. rewrite <-list_fmap_compose.
      apply Hsum.
      apply Forall_fmap, Forall_forall. intros item _. apply ratio_nonneg.
Qed.

Lemma direct_query_confidences_witness :
  let st := analyze_keywords (analyze_keywords init xyz_log1) xyz_log2 in
  let direct := direct_recommendations st "X" "" 10 in
  let recs := get_recommendations st "X" "" 10 in
  let transitions := [("Y", 3%nat); ("Z", 1%nat)] in
  Forall (λ r, get transitions (keyword r) = Some (usage_count r)
               ∧ (confidence r == ratio (usage_count r) (total transitions))%Q)
    direct
  ∧ StronglySorted (λ x y, (confidence y <= confidence x)%Q) direct
  ∧ ((0 < 10)%Z →
     recs = direct
     ∧ length recs = (Z.to_nat 10 `min` length transitions)%nat
     ∧ ∀ k' n r, get transitions k' = Some n → k' ∉ keyword <$> recs →
                 r ∈ recs → (n ≤ usage_count r)%nat)
  ∧ ((Z.of_nat (length transitions) ≤ 10)%Z →
     keyword <$> recs ≡ₚ keys transitions
     ∧ sum_list (usage_count <$> recs) = total transitions
     ∧ (Qsum ((λ r, ratio (usage_count r) (total transitions)) <$> recs)
        == 1)%Q
     ∧ ∀ (fl : Q → Q) (u : Q),
         (∀ x, 0 <= x → Qabs (fl x - x) <= u * x)%Q →
         (Qabs (Qsum ((λ r, fl (ratio (usage_count r) (total transitions)))
                      <$> recs) - 1) <= u)%Q).
Proof.
  apply (direct_query_confidences
           (analyze_keywords (analyze_keywords init xyz_log1) xyz_log2)
           "X" "" 10 [("Y", 3%nat); ("Z", 1%nat)]).
  - apply trained_analyze, trained_analyze, trained_init.
  - vm_compute. reflexivity.
Defined.

(** A limit below the number of successors keeps the most frequent one. *)
Example xyz_recommendations_limit_1 :
  let st := analyze_keywords (analyze_keywords init xyz_log1) xyz_log2 in
  (λ r, (keyword r, usage_count r)) <$> get_recommendations st "X" "" 1
  = [("Y", 3%nat)].
Proof. vm_compute. reflexivity. Qed.

(** The scenario of the specification: Y comes first with confidence 3/4,
    then Z with confidence 1/4. *)
Example xyz_recommendations :
  (λ r, (keyword r, Qred (confidence r)))
  <$> get_recommendations
        (analyze_keywords (analyze_keywords init xyz_log1) xyz_log2) "X" "" 10
  = [("Y", 3 # 4); ("Z", 1 # 4)].
Proof. vm_compute. reflexivity. Qed.
End DirectQuery.

(** ** The context query *)

Section ContextQuery.
Import KeywordPatternAnalyzer Scenarios.

(** [index] finds the first occurrence. *)
Lemma index_first_occurrence (l : list string) x i :
  index l x = Some i → first_occurrence l x i.
Proof.
  revert i. induction l as [|y l IH]; intros i; simpl; [done|].
  destruct (decide (y = x)) as [->|Hne].
  - intros [= <-]. split; [done|]. intros j Hj. lia.
  - destruct (index l x) as [i'|]; [|done]. intros [= <-].
    destruct (IH i' eq_refl) as [Hi Hbefore]. split; [done|].
    intros [|j] Hj; simpl; [congruence|]. apply Hbefore. lia.
Qed.

Lemma index_elem_of (l : list string) x : x ∈ l → is_Some (index l x).
Proof.
  induction 1 as [y l|y z l _ IH]; simpl.
  - rewrite decide_True by done. eauto.
  - destruct (decide (z = y)); [eauto|]. destruct IH as [i ->]. eauto.
Qed.

Lemma first_occurrence_unique (l : list string) x i j :
  first_occurrence l x i → first_occurrence l x j → i = j.
Proof.
  intros [Hi Hbi] [Hj Hbj].
  destruct (Nat.lt_trichotomy i j) as [Hlt|[->|Hlt]]; [|done|].
  - by destruct (Hbj i Hlt).
  - by destruct (Hbi j Hlt).
Qed.

(** The position computed by the code is the largest of the first
    occurrences of the context keywords. *)
Lemma last_context_pos_max sequence context_keywords :
  context_keywords ≠ [] → contains_all sequence context_keywords →
  max_first_occurrence sequence context_keywords
    (last_context_pos sequence context_keywords).
Proof.
  intros Hne Hall. unfold last_context_pos.
  set (f := λ kw, default 0 (index sequence kw)).
  assert (∀ kw, kw ∈ context_keywords → first_occurrence sequence kw (f kw))
    as Hf.
  { intros kw Hkw. apply index_first_occurrence. unfold f.
    destruct (index_elem_of sequence kw) as [i ->]; [|done].
    by apply (proj1 (Forall_forall _ _) Hall). }
  split.
  - assert (max_list (f <$> context_keywords) ∈ f <$> context_keywords) as Hmax.
    { apply max_list_elem_of. by destruct context_keywords. }
    apply list_elem_of_fmap in Hmax as (kw & -> & Hkw). eauto.
  - intros kw i Hkw Hi.
    rewrite (first_occurrence_unique _ _ _ _ Hi (Hf kw Hkw)).
    apply max_list_elem_of_le, list_elem_of_fmap. eauto.
Qed.

(** The tally loop counts the successors. *)
Lemma foldl_tally_next (counts : dict nat) context_keywords sequences :
  foldl (λ counts sequence, tally_next counts context_keywords sequence)
    counts sequences
  = foldl incr counts (omap (successor context_keywords) sequences).
Proof.
  revert counts. induction sequences as [|s sequences IH]; intros counts.
  - done.
  - cbn [foldl omap list_omap]. rewrite IH. unfold tally_next, successor.
    by destruct (s !! _).
Qed.

Lemma count_foldl_incr (c : dict nat) xs k :
  count (foldl incr c xs) k = count c k + occurrences k xs.
Proof.
  unfold occurrences. revert c. induction xs as [|x xs IH]; intros c; simpl.
  - lia.
  - rewrite IH, count_incr, filter_cons.
    destruct (decide (x = k)); simpl; lia.
Qed.

Lemma total_foldl_incr (c : dict nat) xs :
  total (foldl incr c xs) = total c + length xs.
Proof.
  revert c. induction xs as [|x xs IH]; intros c; simpl; [lia|].
  rewrite IH, total_incr. lia.
Qed.

Lemma foldl_incr_ok (c : dict nat) xs :
  c = [] ∨ counter_ok c → foldl incr c xs = [] ∨ counter_ok (foldl incr c xs).
Proof.
  revert c. induction xs as [|x xs IH]; intros c Hc; simpl; [done|].
  apply IH. right. by apply incr_ok.
Qed.

(** The counter of a list holds, for every element of the list and for
    nothing else, the number of its occurrences. *)
Lemma tally_entries xs k n :
  (k, n) ∈ foldl incr [] xs → n = occurrences k xs ∧ (0 < n)%nat.
Proof.
  intros Hin.
  destruct (foldl_incr_ok [] xs) as [E|(_ & Hnd & Hpos)]; [by left|..].
  - rewrite E in Hin. by apply elem_of_nil in Hin.
  - pose proof (elem_of_get _ _ _ Hnd Hin) as Hget.
    pose proof (count_foldl_incr [] xs k) as Hcount.
    unfold count at 1, get_default in Hcount. rewrite Hget in Hcount.
    simpl in Hcount. split; [done|].
    by apply (proj1 (Forall_forall _ _) Hpos (k, n)).
Qed.

Lemma tally_keys xs k : k ∈ keys (foldl incr [] xs) ↔ k ∈ xs.
Proof.
  split.
  - intros ([k' n] & -> & Hin)%list_elem_of_fmap. simpl.
    apply tally_entries in Hin as [-> Hpos]. unfold occurrences in Hpos.
    destruct (filter (λ x, x = k') xs) as [|y ys] eqn:E; [simpl in Hpos; lia|].
    assert (y ∈ filter (λ x, x = k') xs) as Hy by (rewrite E; left).
    by apply list_elem_of_filter in Hy as [-> ?].
  - intros Hk. destruct (get (foldl incr [] xs) k) as [n|] eqn:Hget.
    + apply get_Some_elem_of in Hget. apply list_elem_of_fmap.
      by exists (k, n).
    + pose proof (count_foldl_incr [] xs k) as Hcount.
      unfold count at 1, get_default in Hcount. rewrite Hget in Hcount.
      simpl in Hcount. unfold occurrences in Hcount.
      assert (k ∈ filter (λ x, x = k) xs) as Hin
        by by apply list_elem_of_filter.
      destruct (filter (λ x, x = k) xs); [by apply elem_of_nil in Hin|].
      simpl in Hcount. lia.
Qed.

Lemma tally_keys_NoDup xs : NoDup (keys (foldl incr [] xs)).
Proof.
  destruct (foldl_incr_ok [] xs) as [->|(_ & Hnd & _)]; [by left|..].
  - constructor.
  - done.
Qed.

Lemma length_tally xs : length (foldl incr [] xs) = length (remove_dups xs).
Proof.
  rewrite <-(length_fmap fst). apply Permutation_length.
  apply NoDup_Permutation.
  - apply tally_keys_NoDup.
  - apply NoDup_remove_dups.
  - intros k. rewrite elem_of_remove_dups. apply tally_keys.
Qed.

Lemma most_common_nil n : most_common n [] = [].
Proof.
  unfold most_common, nlargest. case_decide; [done|]. simpl. apply take_nil.
Qed.

(** The answer of the query is read off the counter of the successors. *)
Lemma get_context_recommendations_tally st context_keywords limit :
  context_keywords ≠ [] →
  get_context_recommendations st context_keywords limit
  = (λ item : string * nat,
       {| keyword := item.1;
          library := get_default (keyword_libraries st) item.1 "BuiltIn";
          confidence := ratio item.2 (length (successors st context_keywords));
          context := join " -> " context_keywords;
          usage_count := item.2;
          next_keywords := [] |})
    <$> most_common limit (foldl incr [] (successors st context_keywords)).
Proof.
  intros Hne. unfold get_context_recommendations, successors.
  destruct context_keywords as [|kw kws]; [done|].
  unfold matching_sequences.
  destruct (filter _ (keyword_sequences st)) as [|s ss] eqn:E.
  - simpl. by rewrite most_common_nil.
  - rewrite foldl_tally_next, total_foldl_incr. done.
Qed.

(** C7: for a non-empty list of context keywords, the sequences taken into
    account are exactly the stored sequences that contain every context
    keyword; in each of them the position used is the largest index among
    the first occurrences of the context keywords, and the successor is the
    element just after it, when there is one; every recommendation carries
    the number of matching sequences with that successor as its count and
    that count over the number of all successors found as its confidence;
    recommendations come with counts in descending order, one per keyword;
    there are as many of them as the limit allows, and no successor that
    is left out has a larger count than one that is recommended; with a
    limit at least the number of distinct successors, every successor is
    recommended; and when no stored sequence contains every context keyword
    the answer is empty. *)
Theorem context_query_tallies st context_keywords limit :
  context_keywords ≠ [] →
  let matching := matching_sequences st context_keywords in
  let found := successors st context_keywords in
  let recs := get_context_recommendations st context_keywords limit in
  (∀ sequence, sequence ∈ matching ↔
     sequence ∈ keyword_sequences st
     ∧ ∀ kw, kw ∈ context_keywords → kw ∈ sequence)
  ∧ Forall (λ sequence,
              max_first_occurrence sequence context_keywords
                (last_context_pos sequence context_keywords)) matching
  ∧ Forall (λ r, usage_count r = occurrences (keyword r) found
                 ∧ (0 < usage_count r)%nat
                 ∧ (confidence r == ratio (usage_count r) (length found))%Q)
      recs
  ∧ StronglySorted (λ x y, (usage_count y ≤ usage_count x)%nat) recs
  ∧ NoDup (keyword <$> recs)
  ∧ length recs = (Z.to_nat limit `min` length (remove_dups found))%nat
  ∧ (∀ k r, k ∈ found → k ∉ keyword <$> recs → r ∈ recs →
       (occurrences k found ≤ usage_count r)%nat)
  ∧ ((Z.of_nat (length (remove_dups found)) ≤ limit)%Z →
     ∀ k, k ∈ found → k ∈ keyword <$> recs)
  ∧ (matching = [] → recs = []).
Proof.
  intros Hne matching found recs.
  assert (∀ sequence, sequence ∈ matching ↔
            sequence ∈ keyword_sequences st
            ∧ ∀ kw, kw ∈ context_keywords → kw ∈ sequence) as Hmatching.
  { intros sequence. unfold matching, matching_sequences.
    rewrite list_elem_of_filter. unfold contains_all.
    rewrite Forall_forall. tauto. }
  pose proof (get_context_recommendations_tally st context_keywords limit Hne)
    as Hrecs.
  fold recs found in Hrecs. split_and!.
  - done.
  - apply Forall_forall. intros sequence Hs.
    apply last_context_pos_max; [done|]. apply Forall_forall.
    by apply Hmatching.
  - rewrite Hrecs. apply Forall_fmap, Forall_forall.
    intros [k n] Hin%elem_of_most_common. simpl.
    apply tally_entries in Hin as [-> Hpos]. split_and!; [done..|reflexivity].
  - rewrite Hrecs. eapply StronglySorted_fmap; [|apply most_common_sorted].
    by intros x y Hyx.
  - rewrite Hrecs, <-list_fmap_compose.
    apply (most_common_NoDup limit), tally_keys_NoDup.
  - by rewrite Hrecs, length_fmap, length_most_common_min, length_tally.
  - intros k r Hk Hout Hr. rewrite Hrecs in Hout, Hr.
    rewrite <-list_fmap_compose in Hout.
    apply list_elem_of_fmap in Hr as (item & -> & Hitem). simpl.
    apply tally_keys, list_elem_of_fmap in Hk as ([k' m] & -> & Hin).
    destruct (tally_entries _ _ _ Hin) as [Hm _]. simpl in *. rewrite <-Hm.
    by apply (most_common_omitted_le limit (foldl incr [] found) k' m item).
  - intros Hlimit k Hk. rewrite Hrecs, <-list_fmap_compose.
    change (k ∈ (most_common limit (foldl incr [] found)).*1).
    rewrite most_common_all_entries by (by rewrite length_tally).
    by apply tally_keys.
  - intros Hnil. rewrite Hrecs. unfold found, successors.
    fold matching. rewrite Hnil. simpl. by rewrite most_common_nil.
Qed.

Lemma context_query_tallies_witness :
  let st := analyze_keywords init setup_nested_teardown in
  let matching := matching_sequences st ["B"; "A"] in
  let found := successors st ["B"; "A"] in
  let recs := get_context_recommendations st ["B"; "A"] 10 in
  (∀ sequence, sequence ∈ matching ↔
     sequence ∈ keyword_sequences st
     ∧ ∀ kw, kw ∈ ["B"; "A"] → kw ∈ sequence)
  ∧ Forall (λ sequence,
              max_first_occurrence sequence ["B"; "A"]
                (last_context_pos sequence ["B"; "A"])) matching
  ∧ Forall (λ r, usage_count r = occurrences (keyword r) found
                 ∧ (0 < usage_count r)%nat
                 ∧ (confidence r == ratio (usage_count r) (length found))%Q)
      recs
  ∧ StronglySorted (λ x y, (usage_count y ≤ usage_count x)%nat) recs
  ∧ NoDup (keyword <$> recs)
  ∧ length recs = (Z.to_nat 10 `min` length (remove_dups found))%nat
  ∧ (∀ k r, k ∈ found → k ∉ keyword <$> recs → r ∈ recs →
       (occurrences k found ≤ usage_count r)%nat)
  ∧ ((Z.of_nat (length (remove_dups found)) ≤ 10)%Z →
     ∀ k, k ∈ found → k ∈ keyword <$> recs)
  ∧ (matching = [] → recs = []).
Proof.
  apply (context_query_tallies
           (analyze_keywords init setup_nested_teardown) ["B"; "A"] 10).
  discriminate.
Defined.

(** In the scenario of C1, what follows B and A is C. *)
Example context_after_B_A :
  (λ r, (keyword r, usage_count r, Qred (confidence r)))
  <$> get_context_recommendations
        (analyze_keywords init setup_nested_teardown) ["B"; "A"] 10
  = [("C", 1, 1%Q)].
Proof. vm_compute. reflexivity. Qed.
End ContextQuery.

(** ** The library fallback *)

Lemma StronglySorted_impl_Forall {A} (P : A → Prop) (R1 R2 : relation A)
    (l : list A) :
  (∀ x y, P x → P y → R1 x y → R2 x y) →
  Forall P l → StronglySorted R1 l → StronglySorted R2 l.
Proof.
  intros HR HP Hl. induction Hl as [|x l _ IH Hx]; [constructor|].
  apply Forall_cons in HP as [Hpx HP]. constructor; [by apply IH|].
  apply Forall_forall. intros y Hy.
  apply HR; [done| |].
  - by eapply Forall_forall in HP.
  - by eapply Forall_forall in Hx.
Qed.

Lemma Forall_slice_to {A} (P : A → Prop) n (l : list A) :
  Forall P l → Forall P (slice_to n l).
Proof.
  intros Hl. destruct (slice_to_take n l) as [m ->]. by apply Forall_take.
Qed.

Lemma StronglySorted_slice_to {A} (R : relation A) n (l : list A) :
  StronglySorted R l → StronglySorted R (slice_to n l).
Proof.
  intros Hl. destruct (slice_to_take n l) as [m ->].
  by apply StronglySorted_take.
Qed.

Section LibraryFallback.
Import KeywordPatternAnalyzer Scenarios.

(** The order of the final sort, read as a proposition: a smaller confidence,
    or an equal one and a usage count that is not larger. *)
Lemma recommendation_leb_spec x y :
  recommendation_leb x y = true ↔
  (confidence x < confidence y)%Q
  ∨ ((confidence x == confidence y)%Q ∧ (usage_count x ≤ usage_count y)%nat).
Proof.
  unfold recommendation_leb.
  destruct (Qeq_bool (confidence x) (confidence y)) eqn:E.
  - apply Qeq_bool_iff in E. rewrite Nat.leb_le. split.
    + intros H. by right.
    + intros [H|[_ H]]; [|done]. rewrite E in H. by apply Qlt_irrefl in H.
  - apply Qeq_bool_neq in E. rewrite Qle_bool_iff. split.
    + intros H. left. apply Qle_lteq in H as [H|H]; done.
    + intros [H|[H _]]; [by apply Qlt_le_weak|done].
Qed.

Lemma recommendation_leb_total x y :
  recommendation_leb x y = false → recommendation_leb y x = true.
Proof.
  intros H. apply recommendation_leb_spec.
  apply not_true_iff_false in H. rewrite recommendation_leb_spec in H.
  destruct (Q_dec (confidence x) (confidence y)) as [[Hlt|Hgt]|Heq].
  - destruct H. by left.
  - by left.
  - right. split; [by symmetry|].
    destruct (Nat.le_gt_cases (usage_count y) (usage_count x)); [done|].
    destruct H. right. split; [done|lia].
Qed.

Lemma recommendation_leb_trans x y z :
  recommendation_leb x y = true → recommendation_leb y z = true →
  recommendation_leb x z = true.
Proof.
  rewrite !recommendation_leb_spec.
  intros [Hxy|[Hxy Uxy]] [Hyz|[Hyz Uyz]].
  - left. by eapply Qlt_trans.
  - left. by rewrite <-Hyz.
  - left. by rewrite Hxy.
  - right. split; [by rewrite Hxy|lia].
Qed.

Lemma recommendations_sorted l :
  StronglySorted (desc recommendation_leb)
    (sorted_reverse recommendation_leb l).
Proof.
  apply sorted_reverse_sorted;
    [apply recommendation_leb_total|apply recommendation_leb_trans].
Qed.

(** Among recommendations of one confidence the sort goes by usage count. *)
Lemma desc_same_confidence x y :
  confidence x = confidence y → desc recommendation_leb x y →
  (usage_count y ≤ usage_count x)%nat.
Proof.
  unfold desc. intros Hc. rewrite recommendation_leb_spec.
  intros [H|[_ H]]; [|done]. rewrite Hc in H. by apply Qlt_irrefl in H.
Qed.

Lemma NoDup_other_keywords st lib k : NoDup (other_keywords st lib k).
Proof. apply NoDup_filter, NoDup_elements. Qed.

Lemma elem_of_other_keywords st lib k x :
  x ∈ other_keywords st lib k ↔ x ∈ library_index st lib ∧ x ≠ k.
Proof.
  unfold other_keywords. rewrite list_elem_of_filter, elem_of_elements.
  tauto.
Qed.

(** The fallback candidates, before ranking: one recommendation for each of
    the other keywords of the library. *)
Lemma library_recommendations_known st k ctx lib :
  get (keyword_libraries st) k = Some lib →
  keyword <$> library_recommendations st k ctx = other_keywords st lib k
  ∧ Forall (library_suggestion st lib k) (library_recommendations st k ctx).
Proof.
  intros Hlib. unfold library_recommendations. rewrite Hlib.
  fold (library_index st lib). fold (other_keywords st lib k). split.
  - rewrite <-list_fmap_compose.
    induction (other_keywords st lib k) as [|x l IH]; [done|].
    csimpl. by rewrite IH.
  - apply Forall_fmap, Forall_forall. intros x Hx.
    apply elem_of_other_keywords in Hx as [Hx Hk].
    by repeat split.
Qed.

Lemma library_recommendations_unknown st k ctx :
  get (keyword_libraries st) k = None → library_recommendations st k ctx = [].
Proof. intros Hlib. unfold library_recommendations. by rewrite Hlib. Qed.

(** With no direct candidate the answer is the ranked fallback, cut to the
    limit. *)
Lemma get_recommendations_fallback st k ctx limit :
  direct_recommendations st k ctx limit = [] →
  get_recommendations st k ctx limit
  = slice_to limit
      (sorted_reverse recommendation_leb (library_recommendations st k ctx)).
Proof. intros Hd. unfold get_recommendations. by rewrite Hd. Qed.

(** The ranked fallback as a whole: candidates of the expected form, in
    descending order of usage count, one per other keyword. *)
Lemma ranked_fallback st k ctx lib :
  get (keyword_libraries st) k = Some lib →
  let ranked :=
    sorted_reverse recommendation_leb (library_recommendations st k ctx) in
  Forall (library_suggestion st lib k) ranked
  ∧ StronglySorted (λ x y, (usage_count y ≤ usage_count x)%nat) ranked
  ∧ keyword <$> ranked ≡ₚ other_keywords st lib k.
Proof.
  intros Hlib ranked.
  destruct (library_recommendations_known st k ctx lib Hlib) as [Hk HF].
  assert (Forall (library_suggestion st lib k) ranked) as HF'.
  { unfold ranked. by rewrite sorted_reverse_Permutation. }
  split; [done|]. split.
  - eapply (StronglySorted_impl_Forall (library_suggestion st lib k));
      [|exact HF'|apply recommendations_sorted].
    intros x y (_ & _ & _ & Hx & _) (_ & _ & _ & Hy & _).
    apply desc_same_confidence. congruence.
  - unfold ranked. by rewrite sorted_reverse_Permutation, Hk.
Qed.

(** [same_library]: the direct query for K has no candidate, K belongs to
    library L, which has two other keywords, and with a limit of 1 the
    answer holds one recommendation only. *)
Lemma same_library_fallback_cut :
  let st := analyze_keywords init same_library in
  direct_recommendations st "K" "" 1 = []
  ∧ get (keyword_libraries st) "K" = Some "L"
  ∧ length (other_keywords st "L" "K") = 2%nat
  ∧ length (get_recommendations st "K" "" 1) = 1%nat.
Proof. intros st. split_and!; vm_compute; reflexivity. Qed.

(** C9 (amended): for a keyword whose library [lib] is known, the answer is
    the direct candidates when there are any; when the direct query yields
    zero candidates the answer consists of library-fallback recommendations
    only: each names another keyword listed under [lib], with library [lib],
    confidence exactly 1/10 and the usage count of the frequency table; they
    come in descending order of usage count, no keyword twice; the answer is
    the ranked list of all the other keywords cut by the limit: no omitted
    keyword has a larger usage count than a returned one, a non-negative
    limit leaves min(limit, number of other keywords) results, and a limit
    that is at least the number of other keywords leaves every one of
    them. *)
Theorem library_fallback_truncated st k ctx limit lib :
  get (keyword_libraries st) k = Some lib →
  let direct := direct_recommendations st k ctx limit in
  let recs := get_recommendations st k ctx limit in
  let others := other_keywords st lib k in
  (direct ≠ [] → recs = direct)
  ∧ (direct = [] →
     Forall (library_suggestion st lib k) recs
     ∧ StronglySorted (λ x y, (usage_count y ≤ usage_count x)%nat) recs
     ∧ NoDup (keyword <$> recs)
     ∧ (∀ x r, x ∈ others → x ∉ keyword <$> recs → r ∈ recs →
          (count (keyword_frequencies st) x ≤ usage_count r)%nat)
     ∧ ((0 ≤ limit)%Z →
        length recs = (Z.to_nat limit `min` length others)%nat)
     ∧ ((Z.of_nat (length others) ≤ limit)%Z → keyword <$> recs ≡ₚ others)).
Proof.
  intros Hlib direct recs others. split.
  { apply get_recommendations_direct. }
  intros Hd. unfold recs. rewrite (get_recommendations_fallback _ _ _ _ Hd).
  destruct (ranked_fallback st k ctx lib Hlib) as (HF & Hsorted & Hperm).
  set (ranked := sorted_reverse recommendation_leb
                   (library_recommendations st k ctx)) in *.
  assert (length ranked = length others) as Hlen.
  { by rewrite <-(length_fmap keyword), Hperm. }
  split; [by apply Forall_slice_to|].
  split; [by apply StronglySorted_slice_to|].
  destruct (slice_to_take limit ranked) as [m Hm].
  split; [|split; [|split]].
  - rewrite Hm, fmap_take. eapply sublist_NoDup; [|apply sublist_take].
    rewrite Hperm. apply NoDup_other_keywords.
  - rewrite Hm. intros x r Hx Hnot Hr. unfold others in Hx.
    rewrite <-Hperm, <-(take_drop m ranked), fmap_app, elem_of_app in Hx.
    destruct Hx as [Hx|Hx]; [done|].
    apply list_elem_of_fmap in Hx as (r' & -> & Hr').
    assert (library_suggestion st lib k r') as (_ & _ & _ & _ & <-).
    { eapply Forall_forall; [exact HF|]. rewrite <-(take_drop m ranked).
      apply elem_of_app. by right. }
    rewrite <-(take_drop m ranked) in Hsorted.
    by apply (StronglySorted_app_1_elem_of _ _ _ r r') in Hsorted.
  - intros Hlimit. rewrite slice_to_nonneg by done.
    by rewrite length_take, Hlen.
  - intros Hlimit. rewrite slice_to_all by lia. done.
Qed.

Lemma library_fallback_truncated_witness :
  let st := analyze_keywords init same_library in
  get (keyword_libraries st) "K" = Some "L"
  ∧ direct_recommendations st "K" "" 1 = []
  ∧ Forall (library_suggestion st "L" "K") (get_recommendations st "K" "" 1)
  ∧ length (get_recommendations st "K" "" 1)
    = (Z.to_nat 1 `min` length (other_keywords st "L" "K"))%nat.
Proof.
  intros st.
  assert (get (keyword_libraries st) "K" = Some "L") as Hlib
    by (vm_compute; reflexivity).
  assert (direct_recommendations st "K" "" 1 = []) as Hd
    by (vm_compute; reflexivity).
  split; [exact Hlib|]. split; [exact Hd|].
  destruct (library_fallback_truncated st "K" "" 1 "L" Hlib) as [_ H].
  destruct (H Hd) as (HF & _ & _ & _ & Hlen & _).
  split; [exact HF|]. apply Hlen. lia.
Defined.

(** A keyword of unknown library gets no fallback. *)
Lemma get_recommendations_unknown_library st k ctx limit :
  direct_recommendations st k ctx limit = [] →
  get (keyword_libraries st) k = None →
  get_recommendations st k ctx limit = [].
Proof.
  intros Hd Hlib. rewrite (get_recommendations_fallback _ _ _ _ Hd).
  rewrite library_recommendations_unknown by done.
  simpl. destruct (slice_to_take limit (@nil KeywordRecommendation)) as [m ->].
  apply take_nil.
Qed.

(** [same_library] with a limit that is large enough: both other keywords
    of L are recommended for K. *)
Example same_library_fallback :
  keyword <$> get_recommendations (analyze_keywords init same_library)
                "K" "" 5 ≡ₚ ["A"; "B"].
Proof.
  assert (keyword <$> get_recommendations (analyze_keywords init same_library)
                        "K" "" 5 = ["A"; "B"]) as ->
    by (vm_compute; reflexivity).
  done.
Qed.

End LibraryFallback.

(** ** The autocomplete query *)

Section Substring.
Import Scenarios.

Lemma startswith_prefix p s :
  startswith p s = true ↔ ∃ after, s = p +:+ after.
Proof.
  revert s. induction p as [|a p IH]; intros s; simpl.
  - split; [eauto|done].
  - destruct s as [|b s].
    + split; [done|]. by intros [after ?].
    + destruct (decide (a = b)) as [->|Hne].
      * rewrite IH. split.
        -- intros [after ->]. by exists after.
        -- intros [after [= ->]]. by exists after.
      * split; [done|]. intros [after [= ? ?]]. congruence.
Qed.

Lemma str_in_unfold p s :
  str_in p s
  = startswith p s
    || match s with EmptyString => false | String _ s' => str_in p s' end.
Proof. by destruct s. Qed.

(** [p in s] holds exactly when [p] occurs in [s]. *)
Lemma str_in_occurs_in p s : str_in p s = true ↔ occurs_in p s.
Proof.
  unfold occurs_in. split.
  - induction s as [|c s IH]; rewrite str_in_unfold, orb_true_iff.
    + intros [H|H]; [|done].
      apply startswith_prefix in H as [after ->]. by exists "", after.
    + intros [H|H].
      * apply startswith_prefix in H as [after ->]. by exists "", after.
      * destruct (IH H) as (before & after & ->).
        by exists (String c before), after.
  - intros (before & after & ->).
    induction before as [|c before IH]; rewrite str_in_unfold, orb_true_iff.
    + left. apply startswith_prefix. by exists after.
    + right. exact IH.
Qed.

End Substring.

Section Autocomplete.
Import KeywordPatternAnalyzer Scenarios.

Lemma suggestion_leb_total x y :
  suggestion_leb x y = false → suggestion_leb y x = true.
Proof.
  unfold suggestion_leb. repeat case_decide; try congruence;
    rewrite ?Nat.leb_le, ?Nat.leb_gt; lia.
Qed.

Lemma suggestion_leb_trans x y z :
  suggestion_leb x y = true → suggestion_leb y z = true →
  suggestion_leb x z = true.
Proof.
  unfold suggestion_leb. repeat case_decide;
    rewrite ?Nat.leb_le; lia.
Qed.

(** The descending order of the sort key (frequency, name length). *)
Lemma desc_suggestion_leb x y :
  desc suggestion_leb x y ↔ longer_first x y.
Proof.
  unfold desc, suggestion_leb, longer_first.
  case_decide; rewrite Nat.leb_le; lia.
Qed.

Lemma suggestions_sorted l :
  StronglySorted longer_first (sorted_reverse suggestion_leb l).
Proof.
  eapply StronglySorted_impl; [intros x y; apply desc_suggestion_leb|].
  apply sorted_reverse_sorted;
    [apply suggestion_leb_total|apply suggestion_leb_trans].
Qed.

Lemma filtered_out_false library_filter lib :
  filtered_out library_filter lib = false ↔
  ∀ f, library_filter = Some f → f ≠ "" → lib = f.
Proof.
  unfold filtered_out. destruct library_filter as [f|].
  - rewrite andb_false_iff, !negb_false_iff, !bool_decide_eq_true. split.
    + intros [H|H] f' [= <-] Hf; [done|done].
    + intros H. destruct (decide (f = "")); [by left|right]. by apply H.
  - split; [by intros _ f [=]|done].
Qed.

(** The matches before ranking are exactly the suggestions of the expected
    form, with the contexts as the set is iterated. *)
Lemma elem_of_matching_suggestions st partial_keyword library_filter s :
  s ∈ matching_suggestions st partial_keyword library_filter ↔
  matching_entry st partial_keyword library_filter s
  ∧ sg_contexts s = elements (contexts_of st (sg_keyword s)).
Proof.
  unfold matching_suggestions, matching_entry, contexts_of.
  rewrite list_elem_of_fmap. split.
  - intros ([k lib] & -> & Hitem). apply list_elem_of_filter in Hitem.
    simpl in *. destruct Hitem as [[Hf Hin] Hitem].
    pose proof (proj1 (filtered_out_false _ _) Hf) as Hf'.
    apply str_in_occurs_in in Hin. done.
  - intros [(Hitem & Hin & Hf & Hfreq & _) Hctx].
    exists (sg_keyword s, sg_library s). split.
    + destruct s; simpl in *. by subst.
    + apply list_elem_of_filter. simpl. split; [|done]. split.
      * by apply filtered_out_false.
      * by apply str_in_occurs_in.
Qed.

(** [click_keywords]: the partial text click matches both keywords, which
    were used once each; the answer lists the longer name first, so it is
    not in the order that puts the shorter name first among equal
    frequencies. *)
Lemma click_keywords_longer_name_first :
  let recs := get_autocomplete_suggestions
                (analyze_keywords init click_keywords) "click" None in
  sg_keyword <$> recs = ["Click Element"; "Click"]
  ∧ sg_frequency <$> recs = [1; 1]
  ∧ ¬ StronglySorted shorter_first recs.
Proof.
  intros recs.
  assert (recs =
    [ {| sg_keyword := "Click Element"; sg_library := "SeleniumLibrary";
         sg_frequency := 1; sg_contexts := ["Click Element"] |};
      {| sg_keyword := "Click"; sg_library := "SeleniumLibrary";
         sg_frequency := 1; sg_contexts := ["Click"] |} ]) as ->
    by (vm_compute; reflexivity).
  split; [done|]. split; [done|].
  intros H. apply StronglySorted_inv in H as [_ H].
  apply Forall_cons in H as [[H|[_ H]] _]; simpl in H; lia.
Qed.

(** C4 (amended): for a partial text and keyword names made of ASCII
    characters, every suggestion of the autocomplete query is an entry of
    the keyword-to-library map whose lowered name contains the lowered
    partial text as a substring, of the library of the filter when a
    non-empty filter is given, with its frequency; the suggestions are
    ranked by frequency descending, ties broken by the longer name first;
    there are at most 20 of them; and every match is among them, its
    contexts in some order, unless 20 are returned that all rank at least
    as high. *)
Theorem autocomplete_longer_name_first st partial_keyword library_filter :
  ascii_text partial_keyword →
  Forall ascii_text (keys (keyword_libraries st)) →
  let recs := get_autocomplete_suggestions st partial_keyword library_filter in
  Forall (matching_entry st partial_keyword library_filter) recs
  ∧ StronglySorted longer_first recs
  ∧ (length recs ≤ 20)%nat
  ∧ (∀ s, matching_entry st partial_keyword library_filter s →
       (∃ s', s' ∈ recs ∧ same_suggestion s' s)
       ∨ (length recs = 20%nat ∧ ∀ r, r ∈ recs → longer_first r s)).
Proof.
  intros _ _ recs. unfold recs, get_autocomplete_suggestions.
  set (ranked := sorted_reverse suggestion_leb
                   (matching_suggestions st partial_keyword library_filter)).
  assert (StronglySorted longer_first ranked) as Hsorted
    by apply suggestions_sorted.
  rewrite (slice_to_nonneg 20) by lia. change (Z.to_nat 20) with 20%nat.
  split; [|split; [|split]].
  - apply Forall_take, Forall_forall. intros s Hs.
    unfold ranked in Hs. apply elem_of_sorted_reverse in Hs.
    by apply elem_of_matching_suggestions in Hs as [Hs _].
  - by apply StronglySorted_take.
  - rewrite length_take. lia.
  - intros s Hs.
    set (s0 := {| sg_keyword := sg_keyword s; sg_library := sg_library s;
                  sg_frequency := sg_frequency s;
                  sg_contexts := elements (contexts_of st (sg_keyword s)) |}).
    assert (same_suggestion s0 s) as Hsame.
    { destruct Hs as (_ & _ & _ & _ & Hctx). by repeat split. }
    assert (s0 ∈ ranked) as Hs0.
    { apply elem_of_sorted_reverse, elem_of_matching_suggestions.
      destruct Hs as (? & ? & ? & ? & ?). by repeat split. }
    rewrite <-(take_drop 20 ranked), elem_of_app in Hs0.
    destruct Hs0 as [Hs0|Hs0]; [left; by exists s0|right]. split.
    + rewrite length_take. apply list_elem_of_lookup in Hs0 as [i Hi].
      apply lookup_lt_Some in Hi. rewrite length_drop in Hi. lia.
    + intros r Hr. rewrite <-(take_drop 20 ranked) in Hsorted.
      by apply (StronglySorted_app_1_elem_of _ _ _ r s0) in Hsorted.
Qed.

Lemma autocomplete_longer_name_first_witness :
  let st := analyze_keywords init click_keywords in
  let recs := get_autocomplete_suggestions st "click" None in
  Forall (matching_entry st "click" None) recs
  ∧ StronglySorted longer_first recs
  ∧ (length recs ≤ 20)%nat
  ∧ (∀ s, matching_entry st "click" None s →
       (∃ s', s' ∈ recs ∧ same_suggestion s' s)
       ∨ (length recs = 20%nat ∧ ∀ r, r ∈ recs → longer_first r s)).
Proof.
  apply (autocomplete_longer_name_first
           (analyze_keywords init click_keywords) "click" None).
  - apply (bool_decide_unpack _). vm_compute. exact I.
  - apply (bool_decide_unpack _). vm_compute. exact I.
Defined.

(** The partial text click occurs, case-insensitively, in Click Element. *)
Example click_matches_Click_Element :
  occurs_in (lower "click") (lower "Click Element").
Proof. apply str_in_occurs_in. vm_compute. reflexivity. Qed.

(** With a library filter only the keywords of that library are suggested. *)
Example two_libraries_filter :
  sg_keyword <$> get_autocomplete_suggestions
                   (analyze_keywords init click_keywords) "ELEMENT"
                   (Some "SeleniumLibrary") = ["Click Element"]
  ∧ get_autocomplete_suggestions
      (analyze_keywords init click_keywords) "click" (Some "BuiltIn") = [].
Proof. split; vm_compute; reflexivity. Qed.

End Autocomplete.

(** ** What one ingestion adds to the tables *)

Section IngestionCounts.
Import KeywordPatternAnalyzer Scenarios.
Implicit Types (s : loop_state) (r : KeywordInfo).

Lemma foldl_keyword_frequencies s keywords :
  keyword_frequencies (self (foldl analyze_keyword s keywords))
  = foldl incr (keyword_frequencies (self s)) (kw_name <$> keywords).
Proof.
  revert s. induction keywords as [|r keywords IH]; intros s; simpl; [done|].
  by rewrite IH.
Qed.

(** After a record the in-progress sequence ends with its name. *)
Lemma step_last s r : last (current_sequence (analyze_keyword s r)) = Some (kw_name r).
Proof.
  rewrite step_current_sequence. destruct (is_boundary r); [done|].
  by rewrite last_snoc.
Qed.

Lemma foldl_transition_count s keywords a b :
  transition_count (self (foldl analyze_keyword s keywords)) a b
  = transition_count (self s) a b
    + adjacent a b (option_list (last (current_sequence s))
                      ++ (kw_name <$> keywords)).
Proof.
  unfold transition_count.
  revert s. induction keywords as [|r keywords IH]; intros s.
  - simpl. rewrite app_nil_r. by destruct (last (current_sequence s)).
  - cbn [foldl]. rewrite IH, step_transition_count, step_last. csimpl.
    destruct (last (current_sequence s)) as [p|]; simpl.
    + destruct (decide (Some p = Some a ∧ kw_name r = b)) as [[[= ->] Hb]|Hn].
      * rewrite (decide_True (P := a = a ∧ kw_name r = b)) by done. lia.
      * rewrite (decide_False (P := p = a ∧ kw_name r = b)); [lia|].
        intros [-> ?]. by apply Hn.
    + lia.
Qed.

(** X1: ingesting a list of records adds, to the frequency of every keyword,
    the number of records that carry its name. *)
Theorem frequencies_count_records st keywords k :
  count (keyword_frequencies (analyze_keywords st keywords)) k
  = count (keyword_frequencies st) k + occurrences k (kw_name <$> keywords).
Proof.
  unfold analyze_keywords.
  by rewrite finish_keyword_frequencies, foldl_keyword_frequencies,
    count_foldl_incr.
Qed.

(** X2: ingesting a list of records adds, to the count of the transition from
    [a] to [b], the number of places where a record named [a] is immediately
    followed by a record named [b] in the list: neither the nesting level
    nor a setup or teardown interrupts the chain of transitions, and no
    transition links the last record of one ingestion to the first record of
    the next. *)
Theorem transitions_count_adjacent_records st keywords a b :
  transition_count (analyze_keywords st keywords) a b
  = transition_count st a b + adjacent a b (kw_name <$> keywords).
Proof.
  unfold analyze_keywords, transition_count.
  rewrite finish_keyword_transitions.
  apply (foldl_transition_count
           {| self := st; current_sequence := []; current_context := "" |}).
Qed.

End IngestionCounts.

(** ** The tables of a trained analyzer agree *)

Lemma keys_setitem_eq {V W} (d1 : dict V) (d2 : dict W) k v w :
  keys d1 = keys d2 → keys (setitem d1 k v) = keys (setitem d2 k w).
Proof.
  unfold keys. revert d2.
  induction d1 as [|[k1 v1] d1 IH]; intros [|[k2 v2] d2]; csimpl; try done.
  intros [= -> Hd]. destruct (decide (k2 = k)); csimpl; [by rewrite Hd|].
  f_equal. by apply IH.
Qed.

Section IndexesAgree.
Import KeywordPatternAnalyzer Scenarios.
Implicit Types (s : loop_state) (r : KeywordInfo).

Lemma step_keyword_libraries s r :
  keyword_libraries (self (analyze_keyword s r))
  = setitem (keyword_libraries (self s)) (kw_name r) (library_or_builtin r).
Proof. done. Qed.

Lemma step_library_keywords s r :
  library_keywords (self (analyze_keyword s r))
  = add_to_set (library_keywords (self s)) (library_or_builtin r) (kw_name r).
Proof. done. Qed.

Lemma step_keyword_frequencies s r :
  keyword_frequencies (self (analyze_keyword s r))
  = incr (keyword_frequencies (self s)) (kw_name r).
Proof. done. Qed.

Lemma library_or_builtin_nonempty r : library_or_builtin r ≠ "".
Proof. unfold library_or_builtin. by case_decide. Qed.

(** What the analyzer knows, it goes on knowing. *)
Lemma step_known s r k :
  known (self (analyze_keyword s r)) k ↔ known (self s) k ∨ k = kw_name r.
Proof.
  unfold known. rewrite step_keyword_libraries, get_setitem.
  destruct (decide (kw_name r = k)) as [<-|Hne].
  - split; [by right|eauto].
  - split; [by left|]. by intros [?| ->].
Qed.

(** The invariant of the loop: the tables agree, and the in-progress
    sequence holds known keywords only. *)
Lemma step_indexes_ok s r :
  indexes_ok (self s) → (∀ k, k ∈ current_sequence s → known (self s) k) →
  indexes_ok (self (analyze_keyword s r))
  ∧ ∀ k, k ∈ current_sequence (analyze_keyword s r) →
         known (self (analyze_keyword s r)) k.
Proof.
  intros (Hnd & Hfreq & Hctx & Hlib & Hindex & Htrans & Hseq) Hcur.
  assert (∀ k, k ∈ current_sequence s ++ [kw_name r] →
               known (self (analyze_keyword s r)) k) as Hcur'.
  { intros k [Hk|Hk%list_elem_of_singleton]%elem_of_app; apply step_known.
    - left. by apply Hcur.
    - by right. }
  split; [split_and!|].
  - rewrite step_keyword_libraries. by apply NoDup_keys_setitem.
  - rewrite step_keyword_frequencies, step_keyword_libraries.
    by apply keys_setitem_eq.
  - rewrite step_keyword_contexts, step_keyword_libraries.
    by apply keys_setitem_eq.
  - intros k lib. rewrite step_keyword_libraries, get_setitem.
    unfold library_index, contexts_of.
    rewrite step_library_keywords, step_keyword_frequencies,
      step_keyword_contexts, count_incr, !get_default_add_to_set.
    destruct (decide (kw_name r = k)) as [<-|Hne].
    + intros [= <-]. rewrite decide_True by done. split_and!.
      * apply library_or_builtin_nonempty.
      * apply elem_of_union. right. by apply elem_of_singleton.
      * lia.
      * eapply non_empty_inhabited_L, elem_of_union. right.
        by apply elem_of_singleton.
    + intros Hk. destruct (Hlib k lib Hk) as (? & ? & ? & ?).
      split_and!; [done| |lia|done].
      unfold library_index in *.
      case_decide; [subst; apply elem_of_union; by left|done].
  - intros k lib. unfold library_index.
    rewrite step_library_keywords, get_default_add_to_set, step_known.
    case_decide as Hl.
    + subst lib. intros [Hk|Hk%elem_of_singleton]%elem_of_union; [|by right].
      left. by eapply Hindex.
    + intros Hk. left. by eapply Hindex.
  - intros a b. unfold transition_count. rewrite step_transition_count.
    rewrite !step_known. case_decide as Hab.
    + destruct Hab as [Ha <-]. intros _. split; [left|by right].
      apply Hcur. apply last_Some in Ha as [l' ->].
      apply elem_of_app. right. by apply list_elem_of_singleton.
    + intros Hpos. destruct (Htrans a b) as [? ?]; [unfold transition_count; lia|].
      split; by left.
  - intros sequence k. rewrite step_keyword_sequences.
    destruct (is_boundary r && _).
    + intros [Hs|Hs%list_elem_of_singleton]%elem_of_app Hk.
      * apply step_known. left. by eapply Hseq.
      * subst sequence. by apply Hcur'.
    + intros Hs Hk. apply step_known. left. by eapply Hseq.
  - rewrite step_current_sequence. destruct (is_boundary r); [|done].
    intros k ->%list_elem_of_singleton. apply step_known. by right.
Qed.

Lemma foldl_indexes_ok s keywords :
  indexes_ok (self s) → (∀ k, k ∈ current_sequence s → known (self s) k) →
  indexes_ok (self (foldl analyze_keyword s keywords))
  ∧ ∀ k, k ∈ current_sequence (foldl analyze_keyword s keywords) →
         known (self (foldl analyze_keyword s keywords)) k.
Proof.
  revert s. induction keywords as [|r keywords IH]; intros s Hs Hcur; simpl.
  - done.
  - destruct (step_indexes_ok s r Hs Hcur) as [Hs' Hcur']. by apply IH.
Qed.

Lemma finish_indexes_ok s :
  indexes_ok (self s) → (∀ k, k ∈ current_sequence s → known (self s) k) →
  indexes_ok (finish s).
Proof.
  intros Hs Hcur. unfold finish.
  destruct (current_sequence s) as [|x l] eqn:E; [done|].
  destruct Hs as (Hnd & Hfreq & Hctx & Hlib & Hindex & Htrans & Hseq).
  split_and!; try done.
  intros sequence k. cbn [keyword_sequences].
  intros [Hin|Hin%list_elem_of_singleton]%elem_of_app Hk.
  - by eapply Hseq.
  - subst sequence. by apply Hcur.
Qed.

Lemma analyze_keywords_indexes_ok st keywords :
  indexes_ok st → indexes_ok (analyze_keywords st keywords).
Proof.
  intros Hst. unfold analyze_keywords.
  destruct (foldl_indexes_ok
              {| self := st; current_sequence := []; current_context := "" |}
              keywords) as [Hs Hcur]; [done| |by apply finish_indexes_ok].
  simpl. intros k Hk. by apply elem_of_nil in Hk.
Qed.

Lemma init_indexes_ok : indexes_ok init.
Proof.
  unfold indexes_ok, known, library_index, contexts_of, transition_count.
  simpl. split_and!.
  - constructor.
  - done.
  - done.
  - done.
  - intros k lib Hk. by apply elem_of_empty in Hk.
  - intros a b H. unfold count, get_default in H. simpl in H. lia.
  - intros sequence k Hs. by apply elem_of_nil in Hs.
Qed.

Lemma trained_tables_agree st : trained st → indexes_ok st.
Proof.
  induction 1 as [|st keywords _ IH].
  - apply init_indexes_ok.
  - by apply analyze_keywords_indexes_ok.
Qed.

(** X3: in every analyzer that training produces, the frequency table, the
    context table and the keyword-to-library map have the same keys in the
    same order, each once; every known keyword has a library that is not
    empty, is listed under that library in the library index, has a positive
    frequency and at least one context; and every keyword that is listed in
    the library index, that starts or ends a counted transition, or that
    occurs in a stored sequence is a known keyword. *)
Theorem trained_indexes_ok st : trained st → indexes_ok st.
Proof. apply trained_tables_agree. Qed.

Lemma trained_indexes_ok_witness :
  indexes_ok (analyze_keywords init setup_nested_teardown).
Proof.
  apply trained_indexes_ok. apply trained_analyze, trained_init.
Defined.

End IndexesAgree.

(** ** The sequence log cuts the records into overlapping runs *)

Section SequenceLog.
Import KeywordPatternAnalyzer Scenarios.
Implicit Types (s : loop_state) (r : KeywordInfo).
Implicit Types (cur : list string) (new : list (list string)).

Lemma chained_extend new cur n :
  cur ≠ [] → chained (new ++ [cur]) → chained (new ++ [cur ++ [n]]).
Proof.
  intros Hcur. induction new as [|a new IH]; [done|].
  destruct new as [|b new].
  - simpl. intros (Ha & Hab & _). split_and!; [done| |done].
    rewrite Hab. by destruct cur.
  - intros (Ha & Hab & Hrest). split_and!; [done..|]. by apply IH.
Qed.

Lemma chained_add new cur n :
  last cur = Some n → chained (new ++ [cur]) → chained (new ++ [cur; [n]]).
Proof.
  intros Hn. induction new as [|a new IH].
  - simpl. intros _. split_and!; [by rewrite Hn|done..].
  - destruct new as [|b new].
    + simpl. intros (Ha & Hab & _). split_and!; [done..|by rewrite Hn| |]; done.
    + intros (Ha & Hab & Hrest). split_and!; [done..|]. by apply IH.
Qed.

Lemma segmentation_extend first rest new cur n :
  cur ≠ [] → segmentation first rest (new ++ [cur]) →
  segmentation first (rest ++ [n]) (new ++ [cur ++ [n]]).
Proof.
  intros Hcur (Hne & Hchain & Hhead & Hrest).
  apply Forall_app in Hne as [Hnew _]. split_and!.
  - apply Forall_app. split; [done|]. constructor; [|done].
    by destruct cur.
  - by apply chained_extend.
  - rewrite <-Hhead. destruct new as [|a new]; simpl.
    + rewrite !app_nil_r. by destruct cur.
    + apply Forall_cons in Hnew as [Ha _]. by destruct a.
  - rewrite Hrest, !fmap_app, !concat_app. simpl. rewrite !app_nil_r.
    rewrite <-app_assoc. f_equal. by destruct cur.
Qed.

Lemma segmentation_add first rest new cur n :
  last cur = Some n → segmentation first rest (new ++ [cur]) →
  segmentation first rest (new ++ [cur; [n]]).
Proof.
  intros Hn (Hne & Hchain & Hhead & Hrest).
  apply Forall_app in Hne as [Hnew Hcur]. split_and!.
  - apply Forall_app. split; [done|].
    apply Forall_cons in Hcur as [Hcur _]. by repeat constructor.
  - by apply chained_add.
  - rewrite <-Hhead. rewrite !concat_app. simpl. rewrite !app_nil_r.
    apply Forall_cons in Hcur as [Hcur _].
    destruct new as [|a new]; simpl.
    + by destruct cur.
    + apply Forall_cons in Hnew as [Ha _]. by destruct a.
  - rewrite Hrest, !fmap_app, !concat_app. simpl. by rewrite !app_nil_r.
Qed.

(** One record, once the in-progress sequence is not empty: the record
    extends the run, and a boundary record also starts the next run. *)
Lemma step_segmentation s r old new first rest :
  keyword_sequences (self s) = old ++ new → current_sequence s ≠ [] →
  segmentation first rest (new ++ [current_sequence s]) →
  ∃ new',
    keyword_sequences (self (analyze_keyword s r)) = old ++ new'
    ∧ current_sequence (analyze_keyword s r) ≠ []
    ∧ segmentation first (rest ++ [kw_name r])
        (new' ++ [current_sequence (analyze_keyword s r)]).
Proof.
  intros Hseqs Hcur Hseg.
  rewrite step_keyword_sequences, step_current_sequence.
  assert (bool_decide (1 < length (current_sequence s ++ [kw_name r])) = true)
    as ->.
  { apply bool_decide_eq_true. rewrite length_app. simpl.
    destruct (current_sequence s); [done|]. simpl. lia. }
  destruct (is_boundary r); simpl.
  - exists (new ++ [current_sequence s ++ [kw_name r]]). split_and!.
    + by rewrite Hseqs, app_assoc.
    + done.
    + rewrite <-app_assoc. simpl. apply segmentation_add.
      * apply last_snoc.
      * by apply segmentation_extend.
  - exists new. split_and!; [done|by destruct (current_sequence s)|].
    by apply segmentation_extend.
Qed.

Lemma foldl_segmentation keywords : ∀ s old new first rest,
  keyword_sequences (self s) = old ++ new → current_sequence s ≠ [] →
  segmentation first rest (new ++ [current_sequence s]) →
  ∃ new',
    keyword_sequences (self (foldl analyze_keyword s keywords)) = old ++ new'
    ∧ current_sequence (foldl analyze_keyword s keywords) ≠ []
    ∧ segmentation first (rest ++ (kw_name <$> keywords))
        (new' ++ [current_sequence (foldl analyze_keyword s keywords)]).
Proof.
  induction keywords as [|r keywords IH]; intros s old new first rest
    Hseqs Hcur Hseg.
  - exists new. simpl. by rewrite app_nil_r.
  - destruct (step_segmentation s r old new first rest Hseqs Hcur Hseg)
      as (new1 & Hseqs1 & Hcur1 & Hseg1).
    destruct (IH _ _ _ _ _ Hseqs1 Hcur1 Hseg1) as (new2 & ? & ? & Hseg2).
    exists new2. split_and!; [done..|].
    by rewrite <-app_assoc in Hseg2.
Qed.

(** What an ingestion appends to the sequence log covers the names of the
    records in overlapping runs. *)
Lemma analyze_keywords_segmentation st keywords first rest :
  kw_name <$> keywords = first :: rest →
  ∃ new,
    keyword_sequences (analyze_keywords st keywords)
      = keyword_sequences st ++ new
    ∧ segmentation first rest new.
Proof.
  destruct keywords as [|r keywords]; [done|]. intros [= Hfirst Hrest].
  unfold analyze_keywords. cbn [foldl].
  set (s0 := {| self := st; current_sequence := []; current_context := "" |}).
  destruct (foldl_segmentation keywords (analyze_keyword s0 r)
              (keyword_sequences st) [] first []) as (new & Hseqs & Hcur & Hseg).
  - rewrite step_keyword_sequences. simpl.
    by rewrite andb_false_r, app_nil_r.
  - rewrite step_current_sequence. simpl. by destruct (is_boundary r).
  - rewrite step_current_sequence. simpl.
    assert ((if is_boundary r then [kw_name r] else [kw_name r])
            = [kw_name r]) as -> by (by destruct (is_boundary r)).
    rewrite Hfirst. by repeat split; [repeat constructor|..].
  - rewrite finish_keyword_sequences.
    destruct (current_sequence (foldl analyze_keyword (analyze_keyword s0 r)
                                  keywords)) as [|x cur] eqn:E; [done|].
    exists (new ++ [x :: cur]). split; [by rewrite Hseqs, app_assoc|].
    simpl in Hseg. by rewrite <-Hrest.
Qed.

Lemma split_at_boundaries_nonempty keywords : split_at_boundaries keywords ≠ [].
Proof.
  destruct keywords as [|r keywords]; [done|]. simpl.
  destruct (is_boundary r); [done|].
  by destruct (split_at_boundaries keywords).
Qed.

Lemma concat_split_at_boundaries keywords :
  concat (split_at_boundaries keywords) = keywords.
Proof.
  induction keywords as [|r keywords IH]; [done|]. simpl.
  destruct (is_boundary r); simpl; [by rewrite IH|].
  destruct (split_at_boundaries keywords); simpl in *; by rewrite <-IH.
Qed.

Lemma is_boundary_top_level_fixture r :
  is_boundary r = true ↔ top_level_fixture r.
Proof.
  unfold is_boundary, top_level_fixture.
  rewrite andb_true_iff, !bool_decide_eq_true, !elem_of_cons, elem_of_nil.
  tauto.
Qed.

Lemma cut_split_at_boundaries keywords :
  cut_at_boundaries (split_at_boundaries keywords).
Proof.
  induction keywords as [|r keywords IH]; [by constructor|]. simpl.
  pose proof (split_at_boundaries_nonempty keywords) as Hne.
  destruct (split_at_boundaries keywords) as [|piece pieces]; [done|].
  destruct (is_boundary r) eqn:Hr.
  - split; [|done]. exists [], r. split_and!; [done|constructor|].
    by apply is_boundary_top_level_fixture.
  - assert (¬ top_level_fixture r) as Hr'.
    { intros H%is_boundary_top_level_fixture. congruence. }
    destruct pieces as [|piece' pieces].
    + simpl in *. by constructor.
    + destruct IH as [(body & b & -> & Hbody & Hb) IH]. split; [|done].
      exists (r :: body), b. split_and!; [done|by constructor|done].
Qed.

Lemma cut_at_boundaries_piece piece pieces :
  cut_at_boundaries (piece :: pieces) → pieces ≠ [] → piece ≠ [].
Proof.
  destruct pieces; [done|]. intros [(body & b & -> & _) _] _.
  by destruct body.
Qed.

(** The loop, once the in-progress sequence is not empty, appends the runs
    of the cut. *)
Lemma foldl_runs keywords : ∀ s,
  current_sequence s ≠ [] →
  keyword_sequences (finish (foldl analyze_keyword s keywords))
  = keyword_sequences (self s)
    ++ runs_of (current_sequence s) (split_at_boundaries keywords).
Proof.
  induction keywords as [|r keywords IH]; intros s Hcur.
  - simpl. rewrite finish_keyword_sequences, app_nil_r.
    by destruct (current_sequence s).
  - cbn [foldl]. rewrite IH.
    2:{ rewrite step_current_sequence.
        destruct (is_boundary r); [done|by destruct (current_sequence s)]. }
    rewrite step_keyword_sequences, step_current_sequence.
    assert (bool_decide (1 < length (current_sequence s ++ [kw_name r])) = true)
      as ->.
    { apply bool_decide_eq_true. rewrite length_app. simpl.
      destruct (current_sequence s); [done|]. simpl. lia. }
    pose proof (cut_split_at_boundaries keywords) as Hcut.
    pose proof (split_at_boundaries_nonempty keywords) as Hne.
    cbn [split_at_boundaries].
    destruct (split_at_boundaries keywords) as [|piece pieces]; [done|].
    destruct (is_boundary r); simpl.
    + by rewrite <-app_assoc.
    + rewrite <-app_assoc. simpl. do 2 f_equal.
      destruct pieces as [|piece' pieces]; [done|].
      pose proof (cut_at_boundaries_piece _ _ Hcut) as Hpiece.
      destruct piece; [by destruct Hpiece|done].
Qed.

(** X4: ingesting records named [first :: rest] only appends to the sequence
    log, and what it appends cuts the names into overlapping runs: no run is
    empty, the first run starts with [first], every later run starts with
    the name that ended the run before it, and the runs without their first
    names, put end to end, give [rest]. The cuts are made at the top-level
    setups and teardowns and nowhere else: with the records after the first
    one cut into pieces after every such record, the first run is [first]
    followed by the names of the first piece, and every later run is the
    name of the setup or teardown that ended the piece before it, followed
    by the names of its own piece, a last run of that name alone when the
    records end with a setup or teardown. *)
Theorem sequence_log_segmentation st keywords first rest :
  kw_name <$> keywords = first :: rest →
  ∃ new pieces,
    keyword_sequences (analyze_keywords st keywords)
      = keyword_sequences st ++ new
    ∧ segmentation first rest new
    ∧ tail keywords = concat pieces
    ∧ cut_at_boundaries pieces
    ∧ new = runs_of [first] pieces.
Proof.
  intros Hnames.
  destruct (analyze_keywords_segmentation st keywords first rest Hnames)
    as (new & Hseqs & Hseg).
  destruct keywords as [|r keywords]; [done|]. injection Hnames as <- _.
  exists new, (split_at_boundaries keywords). split_and!; [done..| | |].
  - by rewrite concat_split_at_boundaries.
  - apply cut_split_at_boundaries.
  - apply (app_inv_head (keyword_sequences st)). rewrite <-Hseqs.
    unfold analyze_keywords. cbn [foldl].
    set (s0 := {| self := st; current_sequence := []; current_context := "" |}).
    rewrite foldl_runs.
    + rewrite step_keyword_sequences, step_current_sequence. simpl.
      rewrite andb_false_r. by destruct (is_boundary r).
    + rewrite step_current_sequence. simpl. by destruct (is_boundary r).
Qed.

Lemma sequence_log_segmentation_witness :
  ∃ new pieces,
    keyword_sequences (analyze_keywords init setup_nested_teardown)
      = keyword_sequences init ++ new
    ∧ segmentation "A" ["B"; "C"; "D"] new
    ∧ tail setup_nested_teardown = concat pieces
    ∧ cut_at_boundaries pieces
    ∧ new = runs_of ["A"] pieces.
Proof.
  apply (sequence_log_segmentation init setup_nested_teardown).
  reflexivity.
Defined.

(** The runs of the witness: the teardown D ends the first run and starts
    the second. *)
Example setup_nested_teardown_sequences :
  keyword_sequences (analyze_keywords init setup_nested_teardown)
  = [["A"; "B"; "C"; "D"]; ["D"]].
Proof. reflexivity. Qed.

End SequenceLog.

(** ** The context strings *)

Lemma string_app_assoc (a b c : string) : (a +:+ b) +:+ c = a +:+ b +:+ c.
Proof.
  induction a as [|x a IH]; [done|].
  change (String x ((a +:+ b) +:+ c) = String x (a +:+ b +:+ c)).
  by rewrite IH.
Qed.

Lemma join_snoc sep (l : list string) x :
  l ≠ [] → join sep (l ++ [x]) = join sep l +:+ sep +:+ x.
Proof.
  induction l as [|y l IH]; [done|]. intros _.
  destruct l as [|z l]; [done|].
  change (join sep ((y :: z :: l) ++ [x]))
    with (y +:+ sep +:+ join sep ((z :: l) ++ [x])).
  rewrite IH by done.
  change (join sep (y :: z :: l)) with (y +:+ sep +:+ join sep (z :: l)).
  by rewrite !string_app_assoc.
Qed.

Section Contexts.
Import KeywordPatternAnalyzer Scenarios.
Implicit Types (s : loop_state) (r : KeywordInfo).

(** Recorded contexts are never removed. *)
Lemma step_contexts_of s r k :
  contexts_of (self (analyze_keyword s r)) k
  = if decide (kw_name r = k)
    then contexts_of (self s) k ∪ {[next_context (current_context s) r]}
    else contexts_of (self s) k.
Proof.
  unfold contexts_of. rewrite step_keyword_contexts, get_default_add_to_set.
  by case_decide; subst.
Qed.

Lemma foldl_contexts_mono s keywords k c :
  c ∈ contexts_of (self s) k →
  c ∈ contexts_of (self (foldl analyze_keyword s keywords)) k.
Proof.
  revert s. induction keywords as [|r keywords IH]; intros s Hc; [done|].
  simpl. apply IH. rewrite step_contexts_of.
  case_decide; [apply elem_of_union; by left|done].
Qed.

(** Below a level-0 record the context grows with every level-1 record and
    is left alone by the deeper ones. *)
Lemma foldl_current_context s r0 rs :
  kw_level r0 = 0 → Forall (λ r, kw_level r ≠ 0) rs →
  current_context (foldl analyze_keyword (analyze_keyword s r0) rs)
  = join "." (kw_name <$> r0 :: filter (λ r, kw_level r = 1) rs).
Proof.
  intros H0. induction rs as [|r rs IH] using rev_ind; intros Hrs.
  - cbn [foldl]. rewrite step_current_context. unfold next_context.
    by rewrite decide_True.
  - apply Forall_app in Hrs as [Hrs [Hr _]%Forall_cons].
    rewrite foldl_app. cbn [foldl].
    rewrite step_current_context, IH, filter_app by done.
    unfold next_context.
    rewrite decide_False by done.
    rewrite filter_cons, filter_nil.
    destruct (decide (kw_level r = 1)) as [H1|H1].
    + rewrite app_comm_cons, fmap_app.
      change (kw_name <$> [r]) with [kw_name r].
      by rewrite join_snoc.
    + by rewrite app_nil_r.
Qed.

(** X5: the context recorded for a level-1 record is the name of the latest
    level-0 record, followed by the names of all the level-1 records that
    came since, the record itself included, joined by dots: the second
    keyword nested in A, after a first one B, is recorded with the context
    A.B.C, whatever deeper records lie in between. *)
Theorem level_1_contexts_accumulate st pre r0 rs r post :
  kw_level r0 = 0 → Forall (λ x, kw_level x ≠ 0) rs → kw_level r = 1 →
  join "." (kw_name <$> r0 :: filter (λ x, kw_level x = 1) rs ++ [r])
  ∈ contexts_of (analyze_keywords st (pre ++ r0 :: rs ++ r :: post))
      (kw_name r).
Proof.
  intros H0 Hrs H1. unfold analyze_keywords, contexts_of.
  rewrite finish_keyword_contexts. fold (contexts_of
    (self (foldl analyze_keyword
             {| self := st; current_sequence := []; current_context := "" |}
             (pre ++ r0 :: rs ++ r :: post))) (kw_name r)).
  rewrite foldl_app.
  set (s := foldl analyze_keyword _ pre).
  cbn [foldl]. rewrite foldl_app. cbn [foldl].
  set (s' := foldl analyze_keyword (analyze_keyword s r0) rs).
  apply foldl_contexts_mono. rewrite step_contexts_of.
  rewrite decide_True by done. apply elem_of_union. right.
  apply elem_of_singleton.
  unfold s'.
  unfold next_context. rewrite decide_False by lia.
  rewrite decide_True by done.
  rewrite (foldl_current_context s r0 rs H0 Hrs).
  rewrite app_comm_cons, fmap_app.
  change (kw_name <$> [r]) with [kw_name r].
  by rewrite join_snoc.
Qed.

Lemma level_1_contexts_accumulate_witness :
  "A.B.C" ∈ contexts_of
    (analyze_keywords init
       ([] ++ record "A" "keyword" "" 0 "" 1
           :: [record "B" "keyword" "" 1 "A" 2;
               record "B1" "keyword" "" 2 "A.B" 3]
           ++ record "C" "keyword" "" 1 "A" 4 :: []))
    "C".
Proof.
  apply (level_1_contexts_accumulate init []
           (record "A" "keyword" "" 0 "" 1)
           [record "B" "keyword" "" 1 "A" 2;
            record "B1" "keyword" "" 2 "A.B" 3]
           (record "C" "keyword" "" 1 "A" 4) []).
  - reflexivity.
  - repeat constructor; simpl; lia.
  - reflexivity.
Defined.

End Contexts.

(** ** What one extraction run records *)

Section WalkOrder.
Import RobotKeywordExtractor Scenarios.

Lemma iter_unfold t a x cs :
  iter (mkElement t a x cs) = mkElement t a x cs :: (cs ≫= iter).
Proof. reflexivity. Qed.

Lemma keyword_names_unfold t a x cs :
  keyword_names (mkElement t a x cs)
  = (if decide (t = "kw") then [attr (mkElement t a x cs) "name" "Unknown"]
     else [])
    ++ (cs ≫= keyword_names).
Proof.
  unfold keyword_names, keyword_elements. rewrite iter_unfold, filter_cons.
  cbn [tag].
  assert ((λ c, attr c "name" "Unknown") <$> filter (λ c, tag c = "kw") (cs ≫= iter)
          = cs ≫= (λ e, (λ c, attr c "name" "Unknown")
                         <$> filter (λ c, tag c = "kw") (iter e))) as E.
  { induction cs as [|c cs IH]; [done|].
    csimpl. by rewrite filter_app, fmap_app, IH. }
  destruct (decide (t = "kw")); csimpl; by rewrite E.
Qed.

Lemma foldl_names (f : list KeywordInfo → Element → list KeywordInfo) cs :
  Forall (λ c, ∀ keywords,
            kw_name <$> f keywords c
            = (kw_name <$> keywords) ++ keyword_names c) cs →
  ∀ keywords,
    kw_name <$> foldl f keywords cs
    = (kw_name <$> keywords) ++ (cs ≫= keyword_names).
Proof.
  induction 1 as [|c cs Hc _ IH]; intros keywords; csimpl.
  - by rewrite app_nil_r.
  - by rewrite IH, Hc, app_assoc.
Qed.

Lemma extract_keywords_recursive_names element level parent_name test_name
    keywords :
  kw_name <$> extract_keywords_recursive element level parent_name test_name
                keywords
  = (kw_name <$> keywords) ++ keyword_names element.
Proof.
  revert level parent_name test_name keywords.
  induction element as [t a x cs IH] using Element_ind_children.
  intros level parent_name test_name keywords.
  rewrite extract_keywords_recursive_unfold, keyword_names_unfold.
  cbn [tag children].
  destruct (decide (t = "kw")); [|destruct (decide (t = "test"))].
  - rewrite foldl_names.
    + rewrite fmap_app. by rewrite <-app_assoc.
    + eapply Forall_impl; [exact IH|]. intros c Hc ks. apply Hc.
  - rewrite foldl_names; [done|].
    eapply Forall_impl; [exact IH|]. intros c Hc ks. apply Hc.
  - rewrite foldl_names; [done|].
    eapply Forall_impl; [exact IH|]. intros c Hc ks. apply Hc.
Qed.

(** X6: one walk appends one record for every [kw] element at or below the
    element it starts from, in document order (a keyword before the keywords
    nested in it, siblings in the order of the file), whatever the tags of
    the elements in between; a [kw] element without a name is recorded as
    Unknown. *)
Theorem walk_records_keyword_elements element level parent_name test_name
    keywords :
  kw_name <$> extract_keywords_recursive element level parent_name test_name
                keywords
  = (kw_name <$> keywords) ++ keyword_names element.
Proof. apply extract_keywords_recursive_names. Qed.

Lemma extract_keywords_Return root robot_elem keywords :
  robot_of root = Some robot_elem →
  extract_keywords (Document root) keywords
  = Return (extract_suites (findall_desc robot_elem "suite") keywords).
Proof. unfold robot_of, extract_keywords. simpl. by intros ->. Qed.

(** X7: a run over a document with a robot element returns, and appends,
    for every suite found anywhere below the robot element, the nested
    suites included and each taken on its own, in document order, the names
    of all the [kw] elements at or below that suite: the keywords of a
    nested suite are recorded for the suite itself and again for every
    suite around it. *)
Theorem extract_keywords_walks_every_suite root robot_elem keywords :
  robot_of root = Some robot_elem →
  ∃ result,
    extract_keywords (Document root) keywords = Return result
    ∧ kw_name <$> result
      = (kw_name <$> keywords)
        ++ (findall_desc robot_elem "suite" ≫= keyword_names).
Proof.
  intros Hrobot. eexists. split; [by apply extract_keywords_Return|].
  unfold extract_suites. apply foldl_names.
  apply Forall_forall. intros c _ ks. apply extract_keywords_recursive_names.
Qed.

Lemma extract_keywords_walks_every_suite_witness :
  ∃ result,
    extract_keywords (Document nested_suites) [] = Return result
    ∧ kw_name <$> result
      = (kw_name <$> [])
        ++ (findall_desc nested_suites "suite" ≫= keyword_names).
Proof.
  apply (extract_keywords_walks_every_suite nested_suites nested_suites []).
  reflexivity.
Defined.

(** The suites of the witness and the names recorded for each. *)
Example nested_suites_names :
  keyword_names <$> findall_desc nested_suites "suite"
  = [["Parent"; "Child"]; ["Parent"; "Child"]].
Proof. reflexivity. Qed.

(** X8: a run on an extractor that already holds records (a second call of
    [extract_keywords] on the same object) keeps them, appends the new
    records after them and numbers the new records on from the number of
    records held: nothing is cleared and no number starts again at 1. *)
Theorem extract_keywords_appends_numbered f keywords result :
  extract_keywords f keywords = Return result →
  ∃ new,
    result = keywords ++ new
    ∧ kw_execution_order <$> new = seq (length keywords + 1) (length new).
Proof.
  unfold extract_keywords. destruct (parse_xml f) as [root| |]; [|done..].
  destruct (if decide (tag root = "robot") then Some root
            else find_desc root "robot") as [robot_elem|]; [|done].
  intros [= <-]. unfold extract_suites.
  apply (foldl_extends
           (λ keywords suite, extract_keywords_recursive suite 0 "" "" keywords)).
  apply Forall_forall. intros c _ ks. apply extract_keywords_recursive_extends.
Qed.

Lemma extract_keywords_appends_numbered_witness :
  ∃ new,
    extract_suites (findall_desc nested_suites "suite")
      [record "Old" "keyword" "" 0 "" 1]
    = [record "Old" "keyword" "" 0 "" 1] ++ new
    ∧ kw_execution_order <$> new
      = seq (length [record "Old" "keyword" "" 0 "" 1] + 1) (length new).
Proof.
  apply (extract_keywords_appends_numbered (Document nested_suites)).
  reflexivity.
Defined.

End WalkOrder.

(** ** Training: all the files or none *)

Section TrainingRuns.
Import RobotKeywordExtractor KeywordPatternAnalyzer RobotKeywordRecommender.
Import Scenarios.

Lemma readable_extract_keywords f keywords :
  readable f → ∃ result, extract_keywords f keywords = Return result.
Proof.
  intros (root & -> & [robot_elem Hrobot]). eexists.
  unfold extract_keywords. simpl. unfold robot_of in Hrobot.
  by rewrite Hrobot.
Qed.

Lemma unreadable_extract_keywords f keywords :
  ¬ readable f → extract_keywords f keywords = RaiseSystemExit 1.
Proof.
  intros Hf. unfold extract_keywords.
  destruct f as [| | |root]; try done. simpl.
  destruct (if decide (tag root = "robot") then Some root
            else find_desc root "robot") as [robot_elem|] eqn:E; [|done].
  destruct Hf. exists root. split; [done|]. unfold robot_of. by rewrite E.
Qed.

(** X9: when every file is a well-formed document with a robot element,
    training returns, and the analyzer it leaves is the one obtained by
    ingesting the records of the files one after the other, each file read
    by a new extractor. *)
Theorem train_all_readable fs output_files analyzer :
  Forall (λ output_file, readable (fs output_file)) output_files →
  ∃ logs,
    Forall2 (λ output_file keywords,
               extract_keywords (fs output_file) [] = Return keywords)
      output_files logs
    ∧ train_on_output_files fs output_files analyzer
      = Return (foldl analyze_keywords analyzer logs).
Proof.
  intros Hfiles. revert analyzer.
  induction Hfiles as [|output_file rest Hfile _ IH]; intros analyzer.
  - exists []. by split.
  - destruct (readable_extract_keywords _ [] Hfile) as [keywords Hkeywords].
    destruct (IH (analyze_keywords analyzer keywords)) as (logs & Hlogs & Htrain).
    exists (keywords :: logs). split; [by constructor|].
    simpl. unfold analyze_output_file. by rewrite Hkeywords.
Qed.

Lemma train_all_readable_witness :
  ∃ logs,
    Forall2 (λ output_file keywords,
               extract_keywords (disk output_file) [] = Return keywords)
      ["good.xml"; "good.xml"] logs
    ∧ train_on_output_files disk ["good.xml"; "good.xml"] init
      = Return (foldl analyze_keywords init logs).
Proof.
  apply (train_all_readable disk ["good.xml"; "good.xml"] init).
  repeat constructor; exists good_log; (split; [reflexivity|by eexists]).
Defined.

(** X10: when one of the files is missing, unreadable, not well-formed or
    without a robot element, training leaves with exit status 1, wherever
    the file stands in the list: the error is not caught, no file is
    skipped and no analyzer is returned. *)
Theorem train_unreadable_exits fs output_files analyzer :
  Exists (λ output_file, ¬ readable (fs output_file)) output_files →
  train_on_output_files fs output_files analyzer = RaiseSystemExit 1.
Proof.
  intros Hfiles. revert analyzer.
  induction Hfiles as [output_file rest Hfile|output_file rest _ IH];
    intros analyzer; simpl; unfold analyze_output_file.
  - by rewrite unreadable_extract_keywords.
  - destruct (extract_keywords (fs output_file) []) as [keywords|msg|code] eqn:E.
    + apply IH.
    + apply IH.
    + destruct (fs output_file) as [| | |root]; try by injection E as <-.
      unfold extract_keywords in E. simpl in E.
      destruct (if decide (tag root = "robot") then Some root
                else find_desc root "robot"); [done|by injection E as <-].
Qed.

Lemma train_unreadable_exits_witness :
  train_on_output_files disk ["good.xml"; "missing.xml"; "good.xml"] init
  = RaiseSystemExit 1.
Proof.
  apply (train_unreadable_exits disk ["good.xml"; "missing.xml"; "good.xml"]).
  apply Exists_cons_tl, Exists_cons_hd.
  intros (root & Hroot & _). vm_compute in Hroot. discriminate Hroot.
Defined.

(** X11: training on a list of files in one call is training on its first
    part and then, if that returned, on the rest from the analyzer
    reached. *)
Theorem train_app fs files1 files2 analyzer :
  train_on_output_files fs (files1 ++ files2) analyzer
  = match train_on_output_files fs files1 analyzer with
    | Return analyzer' => train_on_output_files fs files2 analyzer'
    | RaiseException msg => RaiseException msg
    | RaiseSystemExit code => RaiseSystemExit code
    end.
Proof.
  revert analyzer. induction files1 as [|output_file files1 IH];
    intros analyzer; simpl; [done|].
  by destruct (analyze_output_file (fs output_file) analyzer).
Qed.

(** Training keeps a trained analyzer trained. *)
Lemma train_trained fs output_files analyzer analyzer' :
  trained analyzer →
  train_on_output_files fs output_files analyzer = Return analyzer' →
  trained analyzer'.
Proof.
  revert analyzer. induction output_files as [|output_file rest IH];
    intros analyzer Ht; simpl.
  - by intros [= <-].
  - unfold analyze_output_file.
    destruct (extract_keywords (fs output_file) []) as [keywords| |]; [| |done].
    + apply IH. by constructor.
    + by apply IH.
Qed.

End TrainingRuns.

(** ** Popular keywords *)

Section Popular.
Import KeywordPatternAnalyzer RobotKeywordRecommender Scenarios.

Lemma library_matches_in_library st library item :
  library_matches library
    (get_default (keyword_libraries st) item.1 "BuiltIn") = true
  ↔ in_library st library item.
Proof.
  destruct library as [l|]; simpl; [|done]. apply bool_decide_eq_true.
Qed.

(** The loop stops at [limit] entries: it is a filter followed by a cut. *)
Lemma popular_loop_take st library limit keywords result :
  (Z.of_nat (length result) < limit)%Z →
  popular_loop st library limit keywords result
  = result ++ (popular_entry st
               <$> take (Z.to_nat limit - length result)
                     (filter (in_library st library) keywords)).
Proof.
  revert result. induction keywords as [|[keyword n] keywords IH];
    intros result Hlen; simpl.
  - by rewrite filter_nil, take_nil, app_nil_r.
  - rewrite filter_cons.
    destruct (library_matches library
                (get_default (keyword_libraries st) keyword "BuiltIn")) eqn:E.
    + rewrite (decide_True (P := in_library st library (keyword, n)))
        by (by apply (library_matches_in_library st library (keyword, n))).
      destruct (Z.to_nat limit - length result)%nat as [|m] eqn:Em; [lia|].
      simpl. case_decide as Hstop.
      * rewrite length_app in Hstop. simpl in Hstop.
        assert (m = 0)%nat as -> by lia. by rewrite take_0.
      * rewrite length_app in Hstop. simpl in Hstop.
        rewrite IH by (rewrite length_app; simpl; lia).
        rewrite length_app. simpl. rewrite <-app_assoc. simpl.
        do 4 f_equal. lia.
    + rewrite (decide_False (P := in_library st library (keyword, n)));
        [by apply IH|].
      intros H%(library_matches_in_library st library (keyword, n)).
      simpl in H. congruence.
Qed.

Lemma get_popular_keywords_take st library limit :
  get_popular_keywords st library limit
  = popular_entry st
    <$> take (Z.to_nat limit)
          (filter (in_library st library)
             (most_common (limit * 2) (keyword_frequencies st))).
Proof.
  unfold get_popular_keywords.
  destruct (decide (0 < limit)%Z) as [Hpos|Hneg].
  - rewrite popular_loop_take by (simpl; lia). simpl.
    by rewrite Nat.sub_0_r.
  - unfold most_common. rewrite nlargest_nonpos by lia. simpl.
    by rewrite filter_nil, take_nil.
Qed.

(** X12: the popular keywords are the first [limit] entries that pass the
    library filter among the [2 * limit] most frequent keywords of the whole
    table. A keyword of the library that is not among the [2 * limit] most
    frequent keywords overall is never listed, even when fewer than [limit]
    entries are returned; a limit of zero or less gives nothing. *)
Theorem popular_keywords_filter_then_cut st library limit :
  get_popular_keywords st library limit
  = popular_entry st
    <$> take (Z.to_nat limit)
          (filter (in_library st library)
             (most_common (limit * 2) (keyword_frequencies st))).
Proof. apply get_popular_keywords_take. Qed.

(** X13: without a library filter the popular keywords are the [limit] most
    common entries of the frequency table, most frequent first: looking at
    twice as many entries as asked for changes nothing when nothing is
    filtered out. *)
Theorem popular_keywords_unfiltered st limit :
  get_popular_keywords st None limit
  = popular_entry st <$> most_common limit (keyword_frequencies st).
Proof.
  assert (∀ l : list (string * nat), filter (in_library st None) l = l) as Hall.
  { induction l as [|x l IH]; [done|].
    rewrite filter_cons, decide_True by done. by rewrite IH. }
  unfold get_popular_keywords, most_common, nlargest.
  destruct (decide (limit ≤ 0)%Z).
  - by rewrite decide_True by lia.
  - rewrite decide_False by lia.
    rewrite popular_loop_take by (simpl; lia). simpl.
    rewrite Hall, Nat.sub_0_r, take_take. do 2 f_equal. lia.
Qed.

(** The filter can starve the result: C is the only keyword of LibC, but it
    is not among the two most frequent keywords, so that a query for one
    keyword of LibC finds none. *)
Example popular_keywords_starved :
  let st := analyze_keywords init
              [ record "A" "keyword" "LibA" 0 "" 1;
                record "A" "keyword" "LibA" 0 "" 2;
                record "B" "keyword" "LibB" 0 "" 3;
                record "B" "keyword" "LibB" 0 "" 4;
                record "C" "keyword" "LibC" 0 "" 5 ] in
  get_popular_keywords st (Some "LibC") 1 = []
  ∧ get_popular_keywords st (Some "LibC") 2
    = [ {| pk_keyword := "C"; pk_library := "LibC"; pk_frequency := 1 |} ].
Proof. split; vm_compute; reflexivity. Qed.

End Popular.

(** ** Library statistics *)

Lemma get_map_values {V W} (f : V → W) (d : dict V) k :
  get (map_values f d) k = f <$> get d k.
Proof.
  unfold map_values. induction d as [|[k' v] d IH]; csimpl; [done|].
  by case_decide.
Qed.

Section LibraryStatistics.
Import KeywordPatternAnalyzer RobotKeywordRecommender Scenarios.

(** The counter from which the top keywords of a library are taken. *)
Lemma top_keywords_most_common st (keywords : gset string) :
  let usage := λ kw, count (keyword_frequencies st) kw in
  ((λ item : string * nat, (item.1, usage item.1))
   <$> most_common 5 ((λ kw, (kw, usage kw)) <$> elements keywords))
  = most_common 5 ((λ kw, (kw, usage kw)) <$> elements keywords).
Proof.
  intros usage. rewrite <-(list_fmap_id (most_common 5 _)) at 2.
  apply list_fmap_ext. intros i item Hitem%list_elem_of_lookup_2.
  apply elem_of_most_common, list_elem_of_fmap in Hitem as (kw & -> & _).
  done.
Qed.

(** X14: the entry of a library in the statistics counts the keywords listed
    under the library, and its top keywords are five of them (as many as
    there are when there are fewer), no keyword twice, each with its
    frequency, the most used first: no keyword of the library that is left
    out is used more often than one that is listed. *)
Theorem library_statistics_top_keywords st lib stats :
  get (get_library_statistics st) lib = Some stats →
  keyword_count stats = size (library_index st lib)
  ∧ length (top_keywords stats) = keyword_count stats `min` 5
  ∧ NoDup (top_keywords stats).*1
  ∧ StronglySorted (λ x y : string * nat, (y.2 ≤ x.2)%nat) (top_keywords stats)
  ∧ (∀ kw n, (kw, n) ∈ top_keywords stats →
       kw ∈ library_index st lib ∧ n = count (keyword_frequencies st) kw)
  ∧ (∀ kw item, kw ∈ library_index st lib → kw ∉ (top_keywords stats).*1 →
       item ∈ top_keywords stats →
       (count (keyword_frequencies st) kw ≤ item.2)%nat).
Proof.
  unfold get_library_statistics, library_index, get_default.
  rewrite get_map_values.
  destruct (get (library_keywords st) lib) as [keywords|]; [|done].
  intros [= <-]. cbn [keyword_count top_keywords default].
  rewrite top_keywords_most_common.
  set (usage := λ kw, count (keyword_frequencies st) kw).
  set (c := (λ kw, (kw, usage kw)) <$> elements keywords).
  assert (most_common 5 c = take 5 (sorted_reverse count_leb c)) as Htop.
  { unfold most_common, nlargest. by rewrite decide_False by lia. }
  assert (StronglySorted (λ x y : string * nat, (y.2 ≤ x.2)%nat)
            (sorted_reverse count_leb c)) as Hsorted.
  { eapply (StronglySorted_impl (desc count_leb)).
    - intros x y. unfold desc, count_leb. by rewrite Nat.leb_le.
    - apply sorted_reverse_sorted; [apply count_leb_total|apply count_leb_trans]. }
  split_and!.
  - done.
  - rewrite Htop, length_take, length_sorted_reverse. unfold c.
    rewrite length_fmap. lia.
  - apply most_common_NoDup. unfold keys, c.
    rewrite <-list_fmap_compose, list_fmap_id. apply NoDup_elements.
  - apply most_common_sorted.
  - intros kw n Hin. apply elem_of_most_common in Hin.
    apply list_elem_of_fmap in Hin as (kw' & [= -> ->] & Hkw').
    split; [by apply elem_of_elements|done].
  - intros kw item Hkw Hout Hitem.
    assert ((kw, usage kw) ∈ sorted_reverse count_leb c) as Hin.
    { apply elem_of_sorted_reverse, list_elem_of_fmap.
      exists kw. split; [done|by apply elem_of_elements]. }
    rewrite <-(take_drop 5 (sorted_reverse count_leb c)) in Hin, Hsorted.
    apply elem_of_app in Hin as [Hin|Hin].
    + destruct Hout. rewrite Htop. apply list_elem_of_fmap.
      by exists (kw, usage kw).
    + rewrite Htop in Hitem.
      apply (StronglySorted_app_1_elem_of _ _ _ item (kw, usage kw)) in Hsorted;
        done.
Qed.

Lemma library_statistics_top_keywords_witness :
  let st := analyze_keywords init two_libraries in
  let stats := {| keyword_count := 1; total_usage := 2;
                  top_keywords := [("X", 2)] |} in
  keyword_count stats = size (library_index st "LibA")
  ∧ length (top_keywords stats) = keyword_count stats `min` 5
  ∧ NoDup (top_keywords stats).*1
  ∧ StronglySorted (λ x y : string * nat, (y.2 ≤ x.2)%nat) (top_keywords stats)
  ∧ (∀ kw n, (kw, n) ∈ top_keywords stats →
       kw ∈ library_index st "LibA" ∧ n = count (keyword_frequencies st) kw)
  ∧ (∀ kw item, kw ∈ library_index st "LibA" →
       kw ∉ (top_keywords stats).*1 → item ∈ top_keywords stats →
       (count (keyword_frequencies st) kw ≤ item.2)%nat).
Proof.
  intros st stats.
  apply (library_statistics_top_keywords st "LibA" stats).
  vm_compute. reflexivity.
Defined.

(** Every set of the library index holds a keyword. *)
Lemma step_library_nonempty s r :
  (∀ lib keywords, get (library_keywords (self s)) lib = Some keywords →
                   keywords ≠ ∅) →
  ∀ lib keywords,
    get (library_keywords (self (analyze_keyword s r))) lib = Some keywords →
    keywords ≠ ∅.
Proof.
  intros Hs lib keywords. rewrite step_library_keywords. unfold add_to_set.
  rewrite get_setitem. case_decide; [|apply Hs].
  intros [= <-]. eapply non_empty_inhabited_L, elem_of_union. right.
  by apply elem_of_singleton.
Qed.

Lemma trained_library_nonempty st :
  trained st →
  ∀ lib keywords, get (library_keywords st) lib = Some keywords →
                  keywords ≠ ∅.
Proof.
  induction 1 as [|st keywords _ IH]; [done|].
  unfold analyze_keywords. intros lib set. rewrite finish_library_keywords.
  revert lib set.
  generalize {| self := st; current_sequence := []; current_context := "" |},
    (eq_refl : self {| self := st; current_sequence := [];
                       current_context := "" |} = st).
  intros s Hs. rewrite <-Hs in IH. clear Hs. revert s IH.
  induction keywords as [|r keywords IHk]; intros s IH; simpl; [done|].
  apply IHk. by apply step_library_nonempty.
Qed.

Lemma sum_list_ge (f : string → nat) l :
  Forall (λ x, 0 < f x)%nat l → (length l ≤ sum_list (f <$> l))%nat.
Proof. induction 1; csimpl; lia. Qed.

(** X15: in the statistics of a trained analyzer no library is listed
    without a keyword, and the total usage of a library is at least the
    number of its keywords, every listed keyword having been seen at least
    once. *)
Theorem library_statistics_usage st lib stats :
  trained st → get (get_library_statistics st) lib = Some stats →
  (1 ≤ keyword_count stats)%nat
  ∧ (keyword_count stats ≤ total_usage stats)%nat.
Proof.
  intros Ht. unfold get_library_statistics. rewrite get_map_values.
  destruct (get (library_keywords st) lib) as [keywords|] eqn:E; [|done].
  intros [= <-]. cbn [keyword_count total_usage]. split.
  - pose proof (trained_library_nonempty st Ht lib keywords E) as Hne.
    destruct (elements keywords) eqn:El; [|simpl; lia].
    by apply elements_empty_inv, leibniz_equiv in El.
  - apply sum_list_ge. apply Forall_forall. intros kw Hkw%elem_of_elements.
    destruct (trained_tables_agree st Ht) as (_ & _ & _ & Hlib & Hindex & _).
    destruct (Hindex kw lib) as [l Hl].
    { unfold library_index, get_default. by rewrite E. }
    by destruct (Hlib kw l Hl) as (_ & _ & ? & _).
Qed.

Lemma library_statistics_usage_witness :
  let stats := {| keyword_count := 1; total_usage := 2;
                  top_keywords := [("X", 2)] |} in
  (1 ≤ keyword_count stats)%nat
  ∧ (keyword_count stats ≤ total_usage stats)%nat.
Proof.
  intros stats.
  apply (library_statistics_usage (analyze_keywords init two_libraries)
           "LibB" stats).
  - apply trained_analyze, trained_init.
  - vm_compute. reflexivity.
Defined.

(** X is counted once under each of its two libraries, with all its uses. *)
Example two_libraries_statistics :
  get_library_statistics (analyze_keywords init two_libraries)
  = [ ("LibA", {| keyword_count := 1; total_usage := 2;
                  top_keywords := [("X", 2)] |});
      ("LibB", {| keyword_count := 1; total_usage := 2;
                  top_keywords := [("X", 2)] |}) ].
Proof. vm_compute. reflexivity. Qed.

End LibraryStatistics.

(** ** The context query reads its keywords as a set *)

Lemma max_list_incl (l1 l2 : list nat) :
  (∀ x, x ∈ l1 → x ∈ l2) → (max_list l1 ≤ max_list l2)%nat.
Proof.
  intros Hincl. destruct l1 as [|x l1]; [simpl; lia|].
  apply max_list_elem_of_le, Hincl, max_list_elem_of. done.
Qed.

Section ContextSet.
Import KeywordPatternAnalyzer Scenarios.

Lemma last_context_pos_incl sequence (context1 context2 : list string) :
  (∀ kw, kw ∈ context1 → kw ∈ context2) →
  (last_context_pos sequence context1 ≤ last_context_pos sequence context2)%nat.
Proof.
  intros Hincl. apply max_list_incl.
  intros x (kw & -> & Hkw)%list_elem_of_fmap.
  apply list_elem_of_fmap. exists kw. auto.
Qed.

Lemma successors_same_set st (context1 context2 : list string) :
  (∀ kw, kw ∈ context1 ↔ kw ∈ context2) →
  successors st context1 = successors st context2.
Proof.
  intros Hsame. unfold successors, matching_sequences.
  assert (∀ sequence, contains_all sequence context1
                      ↔ contains_all sequence context2) as Hall.
  { intros sequence. unfold contains_all. rewrite !Forall_forall.
    split; intros H kw Hkw; apply H; by apply Hsame. }
  rewrite (list_filter_iff _ _ _ Hall).
  generalize (filter (λ sequence, contains_all sequence context2)
                (keyword_sequences st)).
  induction l as [|sequence l IH]; [done|]. cbn [omap list_omap].
  rewrite IH. unfold successor.
  assert (last_context_pos sequence context1
          = last_context_pos sequence context2) as ->; [|done].
  apply Nat.le_antisymm; apply last_context_pos_incl; intros kw;
    apply Hsame.
Qed.

(** X16: the context query reads its keywords as a set: two lists with the
    same keywords, in any order and with any repetitions, get the same
    recommendations (keywords, libraries, counts and confidences, in the
    same order); only the context text, which joins the list as given,
    differs. *)
Theorem context_query_order_irrelevant st (context1 context2 : list string)
    limit :
  (∀ kw, kw ∈ context1 ↔ kw ∈ context2) →
  get_context_recommendations st context2 limit
  = with_context (join " -> " context2)
    <$> get_context_recommendations st context1 limit.
Proof.
  intros Hsame. destruct context1 as [|kw1 context1].
  - destruct context2 as [|kw2 context2]; [done|].
    exfalso. apply (proj1 (elem_of_nil kw2)), Hsame. by left.
  - destruct context2 as [|kw2 context2].
    { exfalso. apply (proj1 (elem_of_nil kw1)), Hsame. by left. }
    rewrite !get_context_recommendations_tally by done.
    rewrite (successors_same_set st _ _ Hsame), <-list_fmap_compose.
    by apply list_fmap_ext.
Qed.

Lemma context_query_order_irrelevant_witness :
  get_context_recommendations (analyze_keywords init setup_nested_teardown)
    ["B"; "A"; "B"] 10
  = with_context (join " -> " ["B"; "A"; "B"])
    <$> get_context_recommendations
          (analyze_keywords init setup_nested_teardown) ["A"; "B"] 10.
Proof.
  apply (context_query_order_irrelevant
           (analyze_keywords init setup_nested_teardown)
           ["A"; "B"] ["B"; "A"; "B"] 10).
  intros kw. rewrite !elem_of_cons, !elem_of_nil. tauto.
Defined.

(** The recommendation of the witness: C follows the later of the first
    occurrences of A and B. *)
Example context_query_B_A_B :
  keyword <$> get_context_recommendations
                (analyze_keywords init setup_nested_teardown) ["B"; "A"; "B"] 10
  = ["C"].
Proof. vm_compute. reflexivity. Qed.

End ContextSet.

(** ** Keywords that were never seen *)

Section UnknownKeyword.
Import KeywordPatternAnalyzer Scenarios.

Lemma unknown_no_transitions st k :
  trained st → ¬ known st k → get (keyword_transitions st) k = None.
Proof.
  intros Ht Hk. destruct (get (keyword_transitions st) k) as [c|] eqn:E; [|done].
  destruct (trained_counter_ok st k c Ht E) as (Hne & _ & Hpos).
  destruct c as [|[b n] c]; [done|].
  apply Forall_cons in Hpos as [Hn _]. simpl in Hn.
  destruct (trained_tables_agree st Ht) as (_ & _ & _ & _ & _ & Htrans & _).
  destruct (Htrans k b) as [? _]; [|done].
  unfold transition_count, get_default, count, get_default. rewrite E. simpl.
  by rewrite decide_True.
Qed.

(** X17: a keyword that the trained analyzer has never seen gets nothing:
    no recommendation, by transitions or by library, whatever the limit, and
    no context recommendation from any list of context keywords that holds
    it; its frequency reads as zero. *)
Theorem unknown_keyword_no_recommendation st k :
  trained st → ¬ known st k →
  (∀ ctx limit, get_recommendations st k ctx limit = [])
  ∧ (∀ context_keywords limit,
       k ∈ context_keywords →
       get_context_recommendations st context_keywords limit = [])
  ∧ count (keyword_frequencies st) k = 0%nat.
Proof.
  intros Ht Hk.
  destruct (trained_tables_agree st Ht) as (_ & Hfreq & _ & _ & _ & _ & Hseq).
  assert (get (keyword_libraries st) k = None) as Hlib.
  { destruct (get (keyword_libraries st) k) eqn:E; [|done].
    destruct Hk. unfold known. by rewrite E. }
  split_and!.
  - intros ctx limit. apply get_recommendations_unknown_library; [|done].
    unfold direct_recommendations. by rewrite unknown_no_transitions.
  - intros context_keywords limit Hin.
    unfold get_context_recommendations.
    destruct context_keywords as [|kw kws]; [done|].
    assert (filter (λ sequence, contains_all sequence (kw :: kws))
              (keyword_sequences st) = []) as ->; [|done].
    induction (keyword_sequences st) as [|sequence l IH]; [done|].
    rewrite filter_cons, decide_False; [apply IH|].
    + intros sequence' k' Hs. apply Hseq. by right.
    + intros Hall. destruct Hk. apply (Hseq sequence); [by left|].
      by apply (proj1 (Forall_forall _ _) Hall).
  - unfold count, get_default.
    assert (get (keyword_frequencies st) k = None) as ->; [|done].
    apply get_None_keys. rewrite Hfreq. by apply get_None_keys.
Qed.

Lemma unknown_keyword_no_recommendation_witness :
  (∀ ctx limit,
     get_recommendations (analyze_keywords init setup_nested_teardown)
       "Z" ctx limit = [])
  ∧ (∀ context_keywords limit,
       "Z" ∈ context_keywords →
       get_context_recommendations
         (analyze_keywords init setup_nested_teardown) context_keywords limit
       = [])
  ∧ count (keyword_frequencies (analyze_keywords init setup_nested_teardown))
      "Z" = 0%nat.
Proof.
  apply (unknown_keyword_no_recommendation
           (analyze_keywords init setup_nested_teardown) "Z").
  - apply trained_analyze, trained_init.
  - intros [lib Hlib]. vm_compute in Hlib. discriminate Hlib.
Defined.

End UnknownKeyword.

(** ** What every recommendation looks like *)

Lemma elem_of_total (c : dict nat) k n : (k, n) ∈ c → (n ≤ total c)%nat.
Proof.
  unfold total, values. induction c as [|[k' n'] c IH]; intros Hin.
  - by apply elem_of_nil in Hin.
  - rewrite fmap_cons. change (n ≤ n' + sum_list c.*2)%nat.
    apply elem_of_cons in Hin as [[= -> ->]|Hin]; [lia|].
    specialize (IH Hin). lia.
Qed.

Lemma occurrences_le k (l : list string) :
  (Scenarios.occurrences k l ≤ length l)%nat.
Proof. unfold Scenarios.occurrences. apply length_filter. Qed.

Lemma occurrences_pos k (l : list string) :
  (0 < Scenarios.occurrences k l)%nat → k ∈ l.
Proof.
  unfold Scenarios.occurrences. intros Hpos.
  destruct (filter (λ x, x = k) l) as [|x l'] eqn:E; [simpl in Hpos; lia|].
  assert (x ∈ filter (λ x, x = k) l) as Hx by (rewrite E; by left).
  by apply list_elem_of_filter in Hx as [-> ?].
Qed.

Section Confidence.
Import KeywordPatternAnalyzer Scenarios.

Lemma ratio_pos a t : (0 < a)%nat → (0 < t)%nat → (0 < ratio a t)%Q.
Proof.
  intros Ha Ht. unfold ratio, Qdiv. apply Qmult_lt_0_compat.
  - change 0%Q with (inject_Z 0). rewrite <-Zlt_Qlt. lia.
  - apply Qinv_lt_0_compat. change 0%Q with (inject_Z 0).
    rewrite <-Zlt_Qlt. lia.
Qed.

Lemma ratio_le_1 a t : (a ≤ t)%nat → (0 < t)%nat → (ratio a t <= 1)%Q.
Proof.
  intros Ha Ht. rewrite <-(ratio_self t) by done. by apply ratio_mono.
Qed.

Lemma elem_of_slice_to {A} n (l : list A) x : x ∈ slice_to n l → x ∈ l.
Proof. destruct (slice_to_take n l) as [m ->]. apply elem_of_take. Qed.

(** X18: every recommendation that a trained analyzer gives for a keyword,
    by transitions or by library, names a keyword seen in training, carries
    a usage count of at least one and a confidence above 0 and at most
    1. *)
Theorem recommendations_well_formed st k ctx limit r :
  trained st → r ∈ get_recommendations st k ctx limit →
  known st (keyword r) ∧ (0 < usage_count r)%nat
  ∧ (0 < confidence r)%Q ∧ (confidence r <= 1)%Q.
Proof.
  intros Ht Hr.
  destruct (trained_tables_agree st Ht)
    as (_ & _ & _ & Hlib & Hindex & Htrans & _).
  unfold get_recommendations in Hr.
  apply elem_of_slice_to, elem_of_sorted_reverse in Hr.
  assert (r ∈ direct_recommendations st k ctx limit
          ∨ r ∈ library_recommendations st k ctx) as [Hd|Hl].
  { destruct (direct_recommendations st k ctx limit); [by right|by left]. }
  - unfold direct_recommendations in Hd.
    destruct (get (keyword_transitions st) k) as [c|] eqn:E;
      [|by apply elem_of_nil in Hd].
    destruct (trained_counter_ok st k c Ht E) as (_ & Hnd & Hpos).
    apply list_elem_of_fmap in Hd as ([next n] & -> & Hin).
    apply elem_of_most_common in Hin. cbn.
    pose proof (proj1 (Forall_forall _ _) Hpos _ Hin) as Hn. simpl in Hn.
    pose proof (elem_of_total c next n Hin) as Hle.
    split_and!.
    + destruct (Htrans k next) as [_ ?]; [|done].
      unfold transition_count, get_default, count, get_default.
      rewrite E. simpl. by rewrite (elem_of_get _ _ _ Hnd Hin).
    + done.
    + apply ratio_pos; lia.
    + apply ratio_le_1; lia.
  - unfold library_recommendations in Hl.
    destruct (get (keyword_libraries st) k) as [lib|] eqn:E;
      [|by apply elem_of_nil in Hl].
    apply list_elem_of_fmap in Hl as (kw & -> & Hin).
    apply list_elem_of_filter in Hin as [_ Hin%elem_of_elements]. cbn.
    pose proof (Hindex kw lib Hin) as Hknown.
    split_and!; [done| |done|done].
    destruct Hknown as [lib' Hlib'].
    by destruct (Hlib kw lib' Hlib') as (_ & _ & ? & _).
Qed.

Lemma recommendations_well_formed_witness :
  let r := {| keyword := "B"; library := "BuiltIn"; confidence := 1;
              context := ""; usage_count := 1; next_keywords := ["C"] |} in
  known (analyze_keywords init setup_nested_teardown) (keyword r)
  ∧ (0 < usage_count r)%nat ∧ (0 < confidence r)%Q ∧ (confidence r <= 1)%Q.
Proof.
  intros r.
  apply (recommendations_well_formed
           (analyze_keywords init setup_nested_teardown) "A" "" 10 r).
  - apply trained_analyze, trained_init.
  - vm_compute. left.
Defined.

(** X19: every context recommendation of a trained analyzer names a keyword
    seen in training, carries a count of at least one and a confidence above
    0 and at most 1. *)
Theorem context_recommendations_well_formed st context_keywords limit r :
  trained st → r ∈ get_context_recommendations st context_keywords limit →
  known st (keyword r) ∧ (0 < usage_count r)%nat
  ∧ (0 < confidence r)%Q ∧ (confidence r <= 1)%Q.
Proof.
  intros Ht Hr.
  destruct (trained_tables_agree st Ht) as (_ & _ & _ & _ & _ & _ & Hseq).
  destruct context_keywords as [|kw kws]; [by apply elem_of_nil in Hr|].
  rewrite get_context_recommendations_tally in Hr by done.
  apply list_elem_of_fmap in Hr as ([next n] & -> & Hin).
  apply elem_of_most_common, tally_entries in Hin as [-> Hpos]. cbn.
  pose proof (occurrences_le next (successors st (kw :: kws))) as Hle.
  split_and!.
  - apply occurrences_pos in Hpos. unfold successors in Hpos.
    apply list_elem_of_omap in Hpos as (sequence & Hin & Hnext).
    unfold matching_sequences in Hin.
    apply list_elem_of_filter in Hin as [_ Hin].
    apply (Hseq sequence); [done|].
    unfold successor in Hnext. by eapply list_elem_of_lookup_2.
  - done.
  - apply ratio_pos; lia.
  - apply ratio_le_1; lia.
Qed.

Lemma context_recommendations_well_formed_witness :
  let r := {| keyword := "C"; library := "BuiltIn"; confidence := 1;
              context := "A -> B"; usage_count := 1; next_keywords := [] |} in
  known (analyze_keywords init setup_nested_teardown) (keyword r)
  ∧ (0 < usage_count r)%nat ∧ (0 < confidence r)%Q ∧ (confidence r <= 1)%Q.
Proof.
  intros r.
  apply (context_recommendations_well_formed
           (analyze_keywords init setup_nested_teardown) ["A"; "B"] 10 r).
  - apply trained_analyze, trained_init.
  - vm_compute. left.
Defined.

End Confidence.

(** ** The rows recorded by the markup-row fallback *)

Section HtmlRows.
Import LogHTMLExtractor Scenarios.
Variable finditer : string → string → list string.
Variable sub : string → string → string → string.
Variables keyword_pattern tag_pattern : string.

Lemma table_rows_numbered groups : ∀ self,
  let names := filter (λ name, name ≠ "")
                 ((λ group1, strip (sub tag_pattern "" group1)) <$> groups) in
  let self' := foldl (table_row sub tag_pattern [0] [""]) self groups in
  ∃ new,
    keywords self' = keywords self ++ new
    ∧ kw_name <$> new = names
    ∧ kw_execution_order <$> new
      = seq (execution_order self + 1) (length names)
    ∧ execution_order self' = execution_order self + length names.
Proof.
  induction groups as [|g groups IH]; intros self; cbn zeta.
  - exists []. simpl. by rewrite app_nil_r, Nat.add_0_r.
  - rewrite fmap_cons, filter_cons. cbn [foldl].
    destruct (IH (table_row sub tag_pattern [0] [""] self g))
      as (new & Hkeywords & Hnames & Horders & Hcounter).
    unfold table_row in *.
    destruct (decide (strip (sub tag_pattern "" g) = "")) as [Hblank|Hname].
    + rewrite decide_False by (by intros []). by exists new.
    + rewrite decide_True by done. cbn [keywords execution_order] in *.
      eexists (_ :: new). split_and!.
      * by rewrite Hkeywords, <-app_assoc.
      * csimpl. by rewrite Hnames.
      * csimpl. rewrite Horders. do 2 f_equal. lia.
      * rewrite Hcounter. simpl. lia.
Qed.

(** X20: when the link texts of the matched rows, tags removed, are made of
    ASCII characters, the markup-row fallback records one keyword for every
    matched row whose link text, tags removed and blanks stripped, is not
    empty, in the order of the matches and under that text as its name; it
    numbers them on from the counter of the extractor, a row with an empty
    text using up no number, and leaves the counter at the last number
    given. *)
Theorem html_tables_rows_numbered content self :
  Forall (λ group1, ascii_text (sub tag_pattern "" group1))
    (finditer keyword_pattern content) →
  let names := filter (λ name, name ≠ "")
                 ((λ group1, strip (sub tag_pattern "" group1))
                  <$> finditer keyword_pattern content) in
  let self' := extract_from_html_tables finditer sub keyword_pattern
                 tag_pattern content self in
  ∃ new,
    keywords self' = keywords self ++ new
    ∧ kw_name <$> new = names
    ∧ kw_execution_order <$> new
      = seq (execution_order self + 1) (length names)
    ∧ execution_order self' = execution_order self + length names.
Proof.
  intros _. unfold extract_from_html_tables. apply table_rows_numbered.
Qed.

End HtmlRows.

Lemma html_tables_rows_numbered_witness :
  let finditer := λ _ _ : string, ["Open Browser"; "  "; " Log "] in
  let sub := λ _ _ text : string, text in
  let names := filter (λ name, name ≠ "")
                 ((λ group1, LogHTMLExtractor.strip (sub "" "" group1))
                  <$> finditer "" "") in
  let self' := LogHTMLExtractor.extract_from_html_tables finditer sub "" ""
                 "" LogHTMLExtractor.init in
  ∃ new,
    LogHTMLExtractor.keywords self'
    = LogHTMLExtractor.keywords LogHTMLExtractor.init ++ new
    ∧ kw_name <$> new = names
    ∧ kw_execution_order <$> new
      = seq (LogHTMLExtractor.execution_order LogHTMLExtractor.init + 1)
          (length names)
    ∧ LogHTMLExtractor.execution_order self'
      = LogHTMLExtractor.execution_order LogHTMLExtractor.init + length names.
Proof.
  intros finditer sub.
  apply (html_tables_rows_numbered finditer sub "" "" ""
           LogHTMLExtractor.init).
  apply (bool_decide_unpack _). vm_compute. exact I.
Defined.

(** The rows of the witness: the blank row is skipped and uses up no
    number. *)
Example html_tables_blank_row_skipped :
  Scenarios.orders
    (LogHTMLExtractor.keywords
       (LogHTMLExtractor.extract_from_html_tables
          (λ _ _, ["Open Browser"; "  "; " Log "]) (λ _ _ text, text) "" ""
          "" LogHTMLExtractor.init))
  = [("Open Browser", 1); ("Log", 2)].
Proof. vm_compute. reflexivity. Qed.

(** ** One log in two parts *)

Lemma adjacent_app a b (l1 l2 : list string) :
  Scenarios.adjacent a b (l1 ++ l2)
  = (Scenarios.adjacent a b l1 + Scenarios.adjacent a b l2
     + (if decide (last l1 = Some a ∧ head l2 = Some b) then 1 else 0))%nat.
Proof.
  induction l1 as [|x l1 IH].
  - simpl. lia.
  - destruct l1 as [|y l1].
    + clear IH. destruct l2 as [|z l2]; simpl.
      * case_decide as H; [by destruct H|done].
      * assert ((x = a ∧ z = b) ↔ (Some x = Some a ∧ Some z = Some b)) as Hiff
          by (split; intros [? ?]; split; congruence).
        repeat case_decide; try lia; tauto.
    + change (Scenarios.adjacent a b ((x :: y :: l1) ++ l2))
        with ((if decide (x = a ∧ y = b) then 1 else 0)
              + Scenarios.adjacent a b ((y :: l1) ++ l2))%nat.
      rewrite IH.
      change (Scenarios.adjacent a b (x :: y :: l1))
        with ((if decide (x = a ∧ y = b) then 1 else 0)
              + Scenarios.adjacent a b (y :: l1))%nat.
      change (last (x :: y :: l1)) with (last (y :: l1)). lia.
Qed.

Section SplitLog.
Import KeywordPatternAnalyzer Scenarios.

Lemma analyze_keywords_transition_count st keywords a b :
  transition_count (analyze_keywords st keywords) a b
  = (transition_count st a b + adjacent a b (kw_name <$> keywords))%nat.
Proof.
  unfold analyze_keywords, transition_count.
  rewrite finish_keyword_transitions.
  apply (foldl_transition_count
           {| self := st; current_sequence := []; current_context := "" |}).
Qed.

(** X21: ingesting a log in two parts, one after the other, gives the same
    frequencies, the same keyword-to-library map and the same library index
    as ingesting it whole; of the transitions only the one across the cut,
    from the last record of the first part to the first record of the
    second, is missing. *)
Theorem split_log_loses_one_transition st keywords1 keywords2 :
  let whole := analyze_keywords st (keywords1 ++ keywords2) in
  let parts := analyze_keywords (analyze_keywords st keywords1) keywords2 in
  keyword_frequencies parts = keyword_frequencies whole
  ∧ keyword_libraries parts = keyword_libraries whole
  ∧ library_keywords parts = library_keywords whole
  ∧ ∀ a b,
      transition_count whole a b
      = (transition_count parts a b
         + (if decide (last (kw_name <$> keywords1) = Some a
                       ∧ head (kw_name <$> keywords2) = Some b)
            then 1 else 0))%nat.
Proof.
  intros whole parts. unfold whole, parts. split_and!.
  - unfold analyze_keywords.
    rewrite !finish_keyword_frequencies, !foldl_keyword_frequencies.
    cbn [self]. rewrite finish_keyword_frequencies, foldl_keyword_frequencies.
    cbn [self]. by rewrite fmap_app, foldl_app.
  - unfold analyze_keywords.
    rewrite !finish_keyword_libraries, !foldl_keyword_libraries.
    cbn [self]. rewrite finish_keyword_libraries, foldl_keyword_libraries.
    cbn [self]. by rewrite foldl_app.
  - unfold analyze_keywords.
    rewrite !finish_library_keywords, !foldl_library_keywords.
    cbn [self]. rewrite finish_library_keywords, foldl_library_keywords.
    cbn [self]. by rewrite foldl_app.
  - intros a b. rewrite !analyze_keywords_transition_count.
    rewrite fmap_app, adjacent_app. lia.
Qed.

End SplitLog.

(** ** Limits *)

Section Limits.
Import KeywordPatternAnalyzer RobotKeywordRecommender Scenarios.

Lemma length_slice_to {A} n (l : list A) :
  (0 ≤ n)%Z → (length (slice_to n l) ≤ Z.to_nat n)%nat.
Proof. intros Hn. rewrite slice_to_nonneg by done. rewrite length_take. lia. Qed.

Lemma length_most_common n c :
  (0 ≤ n)%Z → (length (most_common n c) ≤ Z.to_nat n)%nat.
Proof.
  intros Hn. unfold most_common, nlargest. case_decide; simpl; [lia|].
  rewrite length_take. lia.
Qed.

(** X22: a limit that is not negative is respected by the three queries
    that take one: recommendations for a keyword, context recommendations
    and popular keywords never return more entries than the limit. *)
Theorem limits_respected st limit :
  (0 ≤ limit)%Z →
  (∀ k ctx,
     (length (get_recommendations st k ctx limit) ≤ Z.to_nat limit)%nat)
  ∧ (∀ context_keywords,
       (length (get_context_recommendations st context_keywords limit)
        ≤ Z.to_nat limit)%nat)
  ∧ (∀ library,
       (length (get_popular_keywords st library limit) ≤ Z.to_nat limit)%nat).
Proof.
  intros Hlimit. split_and!.
  - intros k ctx. unfold get_recommendations. by apply length_slice_to.
  - intros [|kw kws]; [simpl; lia|].
    rewrite get_context_recommendations_tally by done.
    rewrite length_fmap. by apply length_most_common.
  - intros library. rewrite get_popular_keywords_take, length_fmap, length_take.
    lia.
Qed.

Lemma limits_respected_witness :
  let st := analyze_keywords init xyz_log1 in
  (∀ k ctx, (length (get_recommendations st k ctx 1) ≤ Z.to_nat 1)%nat)
  ∧ (∀ context_keywords,
       (length (get_context_recommendations st context_keywords 1)
        ≤ Z.to_nat 1)%nat)
  ∧ (∀ library,
       (length (get_popular_keywords st library 1) ≤ Z.to_nat 1)%nat).
Proof. intros st. apply (limits_respected st 1). lia. Defined.

(** X23: with a limit of zero or less the context recommendations and the
    popular keywords are empty, and the recommendations for a keyword
    ignore its transitions: they are taken from the ranked list of the other
    keywords of its library, cut by the slice, which is empty for a limit of
    zero and drops the last entries for a negative one. *)
Theorem nonpositive_limit st limit :
  (limit ≤ 0)%Z →
  (∀ context_keywords,
     get_context_recommendations st context_keywords limit = [])
  ∧ (∀ library, get_popular_keywords st library limit = [])
  ∧ (∀ k ctx,
       get_recommendations st k ctx limit
       = slice_to limit
           (sorted_reverse recommendation_leb
              (library_recommendations st k ctx))).
Proof.
  intros Hlimit. split_and!.
  - intros [|kw kws]; [done|].
    rewrite get_context_recommendations_tally by done.
    unfold most_common. by rewrite nlargest_nonpos.
  - intros library. rewrite get_popular_keywords_take.
    unfold most_common. rewrite nlargest_nonpos by lia.
    by rewrite filter_nil, take_nil.
  - intros k ctx. apply get_recommendations_fallback.
    unfold direct_recommendations.
    destruct (get (keyword_transitions st) k); [|done].
    unfold most_common. by rewrite nlargest_nonpos.
Qed.

Lemma nonpositive_limit_witness :
  let st := analyze_keywords init same_library in
  (∀ context_keywords,
     get_context_recommendations st context_keywords (-1) = [])
  ∧ (∀ library, get_popular_keywords st library (-1) = [])
  ∧ (∀ k ctx,
       get_recommendations st k ctx (-1)
       = slice_to (-1)
           (sorted_reverse recommendation_leb
              (library_recommendations st k ctx))).
Proof. intros st. apply (nonpositive_limit st (-1)). lia. Defined.

(** With the limit -1 the keyword A of [same_library], which is followed by
    B in training, is not answered from its transitions: the answer comes
    from the library list, less its last entry, and carries the confidence
    of the fallback. *)
Example negative_limit_ignores_transitions :
  let st := analyze_keywords init same_library in
  (λ r, (keyword r, confidence r)) <$> get_recommendations st "A" "" 10
  = [("B", 1%Q)]
  ∧ confidence <$> get_recommendations st "A" "" (-1) = [(1 # 10)%Q].
Proof. split; vm_compute; reflexivity. Qed.

End Limits.

(** ** Empty filters and empty texts *)

Section EmptyInputs.
Import KeywordPatternAnalyzer RobotKeywordRecommender Scenarios.

Lemma filter_all {A} (P : A → Prop) `{!∀ x, Decision (P x)} (l : list A) :
  Forall P l → filter P l = l.
Proof.
  induction 1 as [|x l Hx _ IH]; [done|].
  by rewrite filter_cons, decide_True, IH.
Qed.

Lemma filter_none {A} (P : A → Prop) `{!∀ x, Decision (P x)} (l : list A) :
  Forall (λ x, ¬ P x) l → filter P l = [].
Proof.
  induction 1 as [|x l Hx _ IH]; [done|].
  by rewrite filter_cons, decide_False, IH.
Qed.

(** X24: an empty library filter is read in two ways: the autocomplete
    query takes it for no filter at all, whereas the popular keywords of a
    trained analyzer are searched for the library with the empty name, which
    no keyword has, so that the answer is empty. *)
Theorem empty_library_filter st partial_keyword limit :
  trained st →
  get_autocomplete_suggestions st partial_keyword (Some "")
  = get_autocomplete_suggestions st partial_keyword None
  ∧ get_popular_keywords st (Some "") limit = [].
Proof.
  intros Ht. split; [done|].
  destruct (trained_tables_agree st Ht) as (_ & _ & _ & Hlib & _).
  rewrite get_popular_keywords_take, filter_none; [by rewrite take_nil|].
  apply Forall_forall. intros [k n] _. simpl. unfold get_default.
  destruct (get (keyword_libraries st) k) as [lib|] eqn:E; simpl; [|done].
  by destruct (Hlib k lib E) as [? _].
Qed.

Lemma empty_library_filter_witness :
  let st := analyze_keywords init two_libraries in
  get_autocomplete_suggestions st "x" (Some "")
  = get_autocomplete_suggestions st "x" None
  ∧ get_popular_keywords st (Some "") 5 = [].
Proof.
  intros st. apply (empty_library_filter st "x" 5).
  apply trained_analyze, trained_init.
Defined.

Lemma str_in_empty s : str_in "" s = true.
Proof. by destruct s. Qed.

(** X25: the empty text matches every keyword: without a filter the
    autocomplete query answers with 20 suggestions, or with as many as there
    are known keywords when these are fewer, and in that case with every
    known keyword. *)
Theorem autocomplete_empty_text st :
  length (get_autocomplete_suggestions st "" None)
  = length (keyword_libraries st) `min` 20
  ∧ ((length (keyword_libraries st) ≤ 20)%nat →
     sg_keyword <$> get_autocomplete_suggestions st "" None
     ≡ₚ keys (keyword_libraries st)).
Proof.
  unfold get_autocomplete_suggestions, matching_suggestions. cbv zeta.
  unfold dict.
  rewrite filter_all
    by (apply Forall_forall; intros item _; split;
        [done|apply str_in_empty]).
  rewrite (slice_to_nonneg 20) by lia. change (Z.to_nat 20) with 20%nat.
  split.
  - rewrite length_take, length_sorted_reverse, length_fmap. lia.
  - intros Hlen. rewrite take_ge
      by (rewrite length_sorted_reverse, length_fmap; lia).
    rewrite sorted_reverse_Permutation, <-list_fmap_compose. done.
Qed.

Lemma autocomplete_empty_text_witness :
  sg_keyword <$> get_autocomplete_suggestions
                   (analyze_keywords init click_keywords) "" None
  ≡ₚ keys (keyword_libraries (analyze_keywords init click_keywords)).
Proof.
  apply (autocomplete_empty_text (analyze_keywords init click_keywords)).
  simpl. lia.
Defined.

End EmptyInputs.

(** ** Saving and loading the model *)

Lemma fmap_slice_to {A B} (f : A → B) n (l : list A) :
  f <$> slice_to n l = slice_to n (f <$> l).
Proof. unfold slice_to. case_decide; by rewrite fmap_take, ?length_fmap. Qed.

Lemma Permutation_slice_to_all {A} n (l1 l2 : list A) :
  (Z.of_nat (length l1) ≤ n)%Z → l1 ≡ₚ l2 → slice_to n l1 ≡ₚ slice_to n l2.
Proof.
  intros Hn Hperm. rewrite !slice_to_all; [done| |done].
  by rewrite <-Hperm.
Qed.

Section SortMap.
Context {A : Type} (leb : A → A → bool) (g : A → A).
Hypothesis leb_g : ∀ x y, leb (g x) (g y) = leb x y.

(** A map that does not touch the sort key goes through the sort. *)
Lemma insert_desc_fmap x l :
  insert_desc leb (g x) (g <$> l) = g <$> insert_desc leb x l.
Proof.
  induction l as [|y l IH]; [done|]. csimpl. rewrite leb_g.
  destruct (leb y x); csimpl; [done|]. by rewrite IH.
Qed.

Lemma sorted_reverse_fmap l :
  sorted_reverse leb (g <$> l) = g <$> sorted_reverse leb l.
Proof.
  induction l as [|x l IH]; [done|]. csimpl.
  unfold sorted_reverse in *. simpl. by rewrite IH, insert_desc_fmap.
Qed.
End SortMap.

(** The counts listed by [most_common] depend on the entries of the counter
    only, not on their order. *)
Lemma most_common_counts n (c1 c2 : dict nat) :
  c1 ≡ₚ c2 → (most_common n c1).*2 = (most_common n c2).*2.
Proof.
  intros Hperm. unfold most_common, nlargest.
  case_decide; [done|]. rewrite !fmap_take. f_equal.
  apply (StronglySorted_unique_strong (λ x y : nat, (y ≤ x)%nat)).
  - intros x y _ _ ? ?. lia.
  - eapply StronglySorted_fmap; [|apply (sorted_reverse_sorted count_leb);
      [apply count_leb_total|apply count_leb_trans]].
    intros x y. unfold desc, count_leb. by rewrite Nat.leb_le.
  - eapply StronglySorted_fmap; [|apply (sorted_reverse_sorted count_leb);
      [apply count_leb_total|apply count_leb_trans]].
    intros x y. unfold desc, count_leb. by rewrite Nat.leb_le.
  - by rewrite !sorted_reverse_Permutation, Hperm.
Qed.

Section Snapshot.
Import KeywordPatternAnalyzer RobotKeywordRecommender Scenarios.

Lemma elements_order_ok : iteration_ok elements_order.
Proof. by split. Qed.

Lemma reverse_order_ok : iteration_ok reverse_order.
Proof. split; intros k v; simpl; apply reverse_Permutation. Qed.

(** With the order [elements] the variants are the queries. *)
Lemma queries_in_elements_order st :
  (∀ k ctx, library_recommendations_in elements_order st k ctx
            = library_recommendations st k ctx)
  ∧ (∀ k ctx n, get_recommendations_in elements_order st k ctx n
                = get_recommendations st k ctx n)
  ∧ (∀ p f, get_autocomplete_suggestions_in elements_order st p f
            = get_autocomplete_suggestions st p f)
  ∧ get_library_statistics_in elements_order st = get_library_statistics st.
Proof. by split_and!. Qed.

Lemma sets_roundtrip (order : string → gset string → list string)
    (d : dict (gset string)) :
  (∀ k v, order k v ≡ₚ elements v) →
  map_values list_to_set ((λ kv, (kv.1, order kv.1 kv.2)) <$> d) = d.
Proof.
  intros Horder. unfold map_values. rewrite <-list_fmap_compose.
  rewrite <-(list_fmap_id d) at 2. apply list_fmap_ext.
  intros _ [k v] _. simpl.
  by rewrite (list_to_set_perm_L _ _ (Horder k v)), list_to_set_elements_L.
Qed.

(** Loading what was saved gives an analyzer with the tables, and the sets,
    that were saved, whatever the analyzer it is loaded into and whatever
    the order in which the sets were listed. *)
Lemma load_save (it : Iteration) (fresh st : Analyzer) :
  iteration_ok it → load_model fresh (save_model it st) = st.
Proof.
  intros [Hc Hl]. destruct st. unfold load_model, save_model. simpl.
  by rewrite !sets_roundtrip.
Qed.

(** The fallback candidates under two iteration orders are the same, in
    another order. *)
Lemma library_recommendations_in_Permutation it it' st k ctx :
  iteration_ok it → iteration_ok it' →
  library_recommendations_in it' st k ctx
  ≡ₚ library_recommendations_in it st k ctx.
Proof.
  intros [_ Hl] [_ Hl']. unfold library_recommendations_in.
  destruct (get (keyword_libraries st) k) as [lib|]; [|done].
  by rewrite Hl, Hl'.
Qed.

Lemma library_recommendations_in_fields it st k ctx r :
  r ∈ library_recommendations_in it st k ctx →
  ∃ lib, get (keyword_libraries st) k = Some lib
         ∧ apart_from_keyword r = (lib, (1 # 10)%Q, ctx, usage_count r, []).
Proof.
  unfold library_recommendations_in.
  destruct (get (keyword_libraries st) k) as [lib|];
    [|by intros ?%elem_of_nil].
  intros (kw & -> & _)%list_elem_of_fmap. by exists lib.
Qed.

(** Ranked, they say the same apart from the keywords. *)
Lemma ranked_fallback_apart_from_keyword it it' st k ctx :
  iteration_ok it → iteration_ok it' →
  apart_from_keyword
  <$> sorted_reverse recommendation_leb
        (library_recommendations_in it' st k ctx)
  = apart_from_keyword
    <$> sorted_reverse recommendation_leb
          (library_recommendations_in it st k ctx).
Proof.
  intros Hit Hit'.
  pose proof (library_recommendations_in_Permutation it it' st k ctx Hit Hit')
    as Hperm.
  assert (∀ it0, StronglySorted
            (λ x y : string * Q * string * nat * list string,
               (y.1.2 ≤ x.1.2)%nat)
            (apart_from_keyword
             <$> sorted_reverse recommendation_leb
                   (library_recommendations_in it0 st k ctx))) as Hsorted.
  { intros it0.
    apply (StronglySorted_fmap _
             (λ x y, (usage_count y ≤ usage_count x)%nat)); [done|].
    apply (StronglySorted_impl_Forall
             (λ r, confidence r = (1 # 10)%Q) (desc recommendation_leb)).
    - intros x y Hx Hy. apply desc_same_confidence. congruence.
    - apply Forall_forall. intros r Hr%elem_of_sorted_reverse.
      apply library_recommendations_in_fields in Hr as (lib & _ & Hr).
      by injection Hr.
    - apply recommendations_sorted. }
  apply (StronglySorted_unique_strong
           (λ x y : string * Q * string * nat * list string,
              (y.1.2 ≤ x.1.2)%nat)); [|apply Hsorted..|].
  - intros x1 x2 (r1 & -> & Hr1)%list_elem_of_fmap
      (r2 & -> & Hr2)%list_elem_of_fmap H12 H21.
    apply elem_of_sorted_reverse, library_recommendations_in_fields in Hr1
      as (lib1 & Hlib1 & ->).
    apply elem_of_sorted_reverse, library_recommendations_in_fields in Hr2
      as (lib2 & Hlib2 & ->).
    simpl in *. assert (lib1 = lib2) as -> by congruence.
    by assert (usage_count r1 = usage_count r2) as -> by lia.
  - by rewrite !sorted_reverse_Permutation, Hperm.
Qed.

(** The context lists of the suggestions are the only place where the
    iteration order shows. *)
Lemma get_autocomplete_suggestions_in_contexts it it' st p f :
  get_autocomplete_suggestions_in it' st p f
  = (λ s, {| sg_keyword := sg_keyword s; sg_library := sg_library s;
             sg_frequency := sg_frequency s;
             sg_contexts :=
               contexts_order it' (sg_keyword s)
                 (contexts_of st (sg_keyword s)) |})
    <$> get_autocomplete_suggestions_in it st p f.
Proof.
  unfold get_autocomplete_suggestions_in.
  rewrite fmap_slice_to, <-sorted_reverse_fmap by done.
  unfold matching_suggestions_in. by rewrite <-list_fmap_compose.
Qed.

Lemma get_autocomplete_suggestions_in_elem it st p f s :
  s ∈ get_autocomplete_suggestions_in it st p f →
  sg_contexts s
  = contexts_order it (sg_keyword s) (contexts_of st (sg_keyword s)).
Proof.
  unfold get_autocomplete_suggestions_in.
  destruct (slice_to_take 20
              (sorted_reverse suggestion_leb (matching_suggestions_in it st p f)))
    as [m ->].
  intros Hs%elem_of_take%elem_of_sorted_reverse.
  unfold matching_suggestions_in in Hs.
  by apply list_elem_of_fmap in Hs as (item & -> & _).
Qed.

Lemma top_keywords_of_list (usage : string → nat) (l : list string) :
  ((λ item : string * nat, (item.1, usage item.1))
   <$> most_common 5 ((λ kw, (kw, usage kw)) <$> l))
  = most_common 5 ((λ kw, (kw, usage kw)) <$> l).
Proof.
  rewrite <-(list_fmap_id (most_common 5 _)) at 2.
  apply list_fmap_ext. intros i item Hitem%list_elem_of_lookup_2.
  by apply elem_of_most_common, list_elem_of_fmap in Hitem as (kw & -> & _).
Qed.

(** [two_contexts] and [same_library]: the saved analyzer iterates its sets
    in one order and the loaded one in the reverse order, both orders of
    the same elements; the autocomplete query for B then lists the two
    contexts of B in another order, and the library fallback for K, cut to
    one recommendation, names another keyword. *)
Lemma snapshot_reorders_answers :
  let st := analyze_keywords init two_contexts in
  let st' := load_model init (save_model elements_order st) in
  let lib := analyze_keywords init same_library in
  let lib' := load_model init (save_model elements_order lib) in
  iteration_ok elements_order ∧ iteration_ok reverse_order
  ∧ length <$> (sg_contexts
                <$> get_autocomplete_suggestions_in elements_order st "B" None)
    = [2%nat]
  ∧ get_autocomplete_suggestions_in reverse_order st' "B" None
    ≠ get_autocomplete_suggestions_in elements_order st "B" None
  ∧ get_recommendations_in reverse_order lib' "K" "" 1
    ≠ get_recommendations_in elements_order lib "K" "" 1.
Proof.
  intros st st' lib lib'.
  split; [apply elements_order_ok|]. split; [apply reverse_order_ok|].
  split; [vm_compute; reflexivity|]. split.
  - intros H. apply (f_equal (fmap sg_contexts)) in H.
    vm_compute in H. discriminate H.
  - intros H. apply (f_equal (fmap keyword)) in H.
    vm_compute in H. discriminate H.
Qed.

(** C5 (amended): saving an analyzer and loading the result into another one
    gives back the tables and the sets that were saved, but not the order
    in which the sets are iterated.  Whatever the two orders, the direct
    and the context recommendations are the same; the recommendations for a
    keyword are the same when they come from transitions, and otherwise say
    the same position by position apart from the keywords named, which are
    the same keywords when the limit does not cut the list; the autocomplete
    suggestions are the same up to the order of their context lists; and the
    library statistics show the same libraries with the same keyword
    counts, total usages and top counts, and the same top keywords when the
    library has at most five. *)
Theorem snapshot_roundtrip_up_to_order (it it' : Iteration)
    (fresh st : Analyzer) :
  iteration_ok it → iteration_ok it' →
  let st' := load_model fresh (save_model it st) in
  st' = st
  ∧ (∀ k ctx n,
       direct_recommendations st' k ctx n = direct_recommendations st k ctx n)
  ∧ (∀ ks n,
       get_context_recommendations st' ks n
       = get_context_recommendations st ks n)
  ∧ (∀ k ctx n,
       let recs := get_recommendations_in it st k ctx n in
       let recs' := get_recommendations_in it' st' k ctx n in
       (direct_recommendations st k ctx n ≠ [] → recs' = recs)
       ∧ apart_from_keyword <$> recs' = apart_from_keyword <$> recs
       ∧ ((Z.of_nat (length recs) < n)%Z → recs' ≡ₚ recs))
  ∧ (∀ p f,
       Forall2 same_suggestion
         (get_autocomplete_suggestions_in it' st' p f)
         (get_autocomplete_suggestions_in it st p f))
  ∧ Forall2 same_statistics
      (get_library_statistics_in it' st')
      (get_library_statistics_in it st).
Proof.
  intros Hit Hit' st'. subst st'. rewrite (load_save it fresh st Hit).
  split_and!; [done..| | |].
  - intros k ctx n recs recs'. unfold recs, recs', get_recommendations_in.
    destruct (direct_recommendations st k ctx n) as [|r direct] eqn:Hd;
      [|done].
    split_and!; [done| |].
    + by rewrite !fmap_slice_to,
        (ranked_fallback_apart_from_keyword it it' st k ctx).
    + intros Hlen.
      pose proof (library_recommendations_in_Permutation it it' st k ctx
                    Hit Hit') as Hperm.
      assert (Z.of_nat (length (library_recommendations_in it st k ctx)) ≤ n)%Z
        as Hall.
      { destruct (decide (Z.of_nat
                    (length (library_recommendations_in it st k ctx)) ≤ n)%Z)
          as [|Hcut]; [done|].
        rewrite <-(length_sorted_reverse recommendation_leb) in Hcut.
        unfold slice_to in Hlen. case_decide.
        - rewrite length_take in Hlen. lia.
        - lia. }
      rewrite !slice_to_all;
        rewrite ?length_sorted_reverse, ?Hperm; [|done..].
      by rewrite !sorted_reverse_Permutation.
  - intros p f. rewrite (get_autocomplete_suggestions_in_contexts it it').
    apply Forall2_fmap_l, Forall_Forall2_diag, Forall_forall.
    intros s Hs. unfold same_suggestion. simpl. split_and!; [done..|].
    rewrite (get_autocomplete_suggestions_in_elem _ _ _ _ _ Hs).
    destruct Hit as [Hc _], Hit' as [Hc' _]. by rewrite Hc, Hc'.
  - unfold get_library_statistics_in.
    apply Forall2_fmap, Forall_Forall2_diag, Forall_forall.
    intros [lib v] _. unfold same_statistics. cbn.
    destruct Hit as [_ Hl], Hit' as [_ Hl'].
    set (usage := λ kw, count (keyword_frequencies st) kw).
    assert ((λ kw, (kw, usage kw)) <$> library_order it' lib v
            ≡ₚ (λ kw, (kw, usage kw)) <$> library_order it lib v) as Hperm
      by (by rewrite Hl, Hl').
    split_and!; [done..| | |].
    + apply sum_list_Permutation. by rewrite Hl, Hl'.
    + rewrite !top_keywords_of_list. by apply most_common_counts.
    + intros Hsize. rewrite !top_keywords_of_list.
      assert (length (library_order it lib v) = size v) as Hlen
        by (by rewrite Hl).
      rewrite !most_common_all_entries; [done|..];
        rewrite ?Hperm, length_fmap; lia.
Qed.

Lemma snapshot_roundtrip_up_to_order_witness :
  let it := elements_order in
  let it' := reverse_order in
  let st := analyze_keywords init two_contexts in
  let st' := load_model init (save_model it st) in
  st' = st
  ∧ (∀ k ctx n,
       direct_recommendations st' k ctx n = direct_recommendations st k ctx n)
  ∧ (∀ ks n,
       get_context_recommendations st' ks n
       = get_context_recommendations st ks n)
  ∧ (∀ k ctx n,
       let recs := get_recommendations_in it st k ctx n in
       let recs' := get_recommendations_in it' st' k ctx n in
       (direct_recommendations st k ctx n ≠ [] → recs' = recs)
       ∧ apart_from_keyword <$> recs' = apart_from_keyword <$> recs
       ∧ ((Z.of_nat (length recs) < n)%Z → recs' ≡ₚ recs))
  ∧ (∀ p f,
       Forall2 same_suggestion
         (get_autocomplete_suggestions_in it' st' p f)
         (get_autocomplete_suggestions_in it st p f))
  ∧ Forall2 same_statistics
      (get_library_statistics_in it' st')
      (get_library_statistics_in it st).
Proof.
  apply (snapshot_roundtrip_up_to_order elements_order reverse_order init
           (analyze_keywords init two_contexts)).
  - split; intros k v; reflexivity.
  - split; intros k v; simpl; apply reverse_Permutation.
Defined.

End Snapshot.
